(** * multi-postgres-mcp-server: statement classifier, configuration
      snapshot, pool registry and query executor

    A shallow embedding of [index.ts].  JavaScript strings are sequences of
    UTF-16 code units; the module-level mutable state ([pools],
    [configCache]) is threaded explicitly; everything the process reads from
    outside (clock, file system, database replies) is an oracle over the
    history of interactions performed so far. *)

From Stdlib Require Import NArith ZArith Ascii Lia.
From stdpp Require Import base option list strings gmap.
From Equations Require Import Equations.

(** ** JavaScript strings *)

(** A string is the list of its UTF-16 code units. *)
Abbreviation jsString := (list N).

Definition cu (a : ascii) : N := N_of_ascii a.

(** An ASCII literal as a JavaScript string. *)
Definition js (s : string) : jsString := cu <$> String.list_ascii_of_string s.

Definition dquote : N := 34.
Definition newline : N := 10.

(** [o] is the one-character string [c]; [None] stands for the empty string
    (and for [undefined] when an index is out of range). *)
Definition isChar (c : N) (o : option N) : bool := bool_decide (o = Some c).

Fixpoint startsWith (pat s : jsString) : bool :=
  match pat, s with
  | [], _ => true
  | p :: pat', c :: s' => (p =? c)%N && startsWith pat' s'
  | _ :: _, [] => false
  end.

(** Search of [pat] in [rest], the suffix of the subject that starts at
    index [k]. *)
Fixpoint indexOfAux (pat rest : jsString) (k : nat) : option nat :=
  if startsWith pat rest then Some k
  else match rest with
       | [] => None
       | _ :: rest' => indexOfAux pat rest' (S k)
       end.

(** [String.prototype.indexOf(pat, from)]; [None] is [-1]. *)
Definition indexOf (s pat : jsString) (from : nat) : option nat :=
  indexOfAux pat (drop from s) (from `min` length s).

(** [String.prototype.substring(a, b)]: both ends are clamped to the length
    and swapped when out of order. *)
Definition substring (s : jsString) (a b : nat) : jsString :=
  let a' := a `min` length s in
  let b' := b `min` length s in
  take (a' `max` b' - a' `min` b') (drop (a' `min` b') s).

(** [String.prototype.substring(a)]. *)
Definition substringFrom (s : jsString) (a : nat) : jsString := drop a s.

(** The code units removed by [String.prototype.trim]: ECMAScript WhiteSpace
    and LineTerminator. *)
Definition isWhiteSpace (c : N) : bool :=
  ((9 <=? c) && (c <=? 13) || (c =? 32) || (c =? 160) || (c =? 5760)
   || (8192 <=? c) && (c <=? 8202) || (c =? 8232) || (c =? 8233)
   || (c =? 8239) || (c =? 8287) || (c =? 12288) || (c =? 65279))%N.

Fixpoint trimStart (s : jsString) : jsString :=
  match s with
  | c :: s' => if isWhiteSpace c then trimStart s' else s
  | [] => []
  end.

Definition trim (s : jsString) : jsString :=
  reverse (trimStart (reverse (trimStart s))).

(** ** SQL safety: [isSingleStatement] *)

(** [/[a-zA-Z0-9_]/.test(c)] on a one-character string. *)
Definition isTagChar (c : N) : bool :=
  ((97 <=? c) && (c <=? 122) || (65 <=? c) && (c <=? 90)
   || (48 <=? c) && (c <=? 57) || (c =? 95))%N.

(** The loop over the body of a single-quoted string.  [rest] is the text
    from index [i] on; the result is the index at which the loop stops: the
    closing quote, or the length when there is none. *)
Fixpoint skipLiteral (rest : jsString) (i : nat) : nat :=
  match rest with
  | [] => i
  | c :: rest' =>
      if (c =? cu "'")%N then
        match rest' with
        | c' :: rest'' =>
            if (c' =? cu "'")%N then skipLiteral rest'' (i + 2) else i
        | [] => i
        end
      else skipLiteral rest' (i + 1)
  end.

(** The loop over a double-quoted identifier: [i++] while [i < len] and
    [sql[i]] is not the double quote. *)
Fixpoint skipIdent (rest : jsString) (i : nat) : nat :=
  match rest with
  | [] => i
  | c :: rest' => if (c =? dquote)%N then i else skipIdent rest' (i + 1)
  end.

(** [while (j < len && /[a-zA-Z0-9_]/.test(sql[j])) j++] *)
Fixpoint skipTag (rest : jsString) (j : nat) : nat :=
  match rest with
  | [] => j
  | c :: rest' => if isTagChar c then skipTag rest' (j + 1) else j
  end.

(** What one iteration of the outer [while] does: [return b], or carry on
    with a new value of [i]. *)
Inductive Step := Return (b : bool) | Continue (i : nat).

(** The [$tag$] branch; [None] when the branch falls through. *)
Definition dollarStep (sql : jsString) (i : nat) : option Step :=
  let len := length sql in
  let j := skipTag (drop (i + 1) sql) (i + 1) in
  if bool_decide (j < len) && isChar (cu "$") (sql !! j) then
    let tag := substring sql i (j + 1) in
    match indexOf sql tag (j + 1) with
    | None => Some (Return true)
    | Some endIdx => Some (Continue (endIdx + length tag))
    end
  else None.

(** The body of the outer loop, entered with [i < len]. *)
Definition scanStep (sql : jsString) (i : nat) : Step :=
  let len := length sql in
  let ch := sql !! i in
  let next := if bool_decide (i + 1 < len) then sql !! (i + 1) else None in
  if isChar (cu "-") ch && isChar (cu "-") next then
    match indexOf sql [newline] i with
    | None => Return true
    | Some k => Continue (k + 1)
    end
  else if isChar (cu "/") ch && isChar (cu "*") next then
    match indexOf sql (js "*/") (i + 2) with
    | None => Return true
    | Some e => Continue (e + 2)
    end
  else if isChar (cu "'") ch then
    Continue (skipLiteral (drop (i + 1) sql) (i + 1) + 1)
  else if isChar dquote ch then
    Continue (skipIdent (drop (i + 1) sql) (i + 1) + 1)
  else
    match (if isChar (cu "$") ch then dollarStep sql i else None) with
    | Some st => st
    | None =>
        if isChar (cu ";") ch
           && bool_decide (0 < length (trim (substringFrom sql (i + 1))))
        then Return false
        else Continue (i + 1)
    end.

Lemma indexOfAux_ge pat rest k e : indexOfAux pat rest k = Some e → k ≤ e.
Proof.
  revert k. induction rest as [|c rest IH]; intros k; simpl.
  - destruct (startsWith pat []); [intros [= <-]; lia | discriminate].
  - destruct (startsWith pat (c :: rest)); [intros [= <-]; lia |].
    intros H. apply IH in H. lia.
Qed.

(** Induction following the two-characters-at-a-time recursion of
    [skipLiteral]. *)
Lemma list_pair_ind {A} (P : list A → Prop) :
  P [] → (∀ c, P [c]) →
  (∀ c c' l, P l → P (c' :: l) → P (c :: c' :: l)) →
  ∀ l, P l.
Proof.
  intros Hnil Hone Hstep l.
  cut (P l ∧ ∀ c, P (c :: l)); [tauto|].
  induction l as [|c' l [IH1 IH2]]; split; auto.
Qed.

Lemma skipLiteral_ge rest i : i ≤ skipLiteral rest i.
Proof.
  revert i. induction rest as [| c | c c' rest IH1 IH2] using list_pair_ind;
    intros i; cbn [skipLiteral] in *.
  - lia.
  - destruct (c =? cu "'")%N; lia.
  - destruct (c =? cu "'")%N.
    + destruct (c' =? cu "'")%N; [|lia]. specialize (IH1 (i + 2)). lia.
    + specialize (IH2 (i + 1)). lia.
Qed.

Lemma skipIdent_ge rest i : i ≤ skipIdent rest i.
Proof.
  revert i. induction rest as [|c rest IH]; intros i; cbn [skipIdent]; [lia|].
  destruct (c =? dquote)%N; [lia|]. specialize (IH (i + 1)). lia.
Qed.

Lemma skipTag_ge rest j : j ≤ skipTag rest j.
Proof.
  revert j. induction rest as [|c rest IH]; intros j; cbn [skipTag]; [lia|].
  destruct (isTagChar c); [|lia]. specialize (IH (j + 1)). lia.
Qed.

Lemma indexOf_ge s pat from e :
  from ≤ length s → indexOf s pat from = Some e → from ≤ e.
Proof. unfold indexOf. intros Hle H%indexOfAux_ge. lia. Qed.

Lemma isChar_true c o : isChar c o = true ↔ o = Some c.
Proof. apply bool_decide_eq_true. Qed.

Lemma isChar_false c o : isChar c o = false ↔ o ≠ Some c.
Proof. apply bool_decide_eq_false. Qed.

Lemma lookup_next (sql : jsString) i :
  (if bool_decide (i + 1 < length sql) then sql !! (i + 1) else None)
  = sql !! (i + 1).
Proof.
  case_bool_decide; [done|]. symmetry. apply lookup_ge_None. lia.
Qed.

Lemma dollarStep_progress sql i j :
  dollarStep sql i = Some (Continue j) → i < j.
Proof.
  unfold dollarStep. case_match; [|done].
  apply andb_prop in H as [Hj%bool_decide_eq_true _].
  case_match; intros [= <-]. apply indexOf_ge in H; [|lia].
  pose proof (skipTag_ge (drop (i + 1) sql) (i + 1)). lia.
Qed.

(** Every iteration that does not return moves [i] forward. *)
Lemma scanStep_progress sql i j :
  i < length sql → scanStep sql i = Continue j → i < j.
Proof.
  intros Hlt. unfold scanStep. rewrite lookup_next.
  destruct (isChar (cu "-") (sql !! i) && _).
  { case_match; intros [= <-]. apply indexOf_ge in H; lia. }
  destruct (isChar (cu "/") (sql !! i) && _) eqn:Hb.
  { apply andb_prop in Hb as [_ Hn%isChar_true]. apply lookup_lt_Some in Hn.
    case_match; intros [= <-]. apply indexOf_ge in H; lia. }
  destruct (isChar (cu "'") (sql !! i)).
  { intros [= <-]. pose proof (skipLiteral_ge (drop (i + 1) sql) (i + 1)). lia. }
  destruct (isChar dquote (sql !! i)).
  { intros [= <-]. pose proof (skipIdent_ge (drop (i + 1) sql) (i + 1)). lia. }
  destruct (if isChar (cu "$") (sql !! i) then _ else _) as [st|] eqn:Hd.
  { intros ->. destruct (isChar (cu "$") (sql !! i)); [|done].
    by apply dollarStep_progress in Hd. }
  destruct (isChar (cu ";") (sql !! i) && _); [done|]. intros [= <-]; lia.
Qed.

Definition inspect {A} (a : A) : {b | a = b} := exist _ a eq_refl.

(** The unfolding equation of the loop is proved without functional
    extensionality. *)
Unset Equations With Funext.

(** The outer [while (i < len)] loop from a given [i], followed by the final
    [return true]. *)
Equations? scanFrom (sql : jsString) (i : nat) : bool
  by wf (length sql - i) lt :=
  scanFrom sql i with le_lt_dec (length sql) i := {
    | left _ => true
    | right Hlt with inspect (scanStep sql i) := {
      | exist _ (Return b) _ => b
      | exist _ (Continue j) Hj => scanFrom sql j } }.
Proof. apply scanStep_progress in Hj; lia. Qed.

Definition isSingleStatement (sql : jsString) : bool := scanFrom sql 0.

(** ** The cases of the repository's test suite *)

Definition testCases : list (jsString * bool) :=
  [ (js "SELECT * FROM users", true);
    (js "SELECT id FROM users WHERE name = 'test'", true);
    (js "SELECT 1;", true);
    (js "SELECT 1;   ", true);
    (js "", true);
    (js "SELECT u.id, p.title FROM users u JOIN posts p ON u.id = p.user_id WHERE u.active = true", true);
    (js "INSERT INTO users (name, email) VALUES ('John', 'john@example.com')", true);
    (js "UPDATE users SET name = 'Jane' WHERE id = 1", true);
    (js "DELETE FROM users WHERE id = 1", true);
    (js "SELECT * FROM users WHERE name = 'foo;bar'", true);
    (js "SELECT * FROM t WHERE x = 'a;b;c;d'", true);
    (js "SELECT * FROM users WHERE name = 'O''Brien'", true);
    (js "SELECT * FROM t WHERE x = 'it''s;here'", true);
    (js "SELECT " ++ [dquote] ++ js "col;name" ++ [dquote] ++ js " FROM users", true);
    (js "SELECT * FROM " ++ [dquote] ++ js "my;table" ++ [dquote], true);
    (js "SELECT 1 -- ; DROP TABLE users", true);
    (js "SELECT /* ; */ 1", true);
    (js "SELECT /* ;; ;; */ 1", true);
    (js "SELECT 1 /* ; unclosed", true);
    (js "SELECT 1 -- this is fine", true);
    (js "SELECT $$foo;bar$$", true);
    (js "SELECT $tag$foo;bar$tag$", true);
    (js "SELECT $fn$BEGIN; RETURN 1; END;$fn$", true);
    (js "SELECT $$foo;bar", true);
    (js "SELECT 1; DROP TABLE users", false);
    (js "COMMIT; DROP SCHEMA public CASCADE; --", false);
    (js "SELECT 1; SELECT 2", false);
    (js "SELECT 1; -- comment" ++ [newline] ++ js "DROP TABLE users", false);
    (js "SELECT 1;   SELECT 2", false);
    (js "SELECT 1;" ++ [9%N] ++ js "SELECT 2", false);
    (js "SELECT 1;" ++ [newline] ++ js "SELECT 2", false);
    (js "SELECT 1; SELECT 2; SELECT 3", false);
    (js "INSERT INTO t VALUES (1); DELETE FROM t WHERE id = 1", false);
    (js "   ", true);
    (js ";", true);
    (js ";" ++ [newline] ++ js "  " ++ [9%N] ++ js "  ", true);
    (js ";;", false);
    (js "SELECT $1", true);
    (js "SELECT * FROM t WHERE id = $1 AND name = $2", true);
    (js "SELECT 'semi;colon', " ++ [dquote] ++ js "col;name" ++ [dquote]
     ++ js ", $$body;here$$ FROM t -- trailing; comment", true);
    (js "SELECT 'safe;string'; DROP TABLE users", false);
    (js "SELECT $$safe;body$$; DROP TABLE users", false);
    (js "SELECT /* comment */ 1; DROP TABLE users", false) ].

(** ** The classifier as the specification words it

    The lexical contexts are described as relations on indices of the text,
    without reference to the scanning loop: where a context opens, and, when
    it is terminated, the index just past its end. *)
Module Spec.

(** [pat] occurs in [s] at index [k]. *)
Definition occursAt (pat s : jsString) (k : nat) : Prop :=
  take (length pat) (drop k s) = pat.

(** [e] is the first index at or after [from] at which [pat] occurs. *)
Definition firstAt (pat s : jsString) (from e : nat) : Prop :=
  from ≤ e ∧ occursAt pat s e ∧ ∀ k, from ≤ k < e → ¬ occursAt pat s k.

(** [literalEnd s k e]: in the body of a single-quoted literal read from
    index [k], the terminating quote is at [e]; a doubled quote is an
    escaped quote, not a terminator. *)
Inductive literalEnd (s : jsString) : nat → nat → Prop :=
| literal_close k :
    s !! k = Some (cu "'") → s !! (k + 1) ≠ Some (cu "'") →
    literalEnd s k k
| literal_escape k e :
    s !! k = Some (cu "'") → s !! (k + 1) = Some (cu "'") →
    literalEnd s (k + 2) e → literalEnd s k e
| literal_char k c e :
    s !! k = Some c → c ≠ cu "'" →
    literalEnd s (k + 1) e → literalEnd s k e.

(** A delimiter token [$tag$] occupies the indices [i .. j]. *)
Definition delimiter (s : jsString) (i j : nat) : Prop :=
  s !! i = Some (cu "$") ∧ i < j ∧ s !! j = Some (cu "$") ∧
  ∀ k, i < k < j → ∃ c, s !! k = Some c ∧ isTagChar c = true.

(** A lexical context opens at index [i]. *)
Inductive opens (s : jsString) (i : nat) : Prop :=
| opens_line :
    s !! i = Some (cu "-") → s !! (i + 1) = Some (cu "-") → opens s i
| opens_block :
    s !! i = Some (cu "/") → s !! (i + 1) = Some (cu "*") → opens s i
| opens_literal : s !! i = Some (cu "'") → opens s i
| opens_ident : s !! i = Some dquote → opens s i
| opens_body j : delimiter s i j → opens s i.

(** [context s i j]: a terminated lexical context opens at [i], and [j] is
    the index just past it. *)
Inductive context (s : jsString) : nat → nat → Prop :=
| context_line i e :
    s !! i = Some (cu "-") → s !! (i + 1) = Some (cu "-") →
    firstAt [newline] s (i + 2) e → context s i (e + 1)
| context_block i e :
    s !! i = Some (cu "/") → s !! (i + 1) = Some (cu "*") →
    firstAt (js "*/") s (i + 2) e → context s i (e + 2)
| context_literal i e :
    s !! i = Some (cu "'") → literalEnd s (i + 1) e → context s i (e + 1)
| context_ident i e :
    s !! i = Some dquote → firstAt [dquote] s (i + 1) e →
    context s i (e + 1)
| context_body i j e :
    delimiter s i j →
    firstAt (take (j + 1 - i) (drop i s)) s (j + 1) e →
    context s i (e + (j + 1 - i)).

(** One move of a reader that stays outside the lexical contexts: over a
    whole terminated context, or over one character that opens none. *)
Inductive step (s : jsString) : nat → nat → Prop :=
| step_context i j : context s i j → step s i j
| step_char i c : s !! i = Some c → ¬ opens s i → step s i (i + 1).

(** A positional parameter placeholder [$n] at index [i]: a dollar sign and
    [n] decimal digits ([n] at least one), not followed by a further
    digit. *)
Definition parameter (s : jsString) (i n : nat) : Prop :=
  s !! i = Some (cu "$") ∧ 0 < n
  ∧ (∀ k, i < k ≤ i + n → ∃ c, s !! k = Some c ∧ (48 ≤ c ≤ 57)%N)
  ∧ ∀ c, s !! (i + n + 1) = Some c → ¬ (48 ≤ c ≤ 57)%N.

(** A placeholder that stands apart: it is followed by the end of the text
    or by a character that neither continues a tag nor is a dollar sign. *)
Definition placeholder (s : jsString) (i n : nat) : Prop :=
  parameter s i n
  ∧ ∀ c, s !! (i + n + 1) = Some c → isTagChar c = false ∧ c ≠ cu "$".

(** Index [p] lies outside every lexical context. *)
Definition outside (s : jsString) (p : nat) : Prop := rtc (step s) 0 p.

(** Non-whitespace content at or after index [k]. *)
Definition hasContent (s : jsString) (k : nat) : Prop :=
  ∃ m c, k ≤ m ∧ s !! m = Some c ∧ isWhiteSpace c = false.

(** A boundary marker outside the lexical contexts. *)
Definition boundary (s : jsString) (p : nat) : Prop :=
  outside s p ∧ s !! p = Some (cu ";").

(** No boundary marker outside the lexical contexts is followed by further
    non-whitespace content. *)
Definition singleStatement (s : jsString) : Prop :=
  ∀ p, boundary s p → ¬ hasContent s (p + 1).

End Spec.

(** Index [i] carries a boundary marker followed by further content. *)
Definition violation (s : jsString) (i : nat) : Prop :=
  s !! i = Some (cu ";") ∧ Spec.hasContent s (i + 1).

(** ** Data model *)

(** A JSON scalar: a query parameter or a cell of a result row. *)
Inductive Value :=
| VNull
| VString (s : jsString)
| VNumber (n : Z)
| VBoolean (b : bool).

(** [SslConfigSchema]: the literal [true], or an object of options. *)
Inductive SslConfig :=
| SslTrue
| SslObject (rejectUnauthorized : option bool) (ca cert key : option jsString).

(** [DbConnection], the output type of [DbConnectionSchema]. *)
Record DbConnection := {
  label : jsString;
  host : option jsString;
  port : Z;
  user : option jsString;
  password : jsString;
  database : option jsString;
  url : option jsString;
  enabled : bool;
  ssl : option SslConfig;
  readOnly : bool;
  poolSize : Z;
}.

(** The input of [DbConnectionSchema]: every field may be absent. *)
Record RawConnection := {
  raw_label : option jsString;
  raw_host : option jsString;
  raw_port : option Z;
  raw_user : option jsString;
  raw_password : option jsString;
  raw_database : option jsString;
  raw_url : option jsString;
  raw_enabled : option bool;
  raw_ssl : option SslConfig;
  raw_readOnly : option bool;
  raw_poolSize : option Z;
}.

(** Truthiness of an optional string. *)
Definition truthy (o : option jsString) : bool :=
  match o with Some (_ :: _) => true | _ => false end.

(** [DbConnectionSchema.parse] on one descriptor: defaults, then the field
    checks and the refinement; [None] is a [ZodError]. *)
Definition DbConnectionSchema (r : RawConnection) : option DbConnection :=
  lbl ← raw_label r;
  let c := {| label := lbl;
              host := raw_host r;
              port := default 5432%Z (raw_port r);
              user := raw_user r;
              password := default [] (raw_password r);
              database := raw_database r;
              url := raw_url r;
              enabled := default true (raw_enabled r);
              ssl := raw_ssl r;
              readOnly := default true (raw_readOnly r);
              poolSize := default 5%Z (raw_poolSize r) |} in
  if bool_decide (1 ≤ length lbl)
     && bool_decide (0 < port c)%Z
     && bool_decide (1 ≤ poolSize c ≤ 100)%Z
     && (truthy (url c)
         || truthy (host c) && truthy (user c) && truthy (database c))
  then Some c else None.

(** [DbConfigSchema.parse] on the [connections] of the file, taken in the
    order of the array (or of [Object.values] for a keyed mapping). *)
Definition DbConfigSchema (raw : list RawConnection)
  : option (list DbConnection) :=
  mapM DbConnectionSchema raw.

(** The object handed to [JSON.stringify] by [connHash]. *)
Record Fingerprint := {
  fp_h : option jsString;
  fp_p : Z;
  fp_u : option jsString;
  fp_pw : jsString;
  fp_d : option jsString;
  fp_url : option jsString;
  fp_ssl : option SslConfig;
  fp_ps : Z;
}.

(** The object [connHash] builds from a descriptor. *)
Definition fingerprint (c : DbConnection) : Fingerprint :=
  {| fp_h := host c; fp_p := port c; fp_u := user c;
     fp_pw := password c; fp_d := database c; fp_url := url c;
     fp_ssl := ssl c; fp_ps := poolSize c |}.

(** [pg.PoolConfig] as [getOrCreatePool] fills it. *)
Record PoolConfig := {
  connectionTimeoutMillis : Z;
  statement_timeout : Z;
  idleTimeoutMillis : Z;
  max : Z;
  connectionString : option jsString;
  cfg_host : option jsString;
  cfg_port : option Z;
  cfg_user : option jsString;
  cfg_password : option jsString;
  cfg_database : option jsString;
  cfg_ssl : option SslConfig;
}.

(** A [pg.Pool] object is known by the order of its construction. *)
Definition Pool := nat.

Record PoolEntry := { pool : Pool; hash : jsString }.

Record ConfigCache := {
  connections : list DbConnection;
  mtime : Z;
  loadedAt : Z;
}.

Definition Row := list (jsString * Value).

(** What [client.query] resolves to. *)
Record QueryResult := {
  rows : option (list Row);
  rowCount : option Z;
  fields : list jsString;
}.

(** A thrown value: an [Error] with its [message], or anything else with
    its [String(e)]. *)
Inductive Thrown :=
| ThrownError (message : jsString)
| ThrownOther (text : jsString).

(** What a tool handler returns: the text of its single content item and
    the [isError] flag. *)
Record ToolResult := { text : jsString; isError : bool }.

(** The JSON payload of a successful [pg_query]. *)
Record Payload := {
  pl_columns : list jsString;
  pl_rows : list Row;
  pl_rowCount : option Z;
  pl_truncated : option (nat * Z);
}.

(** ** The process and its surroundings *)

(** Every interaction of the process with the outside, in order.  A
    diagnostic written with [console.error] is recorded without its text:
    one event for each call. *)
Inductive Event :=
| EvNow
| EvStat
| EvReadFile
| EvExists
| EvConsoleError
| EvPoolNew (p : Pool) (cfg : PoolConfig)
| EvPoolEnd (p : Pool)
| EvConnect (p : Pool)
| EvQuery (p : Pool) (sql : jsString) (params : option (list Value))
| EvRelease (p : Pool).

(** The module-level state, with the interactions made so far. *)
Record World := {
  pools : gmap jsString PoolEntry;
  configCache : option ConfigCache;
  poolsCreated : nat;
  history : list Event;
}.

(** The surroundings answer as a function of the interactions so far.
    Times are in milliseconds.  [ZodError_issues raw] is the number of
    issues in the [ZodError] that [DbConfigSchema.parse] throws on a file
    it rejects. *)
Record Env := {
  LABEL_FILTER : option jsString;
  Date_now : list Event → Z;
  stat_mtimeMs : list Event → option Z;
  readConfig : list Event → Thrown + list RawConnection;
  existsSync : list Event → bool;
  ZodError_issues : list RawConnection → nat;
  pool_connect : list Event → Pool → option Thrown;
  client_query :
    list Event → Pool → jsString → option (list Value) → Thrown + QueryResult;
  JSON_stringify : Fingerprint → jsString;
  JSON_stringify_payload : Payload → jsString;
  showNumber : Z → jsString;
}.

(** Computations of the process: they read and update the module-level
    state, add to the history, and either [throw] or yield a value. *)
Definition M (A : Type) : Type := World → (Thrown + A) * World.

#[export] Instance M_ret : MRet M := λ A a w, (inr a, w).

#[export] Instance M_bind : MBind M := λ A B f m w,
  match m w with
  | (inl e, w') => (inl e, w')
  | (inr a, w') => f a w'
  end.

Definition throw {A} (e : Thrown) : M A := λ w, (inl e, w).

(** [try { m } catch (e) { h e }] *)
Definition tryCatch {A} (m : M A) (h : Thrown → M A) : M A := λ w,
  match m w with
  | (inl e, w') => h e w'
  | (inr a, w') => (inr a, w')
  end.

(** [try { m } finally { f }] *)
Definition tryFinally {A} (m : M A) (f : M unit) : M A := λ w,
  let '(r, w') := m w in
  match f w' with
  | (inl e, w'') => (inl e, w'')
  | (inr _, w'') => (r, w'')
  end.

(** [await promise.catch(() => {})]: a failure is dropped. *)
Definition swallow {A} (m : M A) : M unit := λ w, (inr (), (m w).2).

Definition log (ev : Event) (w : World) : World :=
  {| pools := pools w; configCache := configCache w;
     poolsCreated := poolsCreated w; history := history w ++ [ev] |}.

Definition emit (ev : Event) : M unit := λ w, (inr (), log ev w).

Definition getCache : M (option ConfigCache) := λ w, (inr (configCache w), w).

Definition setCache (cc : ConfigCache) : M unit := λ w,
  (inr (), {| pools := pools w; configCache := Some cc;
              poolsCreated := poolsCreated w; history := history w |}).

(** ** Configuration loading *)

Definition CONFIG_CACHE_TTL : Z := 5000.

(** [Array.prototype.findIndex]; [None] is [-1]. *)
Definition findIndex {A} (P : A → bool) (arr : list A) : option nat :=
  fst <$> list_find (λ x, P x = true) arr.

(** [Array.prototype.filter] with the element, its index and the array.
    [rest] is the part of [arr] from index [i] on. *)
Fixpoint filterFrom {A} (f : A → nat → list A → bool) (arr rest : list A)
    (i : nat) : list A :=
  match rest with
  | [] => []
  | x :: rest' =>
      if f x i arr then x :: filterFrom f arr rest' (S i)
      else filterFrom f arr rest' (S i)
  end.

Definition arrayFilter {A} (f : A → nat → list A → bool) (arr : list A)
  : list A := filterFrom f arr arr 0.

(** Deduplicate (keep first). *)
Definition dedupe (connections : list DbConnection) : list DbConnection :=
  arrayFilter
    (λ c i arr,
       bool_decide
         (findIndex (λ x, bool_decide (label x = label c)) arr = Some i))
    connections.

(** The snapshot made of the parsed descriptors: deduplicated, enabled
    ones only, restricted to the label filter when one is set (and
    truthy). *)
Definition publishConnections (labelFilter : option jsString)
    (parsed : list DbConnection) : list DbConnection :=
  let connections := dedupe parsed in
  let connections :=
    arrayFilter (λ c _ _, negb (bool_decide (enabled c = false))) connections in
  if truthy labelFilter then
    arrayFilter (λ c _ _, bool_decide (Some (label c) = labelFilter))
      connections
  else connections.

(** [c] sits at index [i] of [cs] and no earlier entry has its label. *)
Definition firstOccurrence (cs : list DbConnection) (i : nat)
    (c : DbConnection) : Prop :=
  cs !! i = Some c ∧ ∀ j c', cs !! j = Some c' → j < i → label c' ≠ label c.

(** [Array.prototype.join] on strings. *)
Fixpoint join (sep : jsString) (parts : list jsString) : jsString :=
  match parts with
  | [] => []
  | [p] => p
  | p :: parts' => p ++ sep ++ join sep parts'
  end.

(** How the [try] block of [loadConfig] ends when nothing but a
    [ZodError] is thrown in it: with the connections it returns, or with
    the [ZodError] and the number of its issues. *)
Inductive Loaded :=
| Returned (connections : list DbConnection)
| ZodError (issues : nat).

Section Process.
Context (env : Env).

Definition now : M Z := λ w, (inr (Date_now env (history w)), log EvNow w).

(** [(await stat(CONFIG_PATH)).mtimeMs] *)
Definition stat : M Z := λ w,
  (match stat_mtimeMs env (history w) with
   | Some m => inr m
   | None => inl (ThrownError (js "stat failed"))
   end, log EvStat w).

(** [resolveEnvVars(JSON.parse(await readFile(CONFIG_PATH)))], as far as
    its [connections] go. *)
Definition readRaw : M (list RawConnection) := λ w,
  (readConfig env (history w), log EvReadFile w).

(** [existsSync(CONFIG_PATH)] *)
Definition fileExists : M bool := λ w,
  (inr (existsSync env (history w)), log EvExists w).

(** The loop that warns about duplicate labels. *)
Fixpoint warnDuplicates (seen : gset jsString) (cs : list DbConnection)
  : M unit :=
  match cs with
  | [] => mret ()
  | c :: cs' =>
      (if bool_decide (label c ∈ seen) then emit EvConsoleError
       else mret ());;
      warnDuplicates ({[label c]} ∪ seen) cs'
  end.

(** The cache check at the head of [loadConfig]: [Some] is an early
    [return] of the cached connections. *)
Definition checkCache : M (option (list DbConnection)) :=
  cache ← getCache;
  match cache with
  | None => mret None
  | Some cc =>
      t ← now;
      if bool_decide (t - loadedAt cc < CONFIG_CACHE_TTL)%Z
      then mret (Some (connections cc))
      else
        tryCatch
          (m ← stat;
           if bool_decide (m = mtime cc) then
             t' ← now;
             setCache {| connections := connections cc;
                         mtime := mtime cc; loadedAt := t' |};;
             mret (Some (connections cc))
           else mret None)
          (λ _, mret None)
  end.

(** The [try] block of [loadConfig].  The [ZodError] that
    [DbConfigSchema.parse] throws leaves the block as [ZodError issues],
    with the number of its issues; whatever else is thrown in the block is
    a [Thrown] of the computation. *)
Definition tryLoad : M Loaded :=
  hit ← checkCache;
  match hit with
  | Some cached => mret (Returned cached)
  | None =>
      raw ← readRaw;
      match DbConfigSchema raw with
      | None => mret (ZodError (ZodError_issues env raw))
      | Some parsed =>
          warnDuplicates ∅ parsed;;
          let connections :=
            publishConnections (LABEL_FILTER env) parsed in
          m ← tryCatch stat (λ _, mret 0%Z);
          t ← now;
          setCache {| connections := connections; mtime := m;
                      loadedAt := t |};;
          mret (Returned connections)
      end
  end.

(** [for (const issue of e.issues) console.error(...)] *)
Fixpoint reportIssues (issues : nat) : M unit :=
  match issues with
  | 0 => mret ()
  | S issues' => emit EvConsoleError;; reportIssues issues'
  end.

(** The [catch] block of [loadConfig]: two diagnostics when the file does
    not exist; for a [ZodError] ([issues] is [Some]) a heading and one
    diagnostic for each issue; otherwise one diagnostic. *)
Definition reportFailure (issues : option nat) : M (list DbConnection) :=
  present ← fileExists;
  (if negb present then emit EvConsoleError;; emit EvConsoleError
   else match issues with
        | Some n => emit EvConsoleError;; reportIssues n
        | None => emit EvConsoleError
        end);;
  mret [].

(** [loadConfig]: the [try] block, then the [catch] block on whatever it
    throws. *)
Definition loadConfig : M (list DbConnection) := λ w,
  match tryLoad w with
  | (inr (Returned connections), w') => (inr connections, w')
  | (inr (ZodError issues), w') => reportFailure (Some issues) w'
  | (inl _, w') => reportFailure None w'
  end.

Definition getConnection (lbl : jsString) : M DbConnection :=
  connections ← loadConfig;
  match List.find (λ c, bool_decide (label c = lbl)) connections with
  | Some conn => mret conn
  | None =>
      let joined := join (js ", ") (label <$> connections) in
      let available :=
        if bool_decide (joined = []) then js "(none)" else joined in
      throw (ThrownError
               (js "Database " ++ [dquote] ++ lbl ++ [dquote]
                ++ js " not found. Available: " ++ available))
  end.

(** ** Connection pool management *)

Definition connHash (c : DbConnection) : jsString :=
  JSON_stringify env (fingerprint c).

Definition poolConfig (conn : DbConnection) : PoolConfig :=
  let byUrl := truthy (url conn) in
  {| connectionTimeoutMillis := 10000;
     statement_timeout := 30000;
     idleTimeoutMillis := 60000;
     max := poolSize conn;
     connectionString := if byUrl then url conn else None;
     cfg_host := if byUrl then None else host conn;
     cfg_port := if byUrl then None else Some (port conn);
     cfg_user := if byUrl then None else user conn;
     cfg_password := if byUrl then None else Some (password conn);
     cfg_database := if byUrl then None else database conn;
     cfg_ssl :=
       match ssl conn with
       | Some SslTrue => Some (SslObject (Some false) None None None)
       | other => other
       end |}.

(** [new pg.Pool(cfg)] followed by [pools.set(conn.label, {pool, hash})]. *)
Definition installPool (conn : DbConnection) (h : jsString) : M Pool := λ w,
  let p := poolsCreated w in
  (inr p,
   {| pools := <[label conn := {| pool := p; hash := h |}]> (pools w);
      configCache := configCache w;
      poolsCreated := S p;
      history := history w ++ [EvPoolNew p (poolConfig conn)] |}).

Definition getOrCreatePool (conn : DbConnection) : M Pool := λ w,
  let h := connHash conn in
  match pools w !! label conn with
  | Some existing =>
      if bool_decide (hash existing = h) then (inr (pool existing), w)
      else installPool conn h (log (EvPoolEnd (pool existing)) w)
  | None => installPool conn h w
  end.

(** ** Query execution *)

(** [await pool.connect()]; the client is named after its pool. *)
Definition poolConnect (p : Pool) : M Pool := λ w,
  (match pool_connect env (history w) p with
   | Some e => inl e
   | None => inr p
   end, log (EvConnect p) w).

(** [await client.query(sql, params)] *)
Definition clientQuery (client : Pool) (sql : jsString)
    (params : option (list Value)) : M QueryResult := λ w,
  (client_query env (history w) client sql params,
   log (EvQuery client sql params) w).

Definition release (client : Pool) : M unit := emit (EvRelease client).

Definition errorResult (e : Thrown) : ToolResult :=
  let msg := match e with ThrownError m => m | ThrownOther t => t end in
  {| text := js "Error: " ++ msg; isError := true |}.

Definition withPool {T} (lbl : jsString) (fn : Pool → M T) : M T :=
  conn ← getConnection lbl;
  p ← getOrCreatePool conn;
  client ← poolConnect p;
  tryFinally (fn client) (release client).

(** The statement that opens the transaction of [pg_query]. *)
Definition beginStatement (conn : DbConnection) : jsString :=
  if readOnly conn then js "BEGIN TRANSACTION READ ONLY" else js "BEGIN".

(** The callback [pg_query] hands to [withPool]. *)
Definition transaction (conn : DbConnection) (query : jsString)
    (params : option (list Value)) (client : Pool) : M QueryResult :=
  clientQuery client (beginStatement conn) None;;
  tryCatch
    (res ← clientQuery client query params;
     clientQuery client (js "COMMIT") None;;
     mret res)
    (λ e, swallow (clientQuery client (js "ROLLBACK") None);; throw e).

(** [rows.slice(0, limit)] *)
Definition slice0 {A} (l : list A) (limit : Z) : list A :=
  if bool_decide (limit < 0)%Z
  then take (length l - Z.to_nat (- limit)) l
  else take (Z.to_nat limit) l.

Definition formatResult (result : QueryResult) (limit : option Z)
  : ToolResult :=
  match rows result with
  | None | Some [] =>
      {| text := js "Query executed. "
                 ++ showNumber env (default 0%Z (rowCount result))
                 ++ js " row(s) affected. No rows returned.";
         isError := false |}
  | Some rs =>
      let totalRows := length rs in
      let truncated :=
        match limit with
        | Some l => bool_decide (l ≠ 0%Z)
                    && bool_decide (l < Z.of_nat totalRows)%Z
        | None => false
        end in
      {| text :=
           JSON_stringify_payload env
             {| pl_columns := fields result;
                pl_rows := if truncated
                           then slice0 rs (default 0%Z limit) else rs;
                pl_rowCount := rowCount result;
                pl_truncated :=
                  if truncated
                  then Some (totalRows, default 0%Z limit) else None |};
         isError := false |}
  end.

Definition multiStatementError : ToolResult :=
  {| text := js "Error: Multi-statement queries are not allowed. Send one statement at a time.";
     isError := true |}.

(** The handler of the [pg_query] tool. *)
Definition pg_query (database query : jsString)
    (params : option (list Value)) (limit : option Z)
  : World → ToolResult * World :=
  λ w,
  let body : M ToolResult :=
    if negb (isSingleStatement query) then mret multiStatementError
    else
      conn ← getConnection database;
      result ← withPool database (transaction conn query params);
      mret (formatResult result limit) in
  match body w with
  | (inr r, w') => (r, w')
  | (inl e, w') => (errorResult e, w')
  end.

End Process.

(** ** A concrete process, for running the model *)

Module Scenario.

Definition descriptor (name : string) (writable : bool) : RawConnection :=
  {| raw_label := Some (js name);
     raw_host := Some (js "db.internal");
     raw_port := None;
     raw_user := Some (js "app");
     raw_password := None;
     raw_database := Some (js "main");
     raw_url := None;
     raw_enabled := None;
     raw_ssl := None;
     raw_readOnly := if writable then Some false else None;
     raw_poolSize := None |}.

(** The configuration file holds [staging] (read-only by default) and
    [prod] (writable).  The database refuses [SELECT 1/0], and fails every
    [ROLLBACK] as well. *)
Definition env : Env :=
  {| LABEL_FILTER := None;
     Date_now := λ h, Z.of_nat (length h);
     stat_mtimeMs := λ _, Some 1%Z;
     readConfig := λ _, inr [descriptor "staging" false;
                             descriptor "prod" true];
     existsSync := λ _, true;
     ZodError_issues := λ _, 1;
     pool_connect := λ _ _, None;
     client_query := λ _ _ sql _,
       if bool_decide (sql = js "SELECT 1/0")
       then inl (ThrownError (js "division by zero"))
       else if bool_decide (sql = js "ROLLBACK")
       then inl (ThrownError (js "connection lost"))
       else inr {| rows := Some []; rowCount := None; fields := [] |};
     JSON_stringify := λ fp,
       default [] (fp_h fp) ++ js "/" ++ default [] (fp_d fp);
     JSON_stringify_payload := λ _, js "{}";
     showNumber := λ _, js "0" |}.

Definition start : World :=
  {| pools := ∅; configCache := None; poolsCreated := 0; history := [] |}.

Definition parsed (name : string) (on : bool) (dbname : string)
  : DbConnection :=
  {| label := js name; host := Some (js "db.internal"); port := 5432;
     user := Some (js "app"); password := []; database := Some (js dbname);
     url := None; enabled := on; ssl := None; readOnly := true;
     poolSize := 5 |}.

(** A source with a duplicate label and a disabled descriptor. *)
Definition source : list DbConnection :=
  [parsed "staging" true "main"; parsed "prod" true "main";
   parsed "staging" true "other"; parsed "old" false "main"].

End Scenario.

(** ** Command line: [getArg] *)

(** [getArg(name)] over [process.argv]: the argument after the first
    occurrence of [name], unless it is missing, empty or another flag. *)
Definition getArg (argv : list jsString) (name : jsString)
  : option jsString :=
  match findIndex (λ a, bool_decide (a = name)) argv with
  | None => None
  | Some idx =>
      let next := argv !! (idx + 1) in
      if negb (truthy next) || startsWith (js "--") (default [] next)
      then None else next
  end.

(** ** Environment variable substitution: [resolveEnvVars] *)

#[local] Unset Elimination Schemes.

(** A value of [JSON.parse].  An object is the list of its own enumerable
    properties, in the order [Object.entries] gives them. *)
Inductive Json :=
| JNull
| JBoolean (b : bool)
| JNumber (n : Z)
| JString (s : jsString)
| JArray (items : list Json)
| JObject (members : list (jsString * Json)).

#[local] Set Elimination Schemes.

Lemma startsWith_length pat s :
  startsWith pat s = true → length pat ≤ length s.
Proof.
  revert s. induction pat as [|p pat IH]; intros [|c s]; simpl;
    [lia | lia | done |].
  intros [_ H%IH]%andb_prop. lia.
Qed.

Lemma indexOfAux_fits pat rest k e :
  indexOfAux pat rest k = Some e → e + length pat ≤ k + length rest.
Proof.
  revert k. induction rest as [|c rest IH]; intros k; simpl.
  - destruct (startsWith pat []) eqn:Hs; [|done].
    apply startsWith_length in Hs. intros [= <-]. simpl in Hs. lia.
  - destruct (startsWith pat (c :: rest)) eqn:Hs.
    + apply startsWith_length in Hs. intros [= <-]. simpl in Hs. lia.
    + intros H%IH. lia.
Qed.

(** [String.prototype.split(sep)]: the pieces between the occurrences of
    [sep], found from left to right without overlap; with the empty
    separator, the code units one by one. *)
Equations? split (sep s : jsString) : list jsString by wf (length s) lt :=
  split [] s := (λ c, [c]) <$> s;
  split (p :: sep) s with inspect (indexOf s (p :: sep) 0) := {
    | exist _ (Some k) Hk =>
        take k s :: split (p :: sep) (drop (k + length (p :: sep)) s)
    | exist _ None _ => [s] }.
Proof.
  unfold indexOf in Hk. rewrite drop_0 in Hk.
  apply indexOfAux_fits in Hk. rewrite length_drop. simpl in *. lia.
Qed.

(** The longest prefix of [s] without the code unit [c], and the rest. *)
Fixpoint spanNot (c : N) (s : jsString) : jsString * jsString :=
  match s with
  | [] => ([], [])
  | x :: s' =>
      if (x =? c)%N then ([], s)
      else let '(run, rest) := spanNot c s' in (x :: run, rest)
  end.

(** A match of [/\$\{([^}]+)\}/] at the head of [s]: the captured group and
    the text after the match. *)
Definition matchVar (s : jsString) : option (jsString * jsString) :=
  match s with
  | d :: b :: s' =>
      if (d =? cu "$")%N && (b =? cu "{")%N then
        let '(expr, rest) := spanNot (cu "}") s' in
        match expr, rest with
        | _ :: _, _ :: after => Some (expr, after)
        | _, _ => None
        end
      else None
  | _ => None
  end.

Lemma spanNot_length c s :
  length (spanNot c s).1 + length (spanNot c s).2 = length s.
Proof.
  induction s as [|x s IH]; simpl; [done|].
  destruct (x =? c)%N; simpl; [done|].
  destruct (spanNot c s) as [run rest]. simpl in *. lia.
Qed.

Lemma matchVar_shorter s expr after :
  matchVar s = Some (expr, after) → length after < length s.
Proof.
  destruct s as [|d [|b s]]; unfold matchVar; [done | done |].
  destruct (_ && _); [|done].
  pose proof (spanNot_length (cu "}") s) as Hlen.
  destruct (spanNot (cu "}") s) as [[|x run] [|y rest]]; try done.
  intros [= _ <-]. simpl in *. lia.
Qed.

(** [s.replace(/\$\{([^}]+)\}/g, (_, expr) => f(expr))]: every match, from
    left to right, gives way to what [f] makes of its group; the
    replacement is not searched again. *)
Equations? replaceAll (f : jsString → jsString) (s : jsString) : jsString
  by wf (length s) lt :=
  replaceAll f [] := [];
  replaceAll f (c :: s') with inspect (matchVar (c :: s')) := {
    | exist _ (Some (expr, after)) Hm => f expr ++ replaceAll f after
    | exist _ None _ => c :: replaceAll f s' }.
Proof.
  exact (matchVar_shorter (c :: s') expr after Hm).
Qed.

Section Substitution.
(** [process.env[key]] as text; [None] when it is [undefined]. *)
Context (processEnv : jsString → option jsString).

(** The replacer: the name is the text before the first [:-], the fallback
    all the text after it ([split] never yields the empty array, and
    [fallback] is never [undefined], so the last operand of [??], the empty
    string, is not reached). *)
Definition substitute (expr : jsString) : jsString :=
  let parts := split (js ":-") expr in
  let name := default [] (head parts) in
  let fallback := join (js ":-") (tail parts) in
  default fallback (processEnv (trim name)).

(** [out[k] = v] on the fresh object [out] creates an own property, except
    for the key [__proto__], which sets the prototype instead; the prototype
    is not part of [Json]. *)
Definition assignable (k : jsString) : bool :=
  negb (bool_decide (k = js "__proto__")).

(** The string branch of [resolveEnvVars]. *)
Definition resolveString (s : jsString) : jsString :=
  replaceAll substitute s.

Fixpoint resolveEnvVars (obj : Json) : Json :=
  match obj with
  | JString s => JString (resolveString s)
  | JArray items => JArray (resolveEnvVars <$> items)
  | JObject members =>
      JObject
        ((fix entries (ms : list (jsString * Json)) :=
            match ms with
            | [] => []
            | (k, v) :: ms' =>
                if assignable k then (k, resolveEnvVars v) :: entries ms'
                else entries ms'
            end) members)
  | other => other
  end.

End Substitution.

(** No object of [obj], at any depth, has a member named [__proto__]. *)
Fixpoint plainKeys (obj : Json) : bool :=
  match obj with
  | JArray items => forallb plainKeys items
  | JObject members =>
      (fix entries (ms : list (jsString * Json)) :=
         match ms with
         | [] => true
         | (k, v) :: ms' => assignable k && plainKeys v && entries ms'
         end) members
  | _ => true
  end.

(** No string value of [obj], at any depth, holds the two characters that
    open a placeholder. *)
Fixpoint placeholderFree (obj : Json) : bool :=
  match obj with
  | JString s => bool_decide (indexOf s (js "${") 0 = None)
  | JArray items => forallb placeholderFree items
  | JObject members =>
      (fix entries (ms : list (jsString * Json)) :=
         match ms with
         | [] => true
         | (_, v) :: ms' => placeholderFree v && entries ms'
         end) members
  | _ => true
  end.

(** [obj] with the text of every string value erased. *)
Fixpoint skeleton (obj : Json) : Json :=
  match obj with
  | JString _ => JString []
  | JArray items => JArray (skeleton <$> items)
  | JObject members =>
      JObject
        ((fix entries (ms : list (jsString * Json)) :=
            match ms with
            | [] => []
            | (k, v) :: ms' => (k, skeleton v) :: entries ms'
            end) members)
  | other => other
  end.

(** The environment and the cases of the repository's test suite. *)
Definition testEnv (key : jsString) : option jsString :=
  if bool_decide (key = js "TEST_HOST") then Some (js "localhost")
  else if bool_decide (key = js "TEST_PORT") then Some (js "5432")
  else if bool_decide (key = js "TEST_PASS") then Some (js "s3cret")
  else None.

Definition resolveCases : list (Json * Json) :=
  [ (JString (js "host=${TEST_HOST}"), JString (js "host=localhost"));
    (JString (js "${TEST_HOST}:${TEST_PORT}"), JString (js "localhost:5432"));
    (JString (js "${NONEXISTENT_VAR_XYZ}"), JString []);
    (JString (js "${NONEXISTENT_VAR_XYZ:-fallback}"), JString (js "fallback"));
    (JString (js "${TEST_HOST:-other}"), JString (js "localhost"));
    (JObject [(js "host", JString (js "${TEST_HOST}"));
              (js "port", JNumber 5432);
              (js "nested", JObject [(js "pass", JString (js "${TEST_PASS}"))])],
     JObject [(js "host", JString (js "localhost"));
              (js "port", JNumber 5432);
              (js "nested", JObject [(js "pass", JString (js "s3cret"))])]);
    (JArray [JString (js "${TEST_HOST}"); JString (js "${TEST_PORT}")],
     JArray [JString (js "localhost"); JString (js "5432")]);
    (JNumber 42, JNumber 42);
    (JBoolean true, JBoolean true);
    (JNull, JNull);
    (JString (js "plain text"), JString (js "plain text")) ].

(** ** Permission check of the configuration file *)

(** [checkConfigPermissions], given [platform()] and the [mode] that [stat]
    reports ([None] when it throws).  The masks are [0o777] and [0o077]. *)
Definition checkConfigPermissions (platform : jsString)
    (stat_mode : list Event → option Z) : M unit :=
  if bool_decide (platform = js "win32") then mret ()
  else
    tryCatch
      (s_mode ← (λ w, (match stat_mode (history w) with
                       | Some m => inr m
                       | None => inl (ThrownError (js "stat failed"))
                       end, log EvStat w));
       let mode := Z.land s_mode 511 in
       if bool_decide (Z.land mode 63 ≠ 0%Z) then emit EvConsoleError
       else mret ())
      (λ _, mret ()).

(** The statement of [pg_list_tables], line by line. *)
Definition tablesQuery : jsString :=
  join [newline]
    [ js "SELECT t.tablename AS table_name,";
      js "                  COALESCE(s.n_live_tup, 0) AS estimated_rows";
      js "           FROM pg_tables t";
      js "           LEFT JOIN pg_stat_user_tables s";
      js "             ON s.schemaname = t.schemaname AND s.relname = t.tablename";
      js "           WHERE t.schemaname = $1";
      js "           ORDER BY t.tablename" ].

(** The statement of [pg_list_schemas], line by line. *)
Definition schemasQuery : jsString :=
  join [newline]
    [ js "SELECT schema_name,";
      js "                  (SELECT count(" ++ [cu "*"] ++ js ") FROM information_schema.tables t";
      js "                   WHERE t.table_schema = s.schema_name) AS table_count";
      js "           FROM information_schema.schemata s";
      js "           ORDER BY schema_name" ].

Section Tools.
Context (env : Env).

(** [r[key]]: the cell of a row, [None] when the row has no such column. *)
Definition cell (r : Row) (key : jsString) : option Value :=
  snd <$> List.find (λ kv, bool_decide (kv.1 = key)) r.

(** A template literal's rendering of a cell of a row. *)
Definition templateValue (o : option Value) : jsString :=
  match o with
  | None => js "undefined"
  | Some VNull => js "null"
  | Some (VString s) => s
  | Some (VNumber n) => showNumber env n
  | Some (VBoolean b) => if b then js "true" else js "false"
  end.

(** ** Tool [pg_list_databases] *)

(** A template literal's rendering of an optional string. *)
Definition templateString (o : option jsString) : jsString :=
  default (js "undefined") o.

(** One line of the listing. *)
Definition databaseLine (c : DbConnection) : jsString :=
  let addr :=
    if truthy (url c) then js "(connection string)"
    else templateString (user c) ++ js "@" ++ templateString (host c)
         ++ js ":" ++ showNumber env (port c) ++ js "/"
         ++ templateString (database c) in
  let flags :=
    (if ssl c is Some _ then [js "SSL"] else [])
    ++ (if readOnly c then [] else [js "RW"]) in
  let suffix :=
    if bool_decide (length flags ≠ 0)
    then js " [" ++ join (js ", ") flags ++ js "]" else [] in
  js "- " ++ label c ++ js ": " ++ addr ++ suffix.

(** The handler of the [pg_list_databases] tool; [CONFIG_PATH] is the
    resolved path of the configuration file. *)
Definition pg_list_databases (CONFIG_PATH : jsString) : M ToolResult :=
  connections ← loadConfig env;
  if bool_decide (length connections = 0) then
    mret {| text :=
              js "No databases available." ++ [newline] ++ js "Config: "
              ++ CONFIG_PATH
              ++ (if truthy (LABEL_FILTER env)
                  then [newline] ++ js "Filter: --label "
                       ++ default [] (LABEL_FILTER env)
                  else []);
            isError := false |}
  else
    mret {| text :=
              js "Available databases ("
              ++ showNumber env (Z.of_nat (length connections)) ++ js "):"
              ++ [newline] ++ join [newline] (databaseLine <$> connections);
            isError := false |}.

(** ** Tools [pg_list_tables] and [pg_list_schemas] *)

Definition tableLine (r : Row) : jsString :=
  js "- " ++ templateValue (cell r (js "table_name")) ++ js " (~"
  ++ templateValue (cell r (js "estimated_rows")) ++ js " rows)".

(** The handler of the [pg_list_tables] tool. *)
Definition pg_list_tables (database schema : jsString)
  : World → ToolResult * World :=
  λ w,
  let body : M ToolResult :=
    result ← withPool env database
               (λ client,
                  clientQuery env client tablesQuery (Some [VString schema]));
    match rows result with
    | None =>
        throw (ThrownError
                 (js "Cannot read properties of undefined (reading 'length')"))
    | Some rs =>
        if bool_decide (length rs = 0) then
          mret {| text := js "No tables found in schema " ++ [dquote]
                          ++ schema ++ [dquote] ++ js ".";
                  isError := false |}
        else
          mret {| text := js "Tables in " ++ [dquote] ++ schema ++ [dquote]
                          ++ js " (" ++ showNumber env (Z.of_nat (length rs))
                          ++ js "):" ++ [newline]
                          ++ join [newline] (tableLine <$> rs);
                  isError := false |}
    end in
  match body w with
  | (inr r, w') => (r, w')
  | (inl e, w') => (errorResult e, w')
  end.

Definition schemaLine (r : Row) : jsString :=
  js "- " ++ templateValue (cell r (js "schema_name")) ++ js " ("
  ++ templateValue (cell r (js "table_count")) ++ js " tables)".

(** The handler of the [pg_list_schemas] tool. *)
Definition pg_list_schemas (database : jsString)
  : World → ToolResult * World :=
  λ w,
  let body : M ToolResult :=
    result ← withPool env database
               (λ client, clientQuery env client schemasQuery None);
    match rows result with
    | None =>
        throw (ThrownError
                 (js "Cannot read properties of undefined (reading 'map')"))
    | Some rs =>
        mret {| text := js "Schemas (" ++ showNumber env (Z.of_nat (length rs))
                        ++ js "):" ++ [newline]
                        ++ join [newline] (schemaLine <$> rs);
                isError := false |}
    end in
  match body w with
  | (inr r, w') => (r, w')
  | (inl e, w') => (errorResult e, w')
  end.

(** ** Tool [pg_explain] *)

Definition explainStatement (query : jsString) : jsString :=
  js "EXPLAIN (ANALYZE, BUFFERS, FORMAT TEXT) " ++ query.

(** The callback [pg_explain] hands to [withPool]. *)
Definition explainTransaction (explainQuery : jsString)
    (params : option (list Value)) (client : Pool) : M QueryResult :=
  clientQuery env client (js "BEGIN") None;;
  tryFinally
    (clientQuery env client explainQuery params)
    (swallow (clientQuery env client (js "ROLLBACK") None)).

(** What [Array.prototype.join] makes of an element: nothing of [undefined]
    and [null], the string conversion otherwise. *)
Definition joinElement (o : option Value) : jsString :=
  match o with
  | None | Some VNull => []
  | Some (VString s) => s
  | Some (VNumber n) => showNumber env n
  | Some (VBoolean b) => if b then js "true" else js "false"
  end.

(** The text [pg_explain] makes of the rows of the plan. *)
Definition planText (rs : list Row) : jsString :=
  join [newline] ((λ r, joinElement (cell r (js "QUERY PLAN"))) <$> rs).

Definition explainError : ToolResult :=
  {| text := js "Error: Multi-statement queries are not allowed.";
     isError := true |}.

(** The handler of the [pg_explain] tool.  Reading [rows] of a result
    without rows is a [TypeError]. *)
Definition pg_explain (database query : jsString)
    (params : option (list Value)) : World → ToolResult * World :=
  λ w,
  let body : M ToolResult :=
    if negb (isSingleStatement query) then mret explainError
    else
      result ← withPool env database
                 (explainTransaction (explainStatement query) params);
      match rows result with
      | Some rs => mret {| text := planText rs; isError := false |}
      | None =>
          throw (ThrownError
                   (js "Cannot read properties of undefined (reading 'map')"))
      end in
  match body w with
  | (inr r, w') => (r, w')
  | (inl e, w') => (errorResult e, w')
  end.

End Tools.

(** ** Further processes, for running the model *)

Module Cases.

(** The configuration file cannot be read. *)
Definition unreadable : Env :=
  {| LABEL_FILTER := LABEL_FILTER Scenario.env;
     Date_now := Date_now Scenario.env;
     stat_mtimeMs := λ _, None;
     readConfig := λ _, inl (ThrownError (js "ENOENT"));
     existsSync := λ _, false;
     ZodError_issues := ZodError_issues Scenario.env;
     pool_connect := pool_connect Scenario.env;
     client_query := client_query Scenario.env;
     JSON_stringify := JSON_stringify Scenario.env;
     JSON_stringify_payload := JSON_stringify_payload Scenario.env;
     showNumber := showNumber Scenario.env |}.

(** The process of [Scenario] restricted to one label. *)
Definition filtered (lbl : string) : Env :=
  {| LABEL_FILTER := Some (js lbl);
     Date_now := Date_now Scenario.env;
     stat_mtimeMs := stat_mtimeMs Scenario.env;
     readConfig := readConfig Scenario.env;
     existsSync := existsSync Scenario.env;
     ZodError_issues := ZodError_issues Scenario.env;
     pool_connect := pool_connect Scenario.env;
     client_query := client_query Scenario.env;
     JSON_stringify := JSON_stringify Scenario.env;
     JSON_stringify_payload := JSON_stringify_payload Scenario.env;
     showNumber := showNumber Scenario.env |}.

(** The process of [Scenario] with a database that fails every
    statement. *)
Definition down : Env :=
  {| LABEL_FILTER := LABEL_FILTER Scenario.env;
     Date_now := Date_now Scenario.env;
     stat_mtimeMs := stat_mtimeMs Scenario.env;
     readConfig := readConfig Scenario.env;
     existsSync := existsSync Scenario.env;
     ZodError_issues := ZodError_issues Scenario.env;
     pool_connect := pool_connect Scenario.env;
     client_query := λ _ _ _ _,
       inl (ThrownError (js "server closed the connection"));
     JSON_stringify := JSON_stringify Scenario.env;
     JSON_stringify_payload := JSON_stringify_payload Scenario.env;
     showNumber := showNumber Scenario.env |}.

(** A state that holds a snapshot loaded at time [t]. *)
Definition loaded (t : Z) : World :=
  {| pools := ∅;
     configCache :=
       Some {| connections := [Scenario.parsed "staging" true "main"];
               mtime := 1; loadedAt := t |};
     poolsCreated := 0;
     history := [] |}.

(** The writable descriptor of [Scenario], as parsed. *)
Definition writable : DbConnection :=
  {| label := js "prod"; host := Some (js "db.internal"); port := 5432;
     user := Some (js "app"); password := [];
     database := Some (js "main"); url := None; enabled := true;
     ssl := None; readOnly := false; poolSize := 5 |}.

(** A descriptor with a password, and a state whose cached snapshot holds
    it. *)
Definition secret (pw : string) : DbConnection :=
  {| label := js "staging"; host := Some (js "db.internal"); port := 5432;
     user := Some (js "app"); password := js pw;
     database := Some (js "main"); url := None; enabled := true;
     ssl := Some SslTrue; readOnly := false; poolSize := 5 |}.

Definition holding (cs : list DbConnection) : World :=
  {| pools := ∅;
     configCache := Some {| connections := cs; mtime := 1; loadedAt := 0 |};
     poolsCreated := 0;
     history := [] |}.

(** A state whose snapshot was loaded long ago from an older file. *)
Definition stale : World :=
  {| pools := ∅;
     configCache :=
       Some {| connections := [Scenario.parsed "old" true "main"];
               mtime := 0; loadedAt := -10000 |};
     poolsCreated := 0;
     history := [] |}.

(** The process of [Scenario] with a file whose second descriptor asks for
    a pool of size zero. *)
Definition invalid : Env :=
  {| LABEL_FILTER := LABEL_FILTER Scenario.env;
     Date_now := Date_now Scenario.env;
     stat_mtimeMs := stat_mtimeMs Scenario.env;
     readConfig := λ _,
       inr [Scenario.descriptor "staging" false;
            {| raw_label := Some (js "prod");
               raw_host := Some (js "db.internal");
               raw_port := None;
               raw_user := Some (js "app");
               raw_password := None;
               raw_database := Some (js "main");
               raw_url := None;
               raw_enabled := None;
               raw_ssl := None;
               raw_readOnly := None;
               raw_poolSize := Some 0%Z |}];
     existsSync := existsSync Scenario.env;
     ZodError_issues := ZodError_issues Scenario.env;
     pool_connect := pool_connect Scenario.env;
     client_query := client_query Scenario.env;
     JSON_stringify := JSON_stringify Scenario.env;
     JSON_stringify_payload := JSON_stringify_payload Scenario.env;
     showNumber := showNumber Scenario.env |}.

(** A descriptor of the file that [DbConnectionSchema] parses to [c]. *)
Definition written (c : DbConnection) : RawConnection :=
  {| raw_label := Some (label c);
     raw_host := host c;
     raw_port := Some (port c);
     raw_user := user c;
     raw_password := Some (password c);
     raw_database := database c;
     raw_url := url c;
     raw_enabled := Some (enabled c);
     raw_ssl := ssl c;
     raw_readOnly := Some (readOnly c);
     raw_poolSize := Some (poolSize c) |}.

(** The process of [Scenario] under the label filter [only], with a file
    that repeats a label and holds a disabled descriptor: the one that
    parses to [Scenario.source]. *)
Definition repeated (only : option jsString) : Env :=
  {| LABEL_FILTER := only;
     Date_now := Date_now Scenario.env;
     stat_mtimeMs := stat_mtimeMs Scenario.env;
     readConfig := λ _, inr (written <$> Scenario.source);
     existsSync := existsSync Scenario.env;
     ZodError_issues := ZodError_issues Scenario.env;
     pool_connect := pool_connect Scenario.env;
     client_query := client_query Scenario.env;
     JSON_stringify := JSON_stringify Scenario.env;
     JSON_stringify_payload := JSON_stringify_payload Scenario.env;
     showNumber := showNumber Scenario.env |}.

End Cases.

(** ** Predicates on states, histories and inputs *)

(** What [DbConnectionSchema] asks of a descriptor of the file, the defaults
    filled in: a non-empty label, a positive port, a pool size from 1 to
    100, and a connection string or host, user and database. *)
Definition acceptable (r : RawConnection) : Prop :=
  (∃ lbl, raw_label r = Some lbl ∧ 1 ≤ length lbl)
  ∧ (0 < default 5432 (raw_port r))%Z
  ∧ (1 ≤ default 5 (raw_poolSize r) ≤ 100)%Z
  ∧ (truthy (raw_url r) = true
     ∨ truthy (raw_host r) = true ∧ truthy (raw_user r) = true
       ∧ truthy (raw_database r) = true).

(** The interactions of configuration loading: the clock, the file system
    and the diagnostics. *)
Definition configEvent (ev : Event) : bool :=
  match ev with
  | EvNow | EvStat | EvReadFile | EvExists | EvConsoleError => true
  | _ => false
  end.

(** A statement sent on [client]. *)
Definition queryOn (client : Pool) (ev : Event) : bool :=
  match ev with
  | EvQuery c _ _ => bool_decide (c = client)
  | _ => false
  end.

(** The return of [client] to its pool. *)
Definition releaseOf (client : Pool) (ev : Event) : bool :=
  match ev with
  | EvRelease c => bool_decide (c = client)
  | _ => false
  end.

(** [w'] comes after [w] with the registry as it was, and only [allowed]
    interactions in between. *)
Definition extends (allowed : Event → bool) (w w' : World) : Prop :=
  pools w' = pools w ∧ poolsCreated w' = poolsCreated w
  ∧ ∃ evs, history w' = history w ++ evs
           ∧ Forall (λ ev, allowed ev = true) evs.

(** Whatever its outcome, [m] leaves the registry alone and interacts in
    the [allowed] ways only. *)
Definition passive {A} (allowed : Event → bool) (m : M A) : Prop :=
  ∀ w r w', m w = (r, w') → extends allowed w w'.

(** Interactions that construct, end or borrow from a pool. *)
Definition registryEvent (ev : Event) : bool :=
  match ev with
  | EvPoolNew _ _ | EvPoolEnd _ | EvConnect _ => true
  | _ => false
  end.

(** The registry and the history agree: pools are known by construction
    order, no pool is registered under two labels, a registered pool has not
    been ended, no pool is ended twice, and no client was borrowed from a
    pool after its end. *)
Record sound (w : World) : Prop := {
  sound_fresh : ∀ l e, pools w !! l = Some e → pool e < poolsCreated w;
  sound_apart : ∀ l1 l2 e1 e2,
    pools w !! l1 = Some e1 → pools w !! l2 = Some e2 →
    pool e1 = pool e2 → l1 = l2;
  sound_live : ∀ l e, pools w !! l = Some e → EvPoolEnd (pool e) ∉ history w;
  sound_ended : ∀ p, EvPoolEnd p ∈ history w → p < poolsCreated w;
  sound_once : ∀ i j p,
    history w !! i = Some (EvPoolEnd p) →
    history w !! j = Some (EvPoolEnd p) → i = j;
  sound_use : ∀ i j p,
    history w !! i = Some (EvPoolEnd p) →
    history w !! j = Some (EvConnect p) → j < i;
}.

(** From [w] to [w'] the history has only grown, and every client
    borrowed in between comes from a pool that the registry of [w']
    holds. *)
Definition borrowsRegistered (w w' : World) : Prop :=
  ∃ evs, history w' = history w ++ evs
         ∧ ∀ p, EvConnect p ∈ evs →
                ∃ l e, pools w' !! l = Some e ∧ pool e = p.

(** The error of [getConnection] for a label that [connections] lacks. *)
Definition notFound (lbl : jsString) (connections : list DbConnection)
  : Thrown :=
  let joined := join (js ", ") (label <$> connections) in
  ThrownError
    (js "Database " ++ [dquote] ++ lbl ++ [dquote]
     ++ js " not found. Available: "
     ++ (if bool_decide (joined = []) then js "(none)" else joined)).

(** Interactions that come before a client is borrowed: configuration
    loading, and the construction and end of pools. *)
Definition setupEvent (ev : Event) : bool :=
  match ev with
  | EvConnect _ | EvQuery _ _ _ | EvRelease _ => false
  | _ => true
  end.

(** The statements [pg_explain] sends on [client] for [query]. *)
Definition explainEvent (query : jsString) (client : Pool) (ev : Event)
  : bool :=
  match ev with
  | EvQuery c sql _ =>
      bool_decide (c = client)
      && (bool_decide (sql = js "BEGIN")
          || bool_decide (sql = explainStatement query)
          || bool_decide (sql = js "ROLLBACK"))
  | _ => false
  end.

(** What [pg_list_databases] shows of a descriptor: the label, the address
    fields unless a connection string is configured, whether TLS is
    configured, and the [readOnly] flag. *)
Definition listed (c : DbConnection)
  : jsString * option (option jsString * option jsString * Z
                       * option jsString) * bool * bool :=
  (label c,
   if truthy (url c) then None
   else Some (user c, host c, port c, database c),
   if ssl c is Some _ then true else false,
   readOnly c).

(** The run [res] of a handler from [w] borrows nothing at first; then it
    ends in an error without borrowing, or its borrowing is refused and it
    reports that error, or it borrows a client, sends on it the one
    statement [sql] with the bound parameters [params], and releases it; a
    failure of the statement is then the error it reports. *)
Definition sendsOnce (env : Env) (w : World) (res : ToolResult * World)
    (sql : jsString) (params : option (list Value)) : Prop :=
  ∃ setup rest,
    history res.2 = history w ++ setup ++ rest
    ∧ Forall (λ ev, setupEvent ev = true) setup
    ∧ ((rest = [] ∧ isError res.1 = true)
       ∨ (∃ p e, rest = [EvConnect p]
                 ∧ pool_connect env (history w ++ setup) p = Some e
                 ∧ res.1 = errorResult e)
       ∨ (∃ p, rest = [EvConnect p; EvQuery p sql params; EvRelease p]
               ∧ pool_connect env (history w ++ setup) p = None
               ∧ ∀ e, client_query env (history w ++ setup ++ [EvConnect p])
                        p sql params = inl e →
                      res.1 = errorResult e)).

(** ** The scanning loop against the specification *)

(** The model agrees with every expectation of the test suite. *)
Lemma testCases_agree :
  Forall (λ '(sql, expected), isSingleStatement sql = expected) testCases.
Proof. repeat constructor. Qed.

(** What follows a boundary marker is taken as it stands: a trailing comment
    is content, and so is a second marker. *)
Lemma trailing_comment_is_content :
  isSingleStatement (js "SELECT 1; -- done") = false
  ∧ isSingleStatement (js "SELECT 1; /* done */") = false
  ∧ isSingleStatement (js "SELECT 1 -- done;") = true.
Proof. by split_and!. Qed.

(** Tag characters include the digits, so [$1$] is a delimiter for the
    loop: what lies between two of them is skipped. *)
Lemma digit_tag_is_a_delimiter :
  isSingleStatement (js "SELECT $1$2; DROP TABLE t") = true
  ∧ isSingleStatement (js "SELECT $1$; DROP TABLE t; SELECT $1$") = true.
Proof. by split. Qed.

Lemma scanFrom_eq sql i :
  scanFrom sql i =
    if bool_decide (i < length sql) then
      match scanStep sql i with
      | Return b => b
      | Continue j => scanFrom sql j
      end
    else true.
Proof.
  funelim (scanFrom sql i).
  - rewrite bool_decide_eq_false_2; [done | lia].
  - rewrite bool_decide_eq_true_2 by lia. by rewrite e.
  - rewrite bool_decide_eq_true_2 by lia. by rewrite Hj.
Qed.

Section Search.
Implicit Types (s pat rest : jsString) (c : N).

Lemma startsWith_take pat s :
  startsWith pat s = true ↔ take (length pat) s = pat.
Proof.
  revert s. induction pat as [|p pat IH]; intros [|c s]; simpl; try done.
  rewrite andb_true_iff, N.eqb_eq, IH. split.
  - by intros [-> ->].
  - by intros [= -> ->].
Qed.

Lemma startsWith_occursAt pat s k :
  startsWith pat (drop k s) = true ↔ Spec.occursAt pat s k.
Proof. apply startsWith_take. Qed.

Lemma occursAt_singleton c s k : Spec.occursAt [c] s k ↔ s !! k = Some c.
Proof.
  unfold Spec.occursAt.
  replace (s !! k) with (drop k s !! 0)
    by (rewrite lookup_drop; f_equal; lia).
  destruct (drop k s) as [|c' r]; simpl; [done|]. rewrite take_0.
  split; by intros [= ->].
Qed.

Lemma occursAt_pair c1 c2 s k :
  Spec.occursAt [c1; c2] s k ↔ s !! k = Some c1 ∧ s !! (k + 1) = Some c2.
Proof.
  unfold Spec.occursAt.
  replace (s !! k) with (drop k s !! 0)
    by (rewrite lookup_drop; f_equal; lia).
  rewrite <-(lookup_drop s k 1).
  destruct (drop k s) as [|c1' [|c2' r]]; simpl; try rewrite take_0.
  - split; [done | by intros [? ?]].
  - split; [done | by intros [? ?]].
  - split; [by intros [= -> ->] | by intros [[= ->] [= ->]]].
Qed.

Lemma occursAt_lt pat s k : pat ≠ [] → Spec.occursAt pat s k → k < length s.
Proof.
  unfold Spec.occursAt. intros Hne Hocc.
  destruct (decide (k < length s)) as [|Hge]; [done|].
  rewrite drop_ge, take_nil in Hocc by lia. congruence.
Qed.

Lemma indexOfAux_Some pat rest k e :
  indexOfAux pat rest k = Some e ↔
  ∃ m, e = k + m ∧ startsWith pat (drop m rest) = true
       ∧ ∀ m', m' < m → startsWith pat (drop m' rest) = false.
Proof.
  revert k. induction rest as [|c rest IH]; intros k; simpl.
  - destruct (startsWith pat []) eqn:Hs; split.
    + intros [= <-]. exists 0. split_and!; [lia | done | lia].
    + intros (m & -> & _ & Hm). destruct m as [|m]; [f_equal; lia|].
      specialize (Hm 0 ltac:(lia)). simpl in Hm. congruence.
    + done.
    + intros (m & _ & Hm & _). rewrite drop_nil in Hm. congruence.
  - destruct (startsWith pat (c :: rest)) eqn:Hs; split.
    + intros [= <-]. exists 0. split_and!; [lia | done | lia].
    + intros (m & -> & _ & Hm). destruct m as [|m]; [f_equal; lia|].
      specialize (Hm 0 ltac:(lia)). simpl in Hm. congruence.
    + intros Hi. destruct (proj1 (IH (S k)) Hi) as (m & -> & Hm & Hlt).
      exists (S m).
      split_and!; [lia | done |]. intros [|m'] ?; [done|].
      apply Hlt. lia.
    + intros (m & -> & Hm & Hlt). destruct m as [|m]; [simpl in Hm; congruence|].
      apply IH. exists m. split_and!; [lia | done |].
      intros m' ?. apply (Hlt (S m')). lia.
Qed.

Lemma indexOfAux_None pat rest k :
  indexOfAux pat rest k = None ↔ ∀ m, startsWith pat (drop m rest) = false.
Proof.
  revert k. induction rest as [|c rest IH]; intros k; simpl.
  - destruct (startsWith pat []) eqn:Hs; split; try done.
    + intros Hm. specialize (Hm 0). simpl in Hm. congruence.
    + intros _ m. by rewrite drop_nil.
  - destruct (startsWith pat (c :: rest)) eqn:Hs; split; try done.
    + intros Hm. specialize (Hm 0). simpl in Hm. congruence.
    + intros Hm [|m]; [done|]. apply (proj1 (IH (S k)) Hm).
    + intros Hm. apply IH. intros m. apply (Hm (S m)).
Qed.

(** [indexOf] finds the first occurrence at or after [from]. *)
Lemma indexOf_firstAt s pat from e :
  from ≤ length s →
  indexOf s pat from = Some e ↔ Spec.firstAt pat s from e.
Proof.
  intros Hle. unfold indexOf, Spec.firstAt.
  rewrite Nat.min_l by done. rewrite indexOfAux_Some. split.
  - intros (m & -> & Hm & Hlt). rewrite drop_drop in Hm.
    split_and!; [lia | by apply startsWith_occursAt |].
    intros k Hk Hocc%startsWith_occursAt.
    specialize (Hlt (k - from) ltac:(lia)). rewrite drop_drop in Hlt.
    replace (from + (k - from)) with k in Hlt by lia. congruence.
  - intros (Hge & Hocc%startsWith_occursAt & Hfirst). exists (e - from).
    rewrite drop_drop. replace (from + (e - from)) with e by lia.
    split_and!; [lia | done |]. intros m' Hm'. rewrite drop_drop.
    apply not_true_is_false. intros Hocc'%startsWith_occursAt.
    apply (Hfirst (from + m')); [lia | done].
Qed.

Lemma indexOf_None s pat from :
  from ≤ length s →
  indexOf s pat from = None ↔ ∀ e, ¬ Spec.firstAt pat s from e.
Proof.
  intros Hle. split.
  - intros Hnone e He. apply indexOf_firstAt in He; [congruence | done].
  - intros Hno. destruct (indexOf s pat from) as [e|] eqn:He; [|done].
    apply indexOf_firstAt in He; [|done]. by apply Hno in He.
Qed.

Lemma firstAt_unique pat s from e e' :
  Spec.firstAt pat s from e → Spec.firstAt pat s from e' → e = e'.
Proof.
  intros (? & Ho & Hf) (? & Ho' & Hf').
  destruct (Nat.lt_trichotomy e e') as [|[|]]; [|done|].
  - destruct (Hf' e); [lia | done].
  - destruct (Hf e'); [lia | done].
Qed.

End Search.

Lemma drop_cons_inv' {A} (l : list A) k x rest :
  drop k l = x :: rest → l !! k = Some x ∧ drop (S k) l = rest.
Proof.
  intros Hd. split.
  - replace (l !! k) with (drop k l !! 0)
      by (rewrite lookup_drop; f_equal; lia).
    by rewrite Hd.
  - replace (S k) with (k + 1) by lia. by rewrite <-drop_drop, Hd.
Qed.

Section Loops.
Implicit Types (s rest : jsString) (c : N).

Lemma drop_cons_inv s k c rest :
  drop k s = c :: rest → s !! k = Some c ∧ drop (k + 1) s = rest.
Proof.
  intros Hd. split.
  - replace (s !! k) with (drop k s !! 0)
      by (rewrite lookup_drop; f_equal; lia).
    by rewrite Hd.
  - rewrite <-drop_drop, Hd. done.
Qed.

Lemma drop_nil_inv s k : drop k s = [] → length s ≤ k.
Proof. intros Hd%(f_equal length). rewrite length_drop in Hd. simpl in Hd. lia. Qed.

Lemma literalEnd_bounds s k e : Spec.literalEnd s k e → k ≤ e < length s.
Proof.
  induction 1 as [k Hk _ | k e _ _ _ IH | k c e _ _ _ IH]; try lia.
  apply lookup_lt_Some in Hk. lia.
Qed.

Lemma literalEnd_unique s k e e' :
  Spec.literalEnd s k e → Spec.literalEnd s k e' → e = e'.
Proof.
  intros H. revert e'.
  induction H as [k Hk Hn | k e Hk Hn _ IH | k c e Hk Hc _ IH];
    intros e'; inversion 1; subst; try congruence; by apply IH.
Qed.

Lemma skipLiteral_spec s k :
  let e := skipLiteral (drop k s) k in
  Spec.literalEnd s k e ∨ (length s ≤ e ∧ ∀ e', ¬ Spec.literalEnd s k e').
Proof.
  remember (drop k s) as rest eqn:Hr. revert k Hr.
  induction rest as [| c | c c' rest IH1 IH2] using list_pair_ind;
    intros k Hr; symmetry in Hr; cbn [skipLiteral].
  - apply drop_nil_inv in Hr. right. split; [done|].
    intros e' He%literalEnd_bounds. lia.
  - apply drop_cons_inv in Hr as [Hk Hr%drop_nil_inv].
    destruct (N.eqb_spec c (cu "'")) as [->|Hc].
    + left. apply Spec.literal_close; [done|].
      rewrite lookup_ge_None_2; [done | lia].
    + right. split; [lia|]. intros e'. inversion 1; subst; try congruence.
      match goal with H : Spec.literalEnd _ (k + 1) _ |- _ =>
        apply literalEnd_bounds in H end. lia.
  - apply drop_cons_inv in Hr as [Hk Hr].
    pose proof Hr as [Hk' Hr']%drop_cons_inv.
    replace (k + 1 + 1) with (k + 2) in Hr' by lia.
    destruct (N.eqb_spec c (cu "'")) as [->|Hc].
    + destruct (N.eqb_spec c' (cu "'")) as [->|Hc'].
      * destruct (IH1 (k + 2) (eq_sym Hr')) as [He | [Hlen Hno]].
        -- left. by apply Spec.literal_escape.
        -- right. split; [done|]. intros e'.
           inversion 1; subst; try congruence. by eapply Hno.
      * left. apply Spec.literal_close; [done | congruence].
    + destruct (IH2 (k + 1) (eq_sym Hr)) as [He | [Hlen Hno]].
      * left. by eapply Spec.literal_char.
      * right. split; [done|]. intros e'.
        inversion 1; subst; try congruence. by eapply Hno.
Qed.

Lemma skipIdent_spec s k :
  let e := skipIdent (drop k s) k in
  Spec.firstAt [dquote] s k e
  ∨ (length s ≤ e ∧ ∀ e', ¬ Spec.firstAt [dquote] s k e').
Proof.
  remember (drop k s) as rest eqn:Hr. revert k Hr.
  induction rest as [|c rest IH]; intros k Hr; symmetry in Hr;
    cbn [skipIdent].
  - apply drop_nil_inv in Hr. right. split; [done|].
    intros e' (? & Ho%occursAt_lt & _); [lia | done].
  - apply drop_cons_inv in Hr as [Hk Hr].
    destruct (N.eqb_spec c dquote) as [->|Hc].
    + left. split_and!; [lia | by apply occursAt_singleton | lia].
    + destruct (IH (k + 1) (eq_sym Hr)) as [(? & Ho & Hf) | [Hlen Hno]].
      * left. split_and!; [lia | done |]. intros m Hm.
        destruct (decide (m = k)) as [->|]; [|apply Hf; lia].
        rewrite occursAt_singleton. congruence.
      * right. split; [done|]. intros e' (? & Ho & Hf).
        apply (Hno e'). split_and!; [|done | intros; apply Hf; lia].
        destruct (decide (e' = k)) as [->|]; [|lia].
        apply occursAt_singleton in Ho. congruence.
Qed.

Lemma skipTag_spec s k :
  let j := skipTag (drop k s) k in
  k ≤ j ≤ length s `max` k
  ∧ (∀ m, k ≤ m < j → ∃ c, s !! m = Some c ∧ isTagChar c = true)
  ∧ (∀ c, s !! j = Some c → isTagChar c = false).
Proof.
  remember (drop k s) as rest eqn:Hr. revert k Hr.
  induction rest as [|c rest IH]; intros k Hr; symmetry in Hr;
    cbn [skipTag].
  - apply drop_nil_inv in Hr. split_and!; [lia | lia | lia |].
    intros c Hc%lookup_lt_Some. lia.
  - apply drop_cons_inv in Hr as [Hk Hr].
    destruct (isTagChar c) eqn:Hc.
    + destruct (IH (k + 1) (eq_sym Hr)) as ([? ?] & Hall & Hend).
      apply lookup_lt_Some in Hk as Hlt.
      split_and!; [lia | lia | | done].
      intros m Hm. destruct (decide (m = k)) as [->|]; [eauto|].
      apply Hall. lia.
    + split_and!; [lia | lia | lia |]. congruence.
Qed.

Lemma literal_unterminated s k :
  length s ≤ skipLiteral (drop k s) k → ∀ e, ¬ Spec.literalEnd s k e.
Proof.
  intros Hlen. destruct (skipLiteral_spec s k) as [He | [_ Hno]]; [|done].
  apply literalEnd_bounds in He. lia.
Qed.

Lemma ident_unterminated s k :
  length s ≤ skipIdent (drop k s) k →
  ∀ e, ¬ Spec.firstAt [dquote] s k e.
Proof.
  intros Hlen. destruct (skipIdent_spec s k) as [He | [_ Hno]]; [|done].
  destruct He as (_ & He%occursAt_lt & _); [lia | done].
Qed.

Lemma delimiter_skipTag s i j :
  Spec.delimiter s i j ↔
  s !! i = Some (cu "$") ∧ j = skipTag (drop (i + 1) s) (i + 1)
  ∧ s !! j = Some (cu "$").
Proof.
  destruct (skipTag_spec s (i + 1)) as ([? ?] & Hall & Hend). split.
  - intros (Hi & Hlt & Hj & Htag). split_and!; [done | | done].
    set (j0 := skipTag (drop (i + 1) s) (i + 1)) in *.
    destruct (Nat.lt_trichotomy j j0) as [Hc|[Hc|Hc]]; [|done|].
    + destruct (Hall j) as (c & Hc' & Ht); [lia|].
      rewrite Hj in Hc'. by injection Hc' as <-.
    + destruct (Htag j0) as (c & Hc' & Ht); [lia|].
      apply Hend in Hc'. congruence.
  - intros (Hi & -> & Hj). split_and!; [done | lia | done |].
    intros m Hm. apply Hall. lia.
Qed.

Lemma delimiter_unique s i j j' :
  Spec.delimiter s i j → Spec.delimiter s i j' → j = j'.
Proof.
  rewrite !delimiter_skipTag. intros (_ & -> & _) (_ & -> & _). done.
Qed.

End Loops.

Section Trim.
Implicit Types (s : jsString) (c : N).

Lemma trimStart_nil s :
  trimStart s = [] ↔ Forall (λ c, isWhiteSpace c = true) s.
Proof.
  induction s as [|c s IH]; simpl; [by split|].
  destruct (isWhiteSpace c) eqn:Hc.
  - rewrite IH. split; [by constructor | by inversion 1].
  - split; [done | inversion 1; congruence].
Qed.

Lemma trimStart_head s c r : trimStart s = c :: r → isWhiteSpace c = false.
Proof.
  induction s as [|c' s IH]; simpl; [done|].
  destruct (isWhiteSpace c') eqn:Hc; [done | congruence].
Qed.

Lemma trimStart_Forall s :
  Forall (λ c, isWhiteSpace c = true) (trimStart s) → trimStart s = [].
Proof.
  destruct (trimStart s) as [|c r] eqn:Ht; [done|].
  apply trimStart_head in Ht. inversion 1; congruence.
Qed.

Lemma trim_nil s : trim s = [] ↔ Forall (λ c, isWhiteSpace c = true) s.
Proof.
  unfold trim. split.
  - intros Hr%(f_equal reverse). rewrite reverse_involutive in Hr.
    change (reverse []) with (@nil N) in Hr.
    apply trimStart_nil, Forall_reverse, trimStart_Forall in Hr.
    by apply trimStart_nil.
  - intros Hs%trimStart_nil. rewrite Hs. done.
Qed.

(** The test [rest.length > 0] on the trimmed remainder. *)
Lemma trim_hasContent s k :
  0 < length (trim (substringFrom s k)) ↔ Spec.hasContent s k.
Proof.
  unfold substringFrom, Spec.hasContent. split.
  - intros Hlen.
    assert (¬ Forall (λ c, isWhiteSpace c = true) (drop k s)) as Hnot.
    { intros Hall%trim_nil. rewrite Hall in Hlen. simpl in Hlen. lia. }
    apply not_Forall_Exists in Hnot; [|intros c; apply _].
    apply Exists_exists in Hnot as (c & [m Hm]%list_elem_of_lookup & Hc).
    rewrite lookup_drop in Hm. exists (k + m), c.
    split_and!; [lia | done | by apply not_true_is_false].
  - intros (m & c & Hle & Hm & Hc).
    destruct (trim (drop k s)) eqn:Ht; [|simpl; lia].
    apply trim_nil in Ht. rewrite Forall_forall in Ht.
    rewrite (Ht c) in Hc; [done|]. apply list_elem_of_lookup.
    exists (m - k). rewrite lookup_drop. by replace (k + (m - k)) with m by lia.
Qed.

End Trim.

(** ** Properties of the specification's reader *)

(** Two different characters cannot sit at one index. *)
Ltac clash :=
  match goal with
  | H1 : ?s !! ?i = Some ?a, H2 : ?s !! ?i = Some ?b |- _ =>
      rewrite H1 in H2; vm_compute in H2; discriminate H2
  end.

Section Reader.
Implicit Types (s : jsString) (c : N).

Lemma context_opens s i j : Spec.context s i j → Spec.opens s i.
Proof.
  destruct 1; eauto using Spec.opens_line, Spec.opens_block,
    Spec.opens_literal, Spec.opens_ident, Spec.opens_body.
Qed.

Lemma firstAt_ge pat s from e : Spec.firstAt pat s from e → from ≤ e.
Proof. by intros [? _]. Qed.

Lemma context_lt s i j : Spec.context s i j → i < j.
Proof.
  destruct 1 as [i e _ _ H%firstAt_ge | i e _ _ H%firstAt_ge
                | i e _ H%literalEnd_bounds | i e _ H%firstAt_ge
                | i j e (_ & ? & _) H%firstAt_ge]; lia.
Qed.

Lemma context_unique s i j j' :
  Spec.context s i j → Spec.context s i j' → j = j'.
Proof.
  destruct 1 as [i e ? ? Hf | i e ? ? Hf | i e ? Hf | i e ? Hf
                | i d e Hd Hf];
    inversion 1 as [? e' ? ? Hf' | ? e' ? ? Hf' | ? e' ? Hf' | ? e' ? Hf'
                   | ? d' e' Hd' Hf']; subst;
    try clash;
    try (destruct Hd as (? & _); clash);
    try (destruct Hd' as (? & _); clash).
  - by rewrite (firstAt_unique _ _ _ _ _ Hf Hf').
  - by rewrite (firstAt_unique _ _ _ _ _ Hf Hf').
  - by rewrite (literalEnd_unique _ _ _ _ Hf Hf').
  - by rewrite (firstAt_unique _ _ _ _ _ Hf Hf').
  - pose proof (delimiter_unique _ _ _ _ Hd Hd') as <-.
    by rewrite (firstAt_unique _ _ _ _ _ Hf Hf').
Qed.

Lemma step_lt s i j : Spec.step s i j → i < j ∧ i < length s.
Proof.
  destruct 1 as [i j Hc | i c Hi _].
  - split; [by eapply context_lt|].
    apply context_opens in Hc.
    destruct Hc as [H _ | H _ | H | H | j' (H & _)];
      by apply lookup_lt_Some in H.
  - apply lookup_lt_Some in Hi. lia.
Qed.

Lemma step_det s i j j' : Spec.step s i j → Spec.step s i j' → j = j'.
Proof.
  destruct 1 as [i j Hc | i c Hi Hn]; inversion 1 as [? ? Hc' | ? c' Hi' Hn'];
    subst.
  - by eapply context_unique.
  - by apply context_opens in Hc.
  - by apply context_opens in Hc'.
  - done.
Qed.

(** An unterminated context stops the reader. *)
Lemma step_stuck s i :
  Spec.opens s i → (∀ j, ¬ Spec.context s i j) → ∀ j, ¬ Spec.step s i j.
Proof. intros Ho Hc j. inversion 1; subst; [by eapply Hc | done]. Qed.

Lemma unterminated_block s i :
  s !! i = Some (cu "/") → s !! (i + 1) = Some (cu "*") →
  (∀ e, ¬ Spec.firstAt (js "*/") s (i + 2) e) →
  ∀ j, ¬ Spec.step s i j.
Proof.
  intros Hi Hn Hno. apply step_stuck; [by apply Spec.opens_block|].
  intros j. inversion 1 as [| ? e ? ? Hf | | |? ? ? (? & _)]; subst;
    try clash.
  by apply Hno in Hf.
Qed.

Lemma unterminated_body s i d :
  Spec.delimiter s i d →
  (∀ e, ¬ Spec.firstAt (take (d + 1 - i) (drop i s)) s (d + 1) e) →
  ∀ j, ¬ Spec.step s i j.
Proof.
  intros Hdel Hno. apply step_stuck; [by eapply Spec.opens_body|].
  pose proof Hdel as (Hi & _).
  intros j. inversion 1 as [| | | | ? d' e Hdel' Hf]; subst; try clash.
  rewrite <-(delimiter_unique _ _ _ _ Hdel Hdel') in Hf.
  by apply Hno in Hf.
Qed.

Lemma unterminated_literal s i :
  s !! i = Some (cu "'") → (∀ e, ¬ Spec.literalEnd s (i + 1) e) →
  ∀ j, ¬ Spec.step s i j.
Proof.
  intros Hi Hno. apply step_stuck; [by apply Spec.opens_literal|].
  intros j. inversion 1 as [| | ? e ? Hf | |? ? ? (? & _)]; subst;
    try clash.
  by apply Hno in Hf.
Qed.

Lemma unterminated_ident s i :
  s !! i = Some dquote → (∀ e, ¬ Spec.firstAt [dquote] s (i + 1) e) →
  ∀ j, ¬ Spec.step s i j.
Proof.
  intros Hi Hno. apply step_stuck; [by apply Spec.opens_ident|].
  intros j. inversion 1 as [| | | ? e ? Hf |? ? ? (? & _)]; subst;
    try clash.
  by apply Hno in Hf.
Qed.

Lemma placeholder_no_delimiter s i n :
  Spec.placeholder s i n → ∀ j, ¬ Spec.delimiter s i j.
Proof.
  intros ((Hi & Hn & Hdigits & _) & Hend) j (_ & Hlt & Hj & Htag).
  destruct (Nat.lt_trichotomy j (i + n + 1)) as [Hc|[->|Hc]].
  - destruct (Hdigits j) as (c & Hc' & Hd); [lia|].
    rewrite Hj in Hc'. injection Hc' as <-. vm_compute in Hd.
    by destruct Hd as [Hd _].
  - by destruct (Hend _ Hj) as [_ ?].
  - destruct (Htag (i + n + 1)) as (c & Hc' & Ht); [lia|].
    destruct (Hend _ Hc') as [? _]. congruence.
Qed.

Lemma outside_le s i p : rtc (Spec.step s) i p → i ≤ p.
Proof.
  induction 1 as [|i j p Hs%step_lt _ IH]; lia.
Qed.

(** The reader follows one path: two reachable indices are ordered along
    it. *)
Lemma outside_linear s i p q :
  rtc (Spec.step s) i p → rtc (Spec.step s) i q →
  rtc (Spec.step s) p q ∨ rtc (Spec.step s) q p.
Proof.
  intros Hp. revert q. induction Hp as [|i j p Hs Hjp IH]; [by left|].
  intros q. inversion 1 as [|? j' ? Hs' Hq]; subst.
  - right. by eapply rtc_l.
  - rewrite <-(step_det _ _ _ _ Hs Hs') in Hq. by apply IH.
Qed.

(** Nothing lies outside the contexts beyond an index at which the reader
    is stopped. *)
Lemma outside_stuck s i p :
  Spec.outside s i → (∀ j, ¬ Spec.step s i j) → Spec.outside s p → p ≤ i.
Proof.
  intros Hi Hstuck Hp.
  destruct (outside_linear _ _ _ _ Hi Hp) as [Hip | Hpi].
  - inversion Hip; subst; [done|]. by edestruct Hstuck.
  - by apply outside_le in Hpi.
Qed.

End Reader.

(** ** One iteration of the loop is one move of the reader *)

Section Iteration.
Implicit Types (s : jsString) (c : N).

Lemma line_branch s i :
  s !! i = Some (cu "-") → s !! (i + 1) = Some (cu "-") →
  match indexOf s [newline] i with
  | Some k => Spec.step s i (k + 1)
  | None => ∀ j, ¬ Spec.step s i j
  end.
Proof.
  intros Hi Hn. pose proof (lookup_lt_Some _ _ _ Hi) as Hlt.
  assert (∀ e, Spec.firstAt [newline] s i e
               ↔ Spec.firstAt [newline] s (i + 2) e) as Hshift.
  { intros e. split; intros (Hge & Ho & Hf).
    - split_and!; [|done | intros; apply Hf; lia].
      apply occursAt_singleton in Ho.
      destruct (decide (e = i)) as [->|]; [clash|].
      destruct (decide (e = i + 1)) as [->|]; [clash | lia].
    - split_and!; [lia | done |]. intros k Hk Hk'%occursAt_singleton.
      destruct (decide (k = i)) as [->|]; [clash|].
      destruct (decide (k = i + 1)) as [->|]; [clash|].
      apply (Hf k); [lia | by apply occursAt_singleton]. }
  destruct (indexOf s [newline] i) as [k|] eqn:Hk.
  - apply indexOf_firstAt, Hshift in Hk; [|lia].
    by apply Spec.step_context, Spec.context_line.
  - apply step_stuck; [by apply Spec.opens_line|].
    rewrite indexOf_None in Hk by lia.
    intros j. inversion 1 as [? e ? ? Hf | | | |? ? ? (? & _)]; subst;
      try clash.
    by apply Hshift, Hk in Hf.
Qed.

Lemma block_branch s i :
  s !! i = Some (cu "/") → s !! (i + 1) = Some (cu "*") →
  match indexOf s (js "*/") (i + 2) with
  | Some e => Spec.step s i (e + 2)
  | None => ∀ j, ¬ Spec.step s i j
  end.
Proof.
  intros Hi Hn. pose proof (lookup_lt_Some _ _ _ Hn) as Hlt.
  destruct (indexOf s (js "*/") (i + 2)) as [k|] eqn:Hk.
  - apply indexOf_firstAt in Hk; [|lia].
    by apply Spec.step_context, Spec.context_block.
  - apply step_stuck; [by apply Spec.opens_block|].
    rewrite indexOf_None in Hk by lia.
    intros j. inversion 1 as [| ? e ? ? Hf | | |? ? ? (? & _)]; subst;
      try clash.
    by apply Hk in Hf.
Qed.

Lemma literal_branch s i :
  s !! i = Some (cu "'") →
  let e := skipLiteral (drop (i + 1) s) (i + 1) in
  Spec.step s i (e + 1) ∨ (length s < e + 1 ∧ ∀ j, ¬ Spec.step s i j).
Proof.
  intros Hi. destruct (skipLiteral_spec s (i + 1)) as [He | [Hlen Hno]].
  - left. by apply Spec.step_context, Spec.context_literal.
  - right. split; [lia|]. apply step_stuck; [by apply Spec.opens_literal|].
    intros j. inversion 1 as [| | ? e ? Hf | |? ? ? (? & _)]; subst;
      try clash.
    by apply Hno in Hf.
Qed.

Lemma ident_branch s i :
  s !! i = Some dquote →
  let e := skipIdent (drop (i + 1) s) (i + 1) in
  Spec.step s i (e + 1) ∨ (length s < e + 1 ∧ ∀ j, ¬ Spec.step s i j).
Proof.
  intros Hi. destruct (skipIdent_spec s (i + 1)) as [He | [Hlen Hno]].
  - left. by apply Spec.step_context, Spec.context_ident.
  - right. split; [lia|]. apply step_stuck; [by apply Spec.opens_ident|].
    intros j. inversion 1 as [| | | ? e ? Hf |? ? ? (? & _)]; subst;
      try clash.
    by apply Hno in Hf.
Qed.

Lemma substring_tag s i j :
  i < j < length s → substring s i (j + 1) = take (j + 1 - i) (drop i s).
Proof.
  intros Hij. unfold substring.
  rewrite (Nat.min_l i), (Nat.min_l (j + 1)) by lia.
  by rewrite Nat.max_r, Nat.min_l by lia.
Qed.

Lemma dollar_branch s i :
  s !! i = Some (cu "$") →
  match dollarStep s i with
  | Some (Continue j) => Spec.step s i j
  | Some (Return b) => b = true ∧ ∀ j, ¬ Spec.step s i j
  | None => ∀ j, ¬ Spec.delimiter s i j
  end.
Proof.
  intros Hi. unfold dollarStep.
  set (d := skipTag (drop (i + 1) s) (i + 1)).
  pose proof (skipTag_ge (drop (i + 1) s) (i + 1)) as Hd. fold d in Hd.
  destruct (bool_decide (d < length s) && isChar (cu "$") (s !! d)) eqn:Hc.
  - apply andb_prop in Hc as [Hlt%bool_decide_eq_true Hc%isChar_true].
    assert (Spec.delimiter s i d) as Hdel by by apply delimiter_skipTag.
    rewrite substring_tag by lia.
    set (tag := take (d + 1 - i) (drop i s)).
    assert (length tag = d + 1 - i) as Htag.
    { unfold tag. rewrite length_take, length_drop. lia. }
    destruct (indexOf s tag (d + 1)) as [e|] eqn:He.
    + apply indexOf_firstAt in He; [|lia]. rewrite Htag.
      by eapply Spec.step_context, Spec.context_body.
    + split; [done|]. apply step_stuck; [by eapply Spec.opens_body|].
      rewrite indexOf_None in He by lia.
      intros j. inversion 1 as [| | | | ? d' e Hdel' Hf]; subst; try clash.
      rewrite <-(delimiter_unique _ _ _ _ Hdel Hdel') in Hf.
      by apply He in Hf.
  - intros j (_ & -> & Hj)%delimiter_skipTag. fold d in Hj.
    apply lookup_lt_Some in Hj as Hlt.
    rewrite bool_decide_eq_true_2, andb_true_l in Hc by done.
    by apply isChar_false in Hc.
Qed.

End Iteration.

Section Refinement.
Implicit Types (s : jsString) (c : N).

Ltac not_marker := intros [? _]; clash.

Lemma scanStep_spec s i :
  i < length s →
  match scanStep s i with
  | Return true => ¬ violation s i ∧ ∀ j, ¬ Spec.step s i j
  | Return false => violation s i
  | Continue j =>
      ¬ violation s i
      ∧ (Spec.step s i j ∨ (length s < j ∧ ∀ j', ¬ Spec.step s i j'))
  end.
Proof.
  intros Hlt. destruct (lookup_lt_is_Some_2 s i Hlt) as [c Hc].
  unfold scanStep. rewrite lookup_next.
  destruct (isChar (cu "-") (s !! i) && isChar (cu "-") (s !! (i + 1)))
    eqn:Hline.
  { apply andb_prop in Hline as [Ha%isChar_true Hb%isChar_true].
    pose proof (line_branch s i Ha Hb) as Hbr.
    destruct (indexOf s [newline] i); (split; [not_marker | auto]). }
  destruct (isChar (cu "/") (s !! i) && isChar (cu "*") (s !! (i + 1)))
    eqn:Hblock.
  { apply andb_prop in Hblock as [Ha%isChar_true Hb%isChar_true].
    pose proof (block_branch s i Ha Hb) as Hbr.
    destruct (indexOf s (js "*/") (i + 2)); (split; [not_marker | auto]). }
  destruct (isChar (cu "'") (s !! i)) eqn:Hlit.
  { apply isChar_true in Hlit. split; [not_marker|].
    apply (literal_branch s i Hlit). }
  destruct (isChar dquote (s !! i)) eqn:Hid.
  { apply isChar_true in Hid. split; [not_marker|].
    apply (ident_branch s i Hid). }
  destruct (isChar (cu "$") (s !! i)) eqn:Hdol.
  { apply isChar_true in Hdol. pose proof (dollar_branch s i Hdol) as Hbr.
    destruct (dollarStep s i) as [[b|j]|].
    - destruct Hbr as [-> Hbr]. split; [not_marker | done].
    - split; [not_marker | auto].
    - replace (isChar (cu ";") (s !! i)) with false
        by (symmetry; apply isChar_false; intros ?; clash).
      simpl. split; [not_marker|]. left.
      apply (Spec.step_char s i _ Hdol).
      destruct 1 as [? _ | ? _ | ? | ? | j Hdel]; try clash.
      by apply Hbr in Hdel. }
  destruct (isChar (cu ";") (s !! i)
            && bool_decide (0 < length (trim (substringFrom s (i + 1)))))
    eqn:Hsemi.
  { apply andb_prop in Hsemi as [Ha%isChar_true Hb%bool_decide_eq_true].
    split; [done | by apply trim_hasContent]. }
  split.
  - intros [Ha Hb%trim_hasContent]. apply isChar_true in Ha.
    rewrite Ha in Hsemi. simpl in Hsemi.
    by apply bool_decide_eq_false in Hsemi.
  - left. apply (Spec.step_char s i _ Hc).
    destruct 1 as [Ha Hb | Ha Hb | Ha | Ha | j (Ha & _)].
    + apply isChar_true in Ha, Hb. by rewrite Ha, Hb in Hline.
    + apply isChar_true in Ha, Hb. by rewrite Ha, Hb in Hblock.
    + apply isChar_true in Ha. congruence.
    + apply isChar_true in Ha. congruence.
    + apply isChar_true in Ha. congruence.
Qed.

(** The loop from [i] answers [true] exactly when no index the reader can
    still reach from [i] carries a boundary marker followed by content. *)
Lemma scanFrom_spec s i :
  scanFrom s i = true ↔ ∀ p, rtc (Spec.step s) i p → ¬ violation s p.
Proof.
  remember (length s - i) as n eqn:Hn. revert i Hn.
  induction (lt_wf n) as [n _ IH]. intros i ->.
  rewrite scanFrom_eq. case_bool_decide as Hlt.
  - pose proof (scanStep_spec s i Hlt) as Hstep.
    destruct (scanStep s i) as [[|]|j] eqn:Hs.
    + destruct Hstep as [Hv Hstuck]. split; [|done]. intros _ p Hp.
      inversion Hp; subst; [done|]. by edestruct Hstuck.
    + split; [done|]. intros Hall. by destruct (Hall i).
    + destruct Hstep as [Hv Hnext].
      apply scanStep_progress in Hs as Hij; [|done].
      rewrite (IH (length s - j)); [|lia|done]. split.
      * intros Hall p Hp. inversion Hp as [|? j' ? Hs' Hp']; subst; [done|].
        destruct Hnext as [Hj | [_ Hstuck]]; [|by edestruct Hstuck].
        rewrite (step_det _ _ _ _ Hs' Hj) in Hp'. by apply Hall.
      * intros Hall p Hp. destruct Hnext as [Hj | [Hlen _]].
        -- apply Hall. by eapply rtc_l.
        -- intros [Hm%lookup_lt_Some _]. apply outside_le in Hp. lia.
  - split; [|done]. intros _ p Hp [Hm%lookup_lt_Some _].
    apply outside_le in Hp. lia.
Qed.

(** It answers [false] exactly when such an index exists. *)
Lemma scanFrom_false s i :
  scanFrom s i = false ↔ ∃ p, rtc (Spec.step s) i p ∧ violation s p.
Proof.
  split.
  - remember (length s - i) as n eqn:Hn. revert i Hn.
    induction (lt_wf n) as [n _ IH]. intros i ->.
    rewrite scanFrom_eq. case_bool_decide as Hlt; [|done].
    pose proof (scanStep_spec s i Hlt) as Hstep.
    destruct (scanStep s i) as [[|]|j] eqn:Hs; [done | by exists i |].
    intros Hj. apply scanStep_progress in Hs as Hij; [|done].
    destruct (IH (length s - j) ltac:(lia) j eq_refl Hj) as (p & Hp & Hv).
    destruct Hstep as [_ [Hstep | [Hlen _]]].
    + exists p. split; [by eapply rtc_l | done].
    + destruct Hv as [Hm%lookup_lt_Some _]. apply outside_le in Hp. lia.
  - intros (p & Hp & Hv). apply not_true_iff_false.
    rewrite scanFrom_spec. intros Hall. by apply (Hall p).
Qed.

(** The classifier decides the specification. *)
Lemma isSingleStatement_spec s :
  isSingleStatement s = true ↔ Spec.singleStatement s.
Proof.
  unfold isSingleStatement. rewrite scanFrom_spec.
  unfold Spec.singleStatement, Spec.boundary, Spec.outside, violation.
  split.
  - intros Hall p [Hp Hm] Hc. by apply (Hall p Hp).
  - intros Hall p Hp [Hm Hc]. by apply (Hall p).
Qed.

(** An iteration that carries on inside the text is a move of the
    reader. *)
Lemma scanStep_step s i j :
  scanStep s i = Continue j → i < length s → j ≤ length s →
  Spec.step s i j.
Proof.
  intros Hs Hlt Hle. pose proof (scanStep_spec s i Hlt) as Hspec.
  rewrite Hs in Hspec. destruct Hspec as [_ [Hstep | [Hgt _]]]; [done | lia].
Qed.

Lemma outside_scan s i j p :
  scanStep s i = Continue j → i < length s → j ≤ length s →
  rtc (Spec.step s) j p → rtc (Spec.step s) i p.
Proof. intros Hs Hlt Hle Hp. eapply rtc_l; [by apply scanStep_step | done]. Qed.

(** A text whose reader is stopped at a character other than the boundary
    marker, with no offending marker before, is a single statement. *)
Lemma stopped_single s i :
  Spec.outside s i → (∀ j, ¬ Spec.step s i j) → s !! i ≠ Some (cu ";") →
  (∀ p, p < i → Spec.boundary s p → ¬ Spec.hasContent s (p + 1)) →
  isSingleStatement s = true.
Proof.
  intros Hi Hstuck Hch Hbefore. apply isSingleStatement_spec.
  intros p [Hp Hm]. pose proof (outside_stuck _ _ _ Hi Hstuck Hp) as Hle.
  destruct (decide (p = i)) as [->|]; [done|].
  apply Hbefore; [lia | by split].
Qed.

End Refinement.

(** ** The published snapshot *)

Section Snapshot.
Context {A : Type}.
Implicit Types (f : A → nat → list A → bool) (arr rest : list A).

Lemma filterFrom_elem f arr rest i c :
  c ∈ filterFrom f arr rest i ↔
  ∃ k, rest !! k = Some c ∧ f c (i + k) arr = true.
Proof.
  revert i. induction rest as [|x rest IH]; intros i; simpl.
  - split; [by intros ?%elem_of_nil | by intros (k & ? & _)].
  - destruct (f x i arr) eqn:Hx.
    + rewrite elem_of_cons, IH. split.
      * intros [-> | (k & Hk & Hf)].
        -- exists 0. by rewrite Nat.add_0_r.
        -- exists (S k). by rewrite Nat.add_succ_r.
      * intros ([|k] & Hk & Hf).
        -- left. by injection Hk.
        -- right. exists k. by rewrite Nat.add_succ_r in Hf.
    + rewrite IH. split.
      * intros (k & Hk & Hf). exists (S k). by rewrite Nat.add_succ_r.
      * intros ([|k] & Hk & Hf).
        -- injection Hk as ->. rewrite Nat.add_0_r in Hf. congruence.
        -- exists k. by rewrite Nat.add_succ_r in Hf.
Qed.

Lemma filterFrom_sublist f arr rest i :
  filterFrom f arr rest i `sublist_of` rest.
Proof.
  revert i. induction rest as [|x rest IH]; intros i; simpl; [done|].
  destruct (f x i arr); [by apply sublist_skip | by apply sublist_cons].
Qed.

Lemma arrayFilter_elem f arr c :
  c ∈ arrayFilter f arr ↔ ∃ k, arr !! k = Some c ∧ f c k arr = true.
Proof. unfold arrayFilter. by rewrite filterFrom_elem. Qed.

Lemma arrayFilter_sublist f arr : arrayFilter f arr `sublist_of` arr.
Proof. apply filterFrom_sublist. Qed.

Lemma findIndex_Some (P : A → bool) arr i :
  findIndex P arr = Some i ↔
  ∃ x, arr !! i = Some x ∧ P x = true
       ∧ ∀ j y, arr !! j = Some y → j < i → P y = false.
Proof.
  unfold findIndex. split.
  - destruct (list_find _ arr) as [[i' x]|] eqn:Hf; [|done].
    intros [= <-]. apply list_find_Some in Hf as (Hi & Hx & Hfirst).
    exists x. split_and!; [done | done |].
    intros j y Hj Hlt. apply not_true_is_false. by eapply Hfirst.
  - intros (x & Hi & Hx & Hfirst).
    rewrite (proj2 (list_find_Some _ arr i x)); [done|].
    split_and!; [done | done |]. intros j y Hj Hlt. rewrite (Hfirst j y); done.
Qed.

End Snapshot.

Section Dedupe.
Implicit Types (cs : list DbConnection) (c : DbConnection).

Lemma dedupe_keeps cs i c :
  cs !! i = Some c →
  bool_decide
    (findIndex (λ x, bool_decide (label x = label c)) cs = Some i) = true
  ↔ firstOccurrence cs i c.
Proof.
  intros Hi. rewrite bool_decide_eq_true, findIndex_Some. split.
  - intros (x & _ & _ & Hfirst). split; [done|].
    intros j c' Hj Hlt. by eapply bool_decide_eq_false_1, (Hfirst j).
  - intros [_ Hfirst]. exists c.
    split_and!; [done | by apply bool_decide_eq_true_2 |].
    intros j y Hj Hlt. by eapply bool_decide_eq_false_2, (Hfirst j).
Qed.

Lemma dedupe_elem cs c :
  c ∈ dedupe cs ↔ ∃ i, firstOccurrence cs i c.
Proof.
  unfold dedupe. rewrite arrayFilter_elem. split.
  - intros (k & Hk & Hf). exists k. by apply dedupe_keeps.
  - intros (k & Hk). exists k. pose proof Hk as [Hi _].
    split; [done | by apply dedupe_keeps].
Qed.

Lemma dedupe_NoDup cs : NoDup (label <$> dedupe cs).
Proof.
  unfold dedupe, arrayFilter.
  set (f := λ c i arr, bool_decide (findIndex _ arr = Some i)).
  assert (∀ rest i, rest = drop i cs →
                    NoDup (label <$> filterFrom f cs rest i)) as Hgen.
  { induction rest as [|x rest IH]; intros i Hr; simpl; [constructor|].
    symmetry in Hr. apply drop_cons_inv' in Hr as [Hx Hr].
    destruct (f x i cs) eqn:Hkeep; [|by apply IH].
    rewrite fmap_cons. apply NoDup_cons. split; [|by apply IH].
    intros (c & Hlbl & (k & Hk & Hf)%filterFrom_elem)%list_elem_of_fmap.
    rewrite <-Hr, lookup_drop in Hk.
    apply dedupe_keeps in Hf as [_ Hfirst]; [|done].
    apply (Hfirst i x); [done | lia | done]. }
  apply (Hgen cs 0). by rewrite drop_0.
Qed.

End Dedupe.

Section Publish.
Implicit Types (cs parsed : list DbConnection) (c : DbConnection).

Lemma arrayFilter_plain_elem (g : DbConnection → bool) cs c :
  c ∈ arrayFilter (λ c _ _, g c) cs ↔ c ∈ cs ∧ g c = true.
Proof.
  rewrite arrayFilter_elem, list_elem_of_lookup. split.
  - intros (k & Hk & Hg). eauto.
  - intros [[k Hk] Hg]. eauto.
Qed.

Lemma publish_sublist labelFilter parsed :
  publishConnections labelFilter parsed `sublist_of` parsed.
Proof.
  unfold publishConnections. destruct (truthy labelFilter).
  - etrans; [apply arrayFilter_sublist|].
    etrans; [apply arrayFilter_sublist|]. apply arrayFilter_sublist.
  - etrans; [apply arrayFilter_sublist|]. apply arrayFilter_sublist.
Qed.

Lemma publish_NoDup labelFilter parsed :
  NoDup (label <$> publishConnections labelFilter parsed).
Proof.
  apply (sublist_NoDup _ (label <$> dedupe parsed)); [apply dedupe_NoDup|].
  apply fmap_sublist. unfold publishConnections.
  destruct (truthy labelFilter).
  - etrans; [apply arrayFilter_sublist|]. apply arrayFilter_sublist.
  - apply arrayFilter_sublist.
Qed.

Lemma publish_elem labelFilter parsed c :
  c ∈ publishConnections labelFilter parsed ↔
  (∃ i, firstOccurrence parsed i c) ∧ enabled c = true
  ∧ (truthy labelFilter = true → Some (label c) = labelFilter).
Proof.
  unfold publishConnections. destruct (truthy labelFilter);
    rewrite ?arrayFilter_plain_elem, dedupe_elem, negb_true_iff,
      bool_decide_eq_false, ?bool_decide_eq_true.
  - split.
    + intros [[Hi He] Hl]. split_and!; [done | by destruct (enabled c) | done].
    + intros (Hi & He & Hl). split_and!; [done | congruence | by apply Hl].
  - split.
    + intros [Hi He]. split_and!; [done | by destruct (enabled c) | done].
    + intros (Hi & He & _). split; [done | congruence].
Qed.

End Publish.

(** ** Running the process *)

Section Run.
Context (env : Env).

Lemma bind_ok {A B} (m : M A) (f : A → M B) w a w' :
  m w = (inr a, w') → (m ≫= f) w = f a w'.
Proof. unfold mbind, M_bind. by intros ->. Qed.

Lemma bind_throw {A B} (m : M A) (f : A → M B) w e w' :
  m w = (inl e, w') → (m ≫= f) w = (inl e, w').
Proof. unfold mbind, M_bind. by intros ->. Qed.

Lemma warnDuplicates_ok seen cs w :
  ∃ w', warnDuplicates seen cs w = (inr (), w')
        ∧ pools w' = pools w ∧ configCache w' = configCache w
        ∧ poolsCreated w' = poolsCreated w.
Proof.
  revert seen w. induction cs as [|c cs IH]; intros seen w; simpl.
  - by exists w.
  - unfold mbind, M_bind. case_bool_decide; simpl.
    + destruct (IH ({[label c]} ∪ seen) (log EvConsoleError w))
        as (w' & -> & ? & ? & ?). by exists w'.
    + destruct (IH ({[label c]} ∪ seen) w) as (w' & -> & ? & ? & ?).
      by exists w'.
Qed.

(** A full reload publishes the snapshot made of the parsed descriptors:
    it is returned and it becomes the cached one. *)
Lemma loadConfig_publishes w w0 raw parsed :
  checkCache env w = (inr None, w0) →
  readConfig env (history w0) = inr raw →
  DbConfigSchema raw = Some parsed →
  ∃ w' m t,
    loadConfig env w
    = (inr (publishConnections (LABEL_FILTER env) parsed), w')
    ∧ configCache w'
      = Some {| connections := publishConnections (LABEL_FILTER env) parsed;
                mtime := m; loadedAt := t |}
    ∧ pools w' = pools w0.
Proof.
  intros Hmiss Hread Hparse. unfold loadConfig, tryLoad.
  rewrite (bind_ok _ _ _ _ _ Hmiss).
  unfold readRaw. unfold mbind at 1, M_bind at 1. rewrite Hread, Hparse.
  destruct (warnDuplicates_ok ∅ parsed (log EvReadFile w0))
    as (w1 & Hw1 & Hp1 & Hc1 & Hn1).
  unfold mbind at 1, M_bind at 1. rewrite Hw1.
  unfold mbind, M_bind, tryCatch, stat, now, setCache, mret, M_ret.
  destruct (stat_mtimeMs env (history w1)) as [m|]; simpl;
    eexists _, _, _; (split_and!; [reflexivity | reflexivity | done]).
Qed.

(** [getOrCreatePool] never throws. *)
Lemma getOrCreatePool_ok conn w :
  ∃ p w', getOrCreatePool env conn w = (inr p, w').
Proof.
  unfold getOrCreatePool, installPool.
  destruct (pools w !! label conn) as [ex|]; [case_bool_decide|]; eauto.
Qed.

(** After the call the registry entry of the label holds the returned pool
    and the descriptor's hash. *)
Lemma getOrCreatePool_entry conn w p w' :
  getOrCreatePool env conn w = (inr p, w') →
  pools w' !! label conn = Some {| pool := p; hash := connHash env conn |}.
Proof.
  unfold getOrCreatePool, installPool.
  destruct (pools w !! label conn) as [[p0 h0]|] eqn:Hold.
  - case_bool_decide as Hh; intros [= <- <-]; simpl in *.
    + by rewrite Hold, Hh.
    + by rewrite lookup_insert_eq.
  - intros [= <- <-]. simpl. by rewrite lookup_insert_eq.
Qed.

(** What [pg_query] does once the descriptor is resolved and a client
    is borrowed. *)
Lemma pg_query_acquired database query params limit
    w conn w1 conn' w2 p w3 client w4 :
  isSingleStatement query = true →
  getConnection env database w = (inr conn, w1) →
  getConnection env database w1 = (inr conn', w2) →
  getOrCreatePool env conn' w2 = (inr p, w3) →
  poolConnect env p w3 = (inr client, w4) →
  pg_query env database query params limit w
  = let '(r, w5) := transaction env conn query params client w4 in
    let w6 := log (EvRelease client) w5 in
    match r with
    | inr result => (formatResult env result limit, w6)
    | inl e => (errorResult e, w6)
    end.
Proof.
  intros Hsingle Hconn Hconn' Hpool Hclient. unfold pg_query.
  rewrite Hsingle. change (negb true) with false. cbv iota.
  rewrite (bind_ok _ _ _ _ _ Hconn). unfold withPool.
  unfold mbind at 1, M_bind at 1.
  rewrite (bind_ok _ _ _ _ _ Hconn'), (bind_ok _ _ _ _ _ Hpool),
    (bind_ok _ _ _ _ _ Hclient).
  unfold tryFinally, release, emit.
  destruct (transaction env conn query params client w4) as [[e|r] w5]; done.
Qed.

End Run.

(** ** What a computation leaves alone *)

Section Footprint.
Context (env : Env).
Implicit Types (allowed : Event → bool) (w : World).

Lemma extends_refl allowed w : extends allowed w w.
Proof.
  split_and!; [done | done |]. exists []. by rewrite app_nil_r.
Qed.

Lemma extends_trans allowed w1 w2 w3 :
  extends allowed w1 w2 → extends allowed w2 w3 → extends allowed w1 w3.
Proof.
  intros (Hp & Hn & evs & Hh & Hall) (Hp' & Hn' & evs' & Hh' & Hall').
  split_and!; [congruence | congruence |].
  exists (evs ++ evs'). split; [by rewrite Hh', Hh, app_assoc|].
  by apply Forall_app.
Qed.

Lemma extends_log allowed ev w :
  allowed ev = true → extends allowed w (log ev w).
Proof.
  intros Hev. split_and!; [done | done |]. exists [ev]. split; [done|].
  by constructor.
Qed.

Lemma extends_weaken allowed allowed' w w' :
  (∀ ev, allowed ev = true → allowed' ev = true) →
  extends allowed w w' → extends allowed' w w'.
Proof.
  intros Hsub (Hp & Hn & evs & Hh & Hall). split_and!; [done | done |].
  exists evs. split; [done|]. eapply Forall_impl; [exact Hall | exact Hsub].
Qed.

Lemma passive_weaken {A} allowed allowed' (m : M A) :
  (∀ ev, allowed ev = true → allowed' ev = true) →
  passive allowed m → passive allowed' m.
Proof. intros Hsub Hm w r w' Hrun. eapply extends_weaken; eauto. Qed.

Lemma passive_ret {A} allowed (a : A) : passive allowed (mret a).
Proof. intros w r w' [= <- <-]. apply extends_refl. Qed.

Lemma passive_throw {A} allowed e : passive allowed (@throw A e).
Proof. intros w r w' [= <- <-]. apply extends_refl. Qed.

Lemma passive_bind {A B} allowed (m : M A) (f : A → M B) :
  passive allowed m → (∀ a, passive allowed (f a)) →
  passive allowed (m ≫= f).
Proof.
  intros Hm Hf w r w'. unfold mbind, M_bind.
  destruct (m w) as [[e|a] w1] eqn:Hmw.
  - intros [= <- <-]. by eapply Hm.
  - intros Hfa. eapply extends_trans; [by eapply Hm | by eapply Hf].
Qed.

Lemma passive_tryCatch {A} allowed (m : M A) (h : Thrown → M A) :
  passive allowed m → (∀ e, passive allowed (h e)) →
  passive allowed (tryCatch m h).
Proof.
  intros Hm Hh w r w'. unfold tryCatch.
  destruct (m w) as [[e|a] w1] eqn:Hmw.
  - intros Hhe. eapply extends_trans; [by eapply Hm | by eapply Hh].
  - intros [= <- <-]. by eapply Hm.
Qed.

Lemma passive_swallow {A} allowed (m : M A) :
  passive allowed m → passive allowed (swallow m).
Proof.
  intros Hm w r w'. unfold swallow. intros [= <- <-].
  destruct (m w) as [r1 w1] eqn:Hmw. by eapply Hm.
Qed.

Lemma passive_emit allowed ev :
  allowed ev = true → passive allowed (emit ev).
Proof. intros Hev w r w' [= <- <-]. by apply extends_log. Qed.

Lemma passive_getCache allowed : passive allowed getCache.
Proof. intros w r w' [= <- <-]. apply extends_refl. Qed.

Lemma passive_setCache allowed cc : passive allowed (setCache cc).
Proof.
  intros w r w' [= <- <-]. split_and!; [done | done |].
  exists []. by rewrite app_nil_r.
Qed.

Lemma passive_now : passive configEvent (now env).
Proof. intros w r w' [= <- <-]. by apply extends_log. Qed.

Lemma passive_stat : passive configEvent (stat env).
Proof. intros w r w' [= <- <-]. by apply extends_log. Qed.

Lemma passive_readRaw : passive configEvent (readRaw env).
Proof. intros w r w' [= <- <-]. by apply extends_log. Qed.

Lemma passive_warnDuplicates seen cs :
  passive configEvent (warnDuplicates seen cs).
Proof.
  revert seen. induction cs as [|c cs IH]; intros seen; simpl.
  - apply passive_ret.
  - apply passive_bind; [|intros _; apply IH].
    case_bool_decide; [by apply passive_emit | apply passive_ret].
Qed.

Lemma passive_checkCache : passive configEvent (checkCache env).
Proof.
  unfold checkCache. apply passive_bind; [apply passive_getCache|].
  intros [cc|]; [|apply passive_ret].
  apply passive_bind; [apply passive_now|]. intros t.
  case_bool_decide; [apply passive_ret|].
  apply passive_tryCatch; [|intros _; apply passive_ret].
  apply passive_bind; [apply passive_stat|]. intros m.
  case_bool_decide; [|apply passive_ret].
  apply passive_bind; [apply passive_now|]. intros t'.
  apply passive_bind; [apply passive_setCache|]. intros _. apply passive_ret.
Qed.

Lemma passive_tryLoad : passive configEvent (tryLoad env).
Proof.
  unfold tryLoad. apply passive_bind; [apply passive_checkCache|].
  intros [cached|]; [apply passive_ret|].
  apply passive_bind; [apply passive_readRaw|]. intros raw.
  destruct (DbConfigSchema raw) as [parsed|]; [|apply passive_ret].
  apply passive_bind; [apply passive_warnDuplicates|]. intros _.
  apply passive_bind.
  { apply passive_tryCatch; [apply passive_stat | intros _; apply passive_ret]. }
  intros m. apply passive_bind; [apply passive_now|]. intros t.
  apply passive_bind; [apply passive_setCache|]. intros _. apply passive_ret.
Qed.

Lemma passive_reportIssues issues :
  passive configEvent (reportIssues issues).
Proof.
  induction issues as [|n IH]; simpl; [apply passive_ret|].
  apply passive_bind; [by apply passive_emit | intros _; exact IH].
Qed.

Lemma passive_reportFailure issues :
  passive configEvent (reportFailure env issues).
Proof.
  unfold reportFailure. apply passive_bind.
  { intros w r w' [= <- <-]. by apply extends_log. }
  intros present. apply passive_bind; [|intros _; apply passive_ret].
  destruct present; simpl.
  - destruct issues as [n|]; [|by apply passive_emit].
    apply passive_bind; [by apply passive_emit|]. intros _.
    apply passive_reportIssues.
  - apply passive_bind; [by apply passive_emit|]. intros _.
    by apply passive_emit.
Qed.

Lemma passive_loadConfig : passive configEvent (loadConfig env).
Proof.
  intros w r w'. unfold loadConfig.
  destruct (tryLoad env w) as [[e|[cs|n]] w1] eqn:Hrun;
    pose proof (passive_tryLoad _ _ _ Hrun) as Hext.
  - intros Hfail. eapply extends_trans; [exact Hext|].
    by eapply passive_reportFailure.
  - by intros [= <- <-].
  - intros Hfail. eapply extends_trans; [exact Hext|].
    by eapply passive_reportFailure.
Qed.

Lemma passive_getConnection lbl : passive configEvent (getConnection env lbl).
Proof.
  unfold getConnection. apply passive_bind; [apply passive_loadConfig|].
  intros cs. destruct (List.find _ cs); [apply passive_ret | apply passive_throw].
Qed.

Lemma passive_clientQuery client sql params :
  passive (queryOn client) (clientQuery env client sql params).
Proof.
  intros w r w' [= <- <-]. apply extends_log. simpl.
  by apply bool_decide_eq_true_2.
Qed.

Lemma passive_transaction conn query params client :
  passive (queryOn client) (transaction env conn query params client).
Proof.
  unfold transaction. apply passive_bind; [apply passive_clientQuery|].
  intros _. apply passive_tryCatch.
  - apply passive_bind; [apply passive_clientQuery|]. intros res.
    apply passive_bind; [apply passive_clientQuery|]. intros _.
    apply passive_ret.
  - intros e. apply passive_bind; [|intros _; apply passive_throw].
    apply passive_swallow, passive_clientQuery.
Qed.

(** [loadConfig] never throws. *)
Lemma reportIssues_ok issues w :
  ∃ w', reportIssues issues w = (inr (), w').
Proof.
  revert w. induction issues as [|n IH]; intros w; simpl; [by eexists|].
  unfold mbind, M_bind, emit. apply IH.
Qed.

Lemma reportFailure_ok issues w :
  ∃ w', reportFailure env issues w = (inr [], w').
Proof.
  unfold reportFailure, mbind, M_bind, fileExists, emit, mret, M_ret.
  destruct (existsSync env (history w)); simpl; [|by eexists].
  destruct issues as [n|]; [|by eexists].
  destruct (reportIssues_ok n (log EvConsoleError (log EvExists w)))
    as [w' ->].
  by eexists.
Qed.

Lemma loadConfig_ok w : ∃ cs w', loadConfig env w = (inr cs, w').
Proof.
  unfold loadConfig.
  destruct (tryLoad env w) as [[e|[cs|n]] w1].
  - destruct (reportFailure_ok None w1) as [w' ->]. eauto.
  - eauto.
  - destruct (reportFailure_ok (Some n) w1) as [w' ->]. eauto.
Qed.

End Footprint.

(** ** The registry invariant *)

Section Registry.
Context (env : Env).

Lemma sound_initial cache n :
  sound {| pools := ∅; configCache := cache; poolsCreated := n;
           history := [] |}.
Proof.
  split; simpl; intros *; rewrite ?lookup_empty, ?lookup_nil; try done.
  by intros ?%elem_of_nil.
Qed.

Lemma sound_extends allowed w w' :
  (∀ ev, allowed ev = true → registryEvent ev = false) →
  extends allowed w w' → sound w → sound w'.
Proof.
  intros Hallowed (Hp & Hn & evs & Hh & Hall) [Hfresh Hapart Hlive Hended Honce Huse].
  assert (∀ k ev, evs !! k = Some ev → registryEvent ev = false) as Hevs.
  { intros k ev Hk. apply Hallowed.
    by eapply (proj1 (Forall_lookup _ _) Hall). }
  assert (∀ i p, history w' !! i = Some (EvPoolEnd p) →
                 history w !! i = Some (EvPoolEnd p)) as Hend.
  { intros i p. rewrite Hh, lookup_app_Some. intros [?|[_ Hk]]; [done|].
    by apply Hevs in Hk. }
  assert (∀ i p, history w' !! i = Some (EvConnect p) →
                 history w !! i = Some (EvConnect p)) as Hcon.
  { intros i p. rewrite Hh, lookup_app_Some. intros [?|[_ Hk]]; [done|].
    by apply Hevs in Hk. }
  split; rewrite ?Hp, ?Hn.
  - exact Hfresh.
  - exact Hapart.
  - intros l e Hl [i Hi%Hend]%list_elem_of_lookup.
    eapply Hlive; [done|]. by eapply list_elem_of_lookup_2.
  - intros p [i Hi%Hend]%list_elem_of_lookup.
    apply Hended. by eapply list_elem_of_lookup_2.
  - intros i j p Hi%Hend Hj%Hend. by eapply Honce.
  - intros i j p Hi%Hend Hj%Hcon. by eapply Huse.
Qed.

(** Installing a pool for a label whose old pool, if any, is ended. *)
Lemma sound_install conn h w :
  sound w →
  sound (installPool conn h
           (match pools w !! label conn with
            | Some old => log (EvPoolEnd (pool old)) w
            | None => w
            end)).2.
Proof.
  intros [Hfresh Hapart Hlive Hended Honce Huse].
  set (ended := match pools w !! label conn with
                | Some old => [EvPoolEnd (pool old)]
                | None => []
                end).
  set (p := poolsCreated w).
  assert (∃ w0, (match pools w !! label conn with
                 | Some old => log (EvPoolEnd (pool old)) w
                 | None => w
                 end) = w0
                ∧ pools w0 = pools w ∧ poolsCreated w0 = p
                ∧ history w0 = history w ++ ended) as (w0 & -> & Hp0 & Hn0 & Hh0).
  { unfold ended. destruct (pools w !! label conn); eexists; split_and!;
      try reflexivity. simpl. by rewrite app_nil_r. }
  assert (∀ q, EvPoolEnd q ∈ ended →
               ∃ old, pools w !! label conn = Some old ∧ pool old = q) as Hold.
  { unfold ended. destruct (pools w !! label conn) as [old|].
    - intros q [= ->]%list_elem_of_singleton. eauto.
    - by intros q ?%elem_of_nil. }
  assert (∀ i q, (history w ++ ended ++ [EvPoolNew p (poolConfig conn)]) !! i
                 = Some (EvPoolEnd q) →
                 history w !! i = Some (EvPoolEnd q)
                 ∨ (i = length (history w) ∧ EvPoolEnd q ∈ ended)) as Hend.
  { intros i q. rewrite lookup_app_Some. intros [?|[Hle Hk]]; [by left|].
    right. revert Hk. unfold ended.
    destruct (pools w !! label conn) as [old|]; simpl.
    - destruct (i - length (history w)) as [|[|k]] eqn:Hk; [|done..].
      intros [= ->]. split; [lia | by apply list_elem_of_singleton].
    - by destruct (i - length (history w)) as [|k]. }
  assert (∀ i q, (history w ++ ended ++ [EvPoolNew p (poolConfig conn)]) !! i
                 = Some (EvConnect q) →
                 history w !! i = Some (EvConnect q)) as Hcon.
  { intros i q. rewrite lookup_app_Some. intros [?|[Hle Hk]]; [done|].
    revert Hk. unfold ended.
    destruct (pools w !! label conn) as [old|]; simpl.
    - by destruct (i - length (history w)) as [|[|k]].
    - by destruct (i - length (history w)) as [|k]. }
  unfold installPool. rewrite Hp0, Hn0, Hh0, <-app_assoc. simpl.
  split; simpl.
  - intros l e. destruct (decide (l = label conn)) as [->|Hne].
    + rewrite lookup_insert_eq. intros [= <-]. simpl. lia.
    + rewrite lookup_insert_ne by done. intros ?%Hfresh. unfold p. lia.
  - intros l1 l2 e1 e2.
    destruct (decide (l1 = label conn)) as [->|Hne1],
             (decide (l2 = label conn)) as [->|Hne2]; [done | | |].
    + rewrite lookup_insert_eq, lookup_insert_ne by done.
      intros [= <-] ?%Hfresh. simpl. unfold p. lia.
    + rewrite lookup_insert_eq, lookup_insert_ne by done.
      intros ?%Hfresh [= <-]. simpl. unfold p. lia.
    + rewrite !lookup_insert_ne by done. apply Hapart.
  - intros l e Hl [i Hi]%list_elem_of_lookup.
    apply Hend in Hi as [Hi|[_ (old & Hold' & Hq)%Hold]].
    + apply list_elem_of_lookup_2 in Hi.
      destruct (decide (l = label conn)) as [->|Hne].
      * rewrite lookup_insert_eq in Hl. injection Hl as <-. simpl in Hi.
        apply Hended in Hi. unfold p in Hi. lia.
      * rewrite lookup_insert_ne in Hl by done. by eapply Hlive.
    + destruct (decide (l = label conn)) as [->|Hne].
      * rewrite lookup_insert_eq in Hl. injection Hl as <-. simpl in Hq.
        apply Hfresh in Hold'. unfold p in Hq. lia.
      * rewrite lookup_insert_ne in Hl by done.
        apply Hne. by eapply (Hapart l (label conn)).
  - intros q [i Hi]%list_elem_of_lookup.
    apply Hend in Hi as [Hi|[_ (old & Hold' & <-)%Hold]].
    + apply list_elem_of_lookup_2, Hended in Hi. unfold p. lia.
    + apply Hfresh in Hold'. unfold p. lia.
  - intros i j q [Hi|[-> Hi]]%Hend [Hj|[-> Hj]]%Hend.
    + by eapply Honce.
    + apply Hold in Hj as (old & Hold' & <-).
      apply list_elem_of_lookup_2 in Hi. by apply Hlive in Hold'.
    + apply Hold in Hi as (old & Hold' & <-).
      apply list_elem_of_lookup_2 in Hj. by apply Hlive in Hold'.
    + done.
  - intros i j q [Hi|[-> Hi]]%Hend Hj%Hcon.
    + by eapply Huse.
    + by apply lookup_lt_Some in Hj.
Qed.

Lemma sound_getOrCreatePool conn w p w' :
  getOrCreatePool env conn w = (inr p, w') → sound w → sound w'.
Proof.
  intros Hrun Hw. pose proof (sound_install conn (connHash env conn) w Hw) as Hi.
  revert Hrun Hi. unfold getOrCreatePool.
  destruct (pools w !! label conn) as [old|].
  - case_bool_decide; [intros [= ? ?] _; subst; assumption|]. by intros ->.
  - by intros ->.
Qed.

Lemma sound_poolConnect p w r w' l e :
  poolConnect env p w = (r, w') →
  pools w !! l = Some e → pool e = p → sound w → sound w'.
Proof.
  intros [= _ <-] Hl <- [Hfresh Hapart Hlive Hended Honce Huse].
  assert (∀ i q, (history w ++ [EvConnect (pool e)]) !! i
                 = Some (EvPoolEnd q) →
                 history w !! i = Some (EvPoolEnd q)) as Hend.
  { intros i q. rewrite lookup_app_Some. intros [?|[_ Hk]]; [done|].
    by destruct (i - length (history w)) as [|k]. }
  split; simpl.
  - exact Hfresh.
  - exact Hapart.
  - intros l' e' Hl' [i Hi%Hend]%list_elem_of_lookup.
    eapply Hlive; [done|]. by eapply list_elem_of_lookup_2.
  - intros q [i Hi%Hend]%list_elem_of_lookup.
    apply Hended. by eapply list_elem_of_lookup_2.
  - intros i j q Hi%Hend Hj%Hend. by eapply Honce.
  - intros i j q Hi%Hend. rewrite lookup_app_Some. intros [Hj|[_ Hj]].
    + by eapply Huse.
    + destruct (j - length (history w)) as [|k]; [|done].
      injection Hj as <-. apply list_elem_of_lookup_2 in Hi.
      by apply Hlive in Hl.
Qed.

Lemma configEvent_harmless ev :
  configEvent ev = true → registryEvent ev = false.
Proof. by destruct ev. Qed.

Lemma queryOn_harmless client ev :
  queryOn client ev = true → registryEvent ev = false.
Proof. by destruct ev. Qed.

(** Whatever the callback does on the borrowed client, [withPool] keeps
    the registry and the history in agreement. *)
Lemma sound_withPool {T} lbl (fn : Pool → M T) w r w' :
  (∀ client, passive (queryOn client) (fn client)) →
  withPool env lbl fn w = (r, w') → sound w → sound w'.
Proof.
  intros Hfn. unfold withPool, mbind, M_bind.
  destruct (getConnection env lbl w) as [[e|conn] w1] eqn:Hconn.
  { intros [= _ <-] Hw.
    exact (sound_extends _ _ _ configEvent_harmless
             (passive_getConnection env lbl _ _ _ Hconn) Hw). }
  destruct (getOrCreatePool env conn w1) as [[e|p] w2] eqn:Hpool.
  { destruct (getOrCreatePool_ok env conn w1) as (? & ? & Hok).
    rewrite Hok in Hpool. discriminate. }
  destruct (poolConnect env p w2) as [[e|client] w3] eqn:Hclient.
  - intros [= _ <-] Hw.
    pose proof (getOrCreatePool_entry env _ _ _ _ Hpool) as Hentry.
    apply (sound_poolConnect _ _ _ _ _ _ Hclient Hentry eq_refl).
    apply (sound_getOrCreatePool _ _ _ _ Hpool).
    exact (sound_extends _ _ _ configEvent_harmless
             (passive_getConnection env lbl _ _ _ Hconn) Hw).
  - unfold tryFinally, release, emit.
    destruct (fn client w3) as [r5 w5] eqn:Hrun. intros [= _ <-] Hw.
    eapply (sound_extends (releaseOf client));
      [by intros []
      | apply extends_log; by apply bool_decide_eq_true_2 |].
    apply (sound_extends _ _ _ (queryOn_harmless client)
             (Hfn client _ _ _ Hrun)).
    pose proof (getOrCreatePool_entry env _ _ _ _ Hpool) as Hentry.
    apply (sound_poolConnect _ _ _ _ _ _ Hclient Hentry eq_refl).
    apply (sound_getOrCreatePool _ _ _ _ Hpool).
    exact (sound_extends _ _ _ configEvent_harmless
             (passive_getConnection env lbl _ _ _ Hconn) Hw).
Qed.

End Registry.

(** ** Schema and cache *)

Section Config.
Context (env : Env).

Lemma checkCache_miss w w0 :
  checkCache env w = (inr None, w0) →
  configCache w0 = configCache w ∧ pools w0 = pools w.
Proof.
  unfold checkCache, mbind, M_bind, getCache, now, tryCatch, stat, setCache,
    mret, M_ret.
  destruct (configCache w) as [cc|] eqn:Hcc; [|by intros [= <-]].
  case_bool_decide; [done|]. simpl.
  destruct (stat_mtimeMs env _) as [m|]; simpl; [|by intros [= <-]].
  case_bool_decide; [done|]. by intros [= <-].
Qed.

Lemma reportIssues_run issues w :
  ∃ w', reportIssues issues w = (inr (), w')
        ∧ pools w' = pools w ∧ configCache w' = configCache w
        ∧ history w' = history w ++ replicate issues EvConsoleError.
Proof.
  revert w. induction issues as [|n IH]; intros w; simpl.
  - exists w. by rewrite app_nil_r.
  - unfold mbind, M_bind, emit.
    destruct (IH (log EvConsoleError w)) as (w' & -> & Hp & Hc & Hh).
    exists w'. split_and!; [done | done | done |].
    rewrite Hh. simpl. by rewrite <-app_assoc.
Qed.

(** The [catch] block writes two diagnostics when the file does not exist,
    else a heading and one diagnostic for each issue of a [ZodError], else
    one diagnostic. *)
Lemma reportFailure_run issues w :
  ∃ w', reportFailure env issues w = (inr [], w')
        ∧ pools w' = pools w ∧ configCache w' = configCache w
        ∧ history w'
          = history w
            ++ EvExists
               :: replicate
                    (if existsSync env (history w)
                     then match issues with Some n => S n | None => 1 end
                     else 2) EvConsoleError.
Proof.
  unfold reportFailure, mbind, M_bind, fileExists, emit, mret, M_ret.
  destruct (existsSync env (history w)); simpl.
  - destruct issues as [n|].
    + destruct (reportIssues_run n (log EvConsoleError (log EvExists w)))
        as (w' & -> & Hp & Hc & Hh).
      exists w'. split_and!; [done | done | done |].
      rewrite Hh. simpl. by rewrite <-!app_assoc.
    + eexists. split_and!; [done | done | done |].
      simpl. by rewrite <-!app_assoc.
  - eexists. split_and!; [done | done | done |].
    simpl. by rewrite <-!app_assoc.
Qed.

(** A reload that cannot read the file, or reads one that the schema
    rejects, returns the empty list and writes the diagnostics of the
    [catch] block. *)
Lemma loadConfig_fails w w0 :
  checkCache env w = (inr None, w0) →
  (∀ raw, readConfig env (history w0) = inr raw → DbConfigSchema raw = None) →
  ∃ w',
    loadConfig env w = (inr [], w')
    ∧ pools w' = pools w0 ∧ configCache w' = configCache w0
    ∧ history w'
      = history w0
        ++ [EvReadFile; EvExists]
        ++ replicate
             (if existsSync env (history w0 ++ [EvReadFile])
              then match readConfig env (history w0) with
                   | inr raw => S (ZodError_issues env raw)
                   | inl _ => 1
                   end
              else 2) EvConsoleError.
Proof.
  intros Hmiss Hbad. unfold loadConfig, tryLoad.
  rewrite (bind_ok _ _ _ _ _ Hmiss).
  unfold readRaw. unfold mbind at 1, M_bind at 1.
  destruct (readConfig env (history w0)) as [e|raw] eqn:Hread.
  - destruct (reportFailure_run None (log EvReadFile w0))
      as (w' & -> & Hp & Hc & Hh).
    exists w'. split_and!; [done | done | done |].
    rewrite Hh. simpl. by rewrite <-!app_assoc.
  - rewrite (Hbad raw) by done. unfold mret, M_ret.
    destruct (reportFailure_run (Some (ZodError_issues env raw))
                (log EvReadFile w0)) as (w' & -> & Hp & Hc & Hh).
    exists w'. split_and!; [done | done | done |].
    rewrite Hh. simpl. by rewrite <-!app_assoc.
Qed.

End Config.

Section Schema.
Context (env : Env).

Lemma DbConnectionSchema_acceptable r :
  is_Some (DbConnectionSchema r) ↔ acceptable r.
Proof.
  unfold DbConnectionSchema, acceptable.
  destruct (raw_label r) as [lbl|]; simpl.
  - match goal with |- context [if ?b then _ else _] =>
      destruct b eqn:Hcheck end.
    + apply andb_prop in Hcheck as [[[Hl Hp]%andb_prop Hs]%andb_prop Hu].
      apply bool_decide_eq_true in Hl, Hp, Hs. split; [intros _|by eexists].
      split; [by eexists|]. split; [done|]. split; [done|].
      apply orb_prop in Hu as [Hu|[[Hh Hus]%andb_prop Hd]%andb_prop];
        [by left | by right].
    + split; [by intros [? [=]]|].
      intros ([? [[= <-] Hl]] & Hp & Hs & Hu). exfalso.
      apply not_true_iff_false in Hcheck. apply Hcheck.
      rewrite !bool_decide_eq_true_2 by done. simpl.
      destruct Hu as [->|(-> & -> & ->)]; [done|]. apply orb_true_r.
  - split; [by intros [? [=]] | by intros ([? [[=] _]] & _)].
Qed.

Lemma checkCache_stale w cc :
  configCache w = Some cc →
  ¬ (Date_now env (history w) - loadedAt cc < CONFIG_CACHE_TTL)%Z →
  stat_mtimeMs env (history w ++ [EvNow]) ≠ Some (mtime cc) →
  checkCache env w = (inr None, log EvStat (log EvNow w)).
Proof.
  intros Hcc Hold Hstat.
  unfold checkCache, mbind, M_bind, getCache, now, tryCatch, stat, setCache,
    mret, M_ret.
  rewrite Hcc, bool_decide_eq_false_2 by done. simpl.
  destruct (stat_mtimeMs env (history w ++ [EvNow])) as [m|]; [|done].
  rewrite bool_decide_eq_false_2; [done | congruence].
Qed.

End Schema.

(** ** Looking a label up *)

Section Lookup.
Implicit Types (cs : list DbConnection) (c : DbConnection).

Lemma find_label_None cs lbl :
  (∀ c, c ∈ cs → label c ≠ lbl) →
  List.find (λ c, bool_decide (label c = lbl)) cs = None.
Proof.
  induction cs as [|x cs IH]; intros Hnone; simpl; [done|].
  rewrite bool_decide_eq_false_2 by (apply Hnone; left).
  apply IH. intros c Hc. apply Hnone. by right.
Qed.

Lemma find_label_Some cs lbl c :
  NoDup (label <$> cs) → c ∈ cs → label c = lbl →
  List.find (λ c, bool_decide (label c = lbl)) cs = Some c.
Proof.
  induction cs as [|x cs IH]; intros Hnd Hc Hl; [by apply elem_of_nil in Hc|].
  rewrite fmap_cons in Hnd. apply NoDup_cons in Hnd as [Hx Hnd]. simpl.
  apply elem_of_cons in Hc as [->|Hc].
  - by rewrite bool_decide_eq_true_2.
  - rewrite bool_decide_eq_false_2; [by apply IH|].
    intros Hxl. apply Hx. apply list_elem_of_fmap. exists c.
    split; [congruence | done].
Qed.

Lemma firstOccurrence_unique cs i j c c' :
  firstOccurrence cs i c → firstOccurrence cs j c' → label c = label c' →
  c = c'.
Proof.
  intros [Hi Hfi] [Hj Hfj] Hl.
  destruct (Nat.lt_trichotomy i j) as [Hlt|[->|Hlt]].
  - by destruct (Hfj i c Hi Hlt).
  - congruence.
  - by destruct (Hfi j c' Hj Hlt).
Qed.

Lemma firstOccurrence_exists cs c :
  c ∈ cs → ∃ i c', firstOccurrence cs i c' ∧ label c' = label c.
Proof.
  intros Hc.
  destruct (findIndex (λ x, bool_decide (label x = label c)) cs) as [i|] eqn:Hf.
  - apply findIndex_Some in Hf as (x & Hi & Hx%bool_decide_eq_true & Hfirst).
    exists i, x. split; [|done]. split; [done|].
    intros j c' Hj Hlt. rewrite Hx.
    by eapply bool_decide_eq_false_1, Hfirst.
  - unfold findIndex in Hf. destruct (list_find _ cs) as [[i x]|] eqn:Hf';
      [done|]. apply list_find_None in Hf'.
    rewrite Forall_forall in Hf'. destruct (Hf' c Hc).
    by apply bool_decide_eq_true_2.
Qed.

End Lookup.

Lemma getConnection_missing (env : Env) lbl w cs w1 :
  loadConfig env w = (inr cs, w1) →
  (∀ c, c ∈ cs → label c ≠ lbl) →
  getConnection env lbl w = (inl (notFound lbl cs), w1).
Proof.
  intros Hload Hnone. unfold getConnection.
  rewrite (bind_ok _ _ _ _ _ Hload). cbv beta.
  by rewrite find_label_None.
Qed.

(** ** Borrowing a client *)

Section Borrowing.
Context (env : Env).

Lemma getOrCreatePool_trace conn w p w' :
  getOrCreatePool env conn w = (inr p, w') →
  ∃ evs, history w' = history w ++ evs
         ∧ Forall (λ ev, setupEvent ev = true) evs.
Proof.
  unfold getOrCreatePool, installPool.
  destruct (pools w !! label conn) as [old|]; [case_bool_decide|];
    intros [= _ <-]; simpl.
  - exists []. by rewrite app_nil_r.
  - eexists [_; _]. rewrite <-app_assoc. split; [done|]. by repeat constructor.
  - eexists [_]. split; [done|]. by repeat constructor.
Qed.

Lemma configEvent_setup ev : configEvent ev = true → setupEvent ev = true.
Proof. by destruct ev. Qed.

(** One [withPool]: what precedes the borrowing borrows nothing; then the
    descriptor is not found, or the borrowing is refused, or the callback
    runs on the borrowed client, which is released after it. *)
Lemma withPool_run {T} lbl (fn : Pool → M T) w r w' :
  withPool env lbl fn w = (r, w') →
  ∃ setup,
    Forall (λ ev, setupEvent ev = true) setup
    ∧ ((history w' = history w ++ setup ∧ ∃ e, r = inl e)
       ∨ (∃ p e, history w' = history w ++ setup ++ [EvConnect p]
                 ∧ pool_connect env (history w ++ setup) p = Some e
                 ∧ r = inl e)
       ∨ (∃ p w3 w4,
            pool_connect env (history w ++ setup) p = None
            ∧ history w3 = history w ++ setup ++ [EvConnect p]
            ∧ fn p w3 = (r, w4)
            ∧ history w' = history w4 ++ [EvRelease p])).
Proof.
  unfold withPool, mbind, M_bind.
  destruct (getConnection env lbl w) as [[e|conn] w1] eqn:Hconn;
    destruct (passive_getConnection env _ _ _ _ Hconn)
      as (_ & _ & evs1 & Hh1 & Hall1);
    pose proof (Forall_impl _ _ _ Hall1 configEvent_setup) as Hsetup1.
  { intros [= <- <-]. exists evs1. split; [done|]. left. eauto. }
  destruct (getOrCreatePool env conn w1) as [[e|p] w2] eqn:Hpool.
  { destruct (getOrCreatePool_ok env conn w1) as (? & ? & Hok).
    rewrite Hok in Hpool. discriminate. }
  destruct (getOrCreatePool_trace _ _ _ _ Hpool) as (evs2 & Hh2 & Hall2).
  assert (history w2 = history w ++ evs1 ++ evs2) as Hh
    by (by rewrite Hh2, Hh1, app_assoc).
  unfold poolConnect.
  destruct (pool_connect env (history w2) p) as [e|] eqn:Hclient.
  - intros [= <- <-]. exists (evs1 ++ evs2). split; [by apply Forall_app|].
    right; left. exists p, e. rewrite <-Hh. simpl.
    split_and!; [by rewrite Hh, <-!app_assoc | done | done].
  - unfold tryFinally, release, emit.
    destruct (fn p (log (EvConnect p) w2)) as [r5 w5] eqn:Hrun.
    intros [= <- <-]. exists (evs1 ++ evs2). split; [by apply Forall_app|].
    right; right. exists p, (log (EvConnect p) w2), w5.
    rewrite <-Hh. simpl.
    split_and!; [done | by rewrite Hh, <-!app_assoc | done | done].
Qed.

(** The history of one [withPool] whose callback keeps to [allowed]
    interactions: what precedes the borrowing, then nothing, or a refused
    borrowing, or a borrowing followed by what the callback sends and by the
    release of the client. *)
Lemma withPool_trace {T} (allowed : Pool → Event → bool) lbl
    (fn : Pool → M T) w r w' :
  (∀ client, passive (allowed client) (fn client)) →
  withPool env lbl fn w = (r, w') →
  ∃ setup rest,
    history w' = history w ++ setup ++ rest
    ∧ Forall (λ ev, setupEvent ev = true) setup
    ∧ ((rest = [] ∧ ∃ e, r = inl e)
       ∨ (∃ p e, rest = [EvConnect p]
                 ∧ pool_connect env (history w ++ setup) p = Some e
                 ∧ r = inl e)
       ∨ (∃ p qs, rest = EvConnect p :: qs ++ [EvRelease p]
                  ∧ pool_connect env (history w ++ setup) p = None
                  ∧ Forall (λ ev, allowed p ev = true) qs)).
Proof.
  intros Hfn Hrun.
  destruct (withPool_run _ _ _ _ _ Hrun)
    as (setup & Hsetup
        & [[Hh He] | [(p & e & Hh & Hp & ->)
                     | (p & w3 & w4 & Hp & Hh3 & Hfnrun & Hh)]]).
  - exists setup, []. rewrite app_nil_r. split_and!; [done | done |]. by left.
  - exists setup, [EvConnect p]. split_and!; [done | done |].
    right; left. by exists p, e.
  - destruct (Hfn p _ _ _ Hfnrun) as (_ & _ & qs & Hh4 & Hqs).
    exists setup, (EvConnect p :: qs ++ [EvRelease p]).
    split_and!; [| done |].
    + rewrite Hh, Hh4, Hh3. by rewrite <-!app_assoc.
    + right; right. by exists p, qs.
Qed.

Lemma passive_explainTransaction query params client :
  passive (explainEvent query client)
    (explainTransaction env (explainStatement query) params client).
Proof.
  assert (∀ sql ps,
            explainEvent query client (EvQuery client sql ps) = true →
            passive (explainEvent query client)
              (clientQuery env client sql ps)) as Hsend.
  { intros sql ps Hok w r w' [= <- <-]. by apply extends_log. }
  unfold explainTransaction. apply passive_bind.
  { apply Hsend. unfold explainEvent.
    apply andb_true_intro. split; [by apply bool_decide_eq_true_2|].
    apply orb_true_intro. left. apply orb_true_intro. left.
    by apply bool_decide_eq_true_2. }
  intros _ w r w'. unfold tryFinally, swallow.
  destruct (clientQuery env client (explainStatement query) params w)
    as [r1 w1] eqn:Hstmt.
  destruct (clientQuery env client (js "ROLLBACK") None w1) as [r2 w2] eqn:Hrb.
  simpl. intros [= <- <-].
  assert (∀ sql, (sql = explainStatement query ∨ sql = js "ROLLBACK") →
                 ∀ ps, explainEvent query client (EvQuery client sql ps)
                       = true) as Hok.
  { intros sql Hsql ps. unfold explainEvent.
    apply andb_true_intro. split; [by apply bool_decide_eq_true_2|].
    destruct Hsql as [->| ->].
    - apply orb_true_intro. left. apply orb_true_intro. right.
      by apply bool_decide_eq_true_2.
    - apply orb_true_intro. right. by apply bool_decide_eq_true_2. }
  eapply extends_trans.
  - exact (Hsend _ _ (Hok _ (or_introl eq_refl) _) _ _ _ Hstmt).
  - exact (Hsend _ _ (Hok _ (or_intror eq_refl) _) _ _ _ Hrb).
Qed.

Lemma explainEvent_queryOn query client ev :
  explainEvent query client ev = true → queryOn client ev = true.
Proof. destruct ev; try done. simpl. by intros [? _]%andb_prop. Qed.

End Borrowing.

(** ** The handlers step by step *)

Section Handlers.
Context (env : Env).

(** [pg_query], once the descriptor is resolved, in terms of its
    [withPool]. *)
Lemma pg_query_run database query params limit w conn w1 r w2 :
  isSingleStatement query = true →
  getConnection env database w = (inr conn, w1) →
  withPool env database (transaction env conn query params) w1 = (r, w2) →
  pg_query env database query params limit w
  = (match r with
     | inl e => errorResult e
     | inr result => formatResult env result limit
     end, w2).
Proof.
  intros Hsingle Hconn Hrun. unfold pg_query. rewrite Hsingle.
  change (negb true) with false. cbv iota.
  rewrite (bind_ok _ _ _ _ _ Hconn). unfold mbind, M_bind. rewrite Hrun.
  by destruct r.
Qed.

(** [pg_explain] in terms of its [withPool]. *)
Lemma pg_explain_run database query params w r w2 :
  isSingleStatement query = true →
  withPool env database
    (explainTransaction env (explainStatement query) params) w = (r, w2) →
  pg_explain env database query params w
  = (match r with
     | inl e => errorResult e
     | inr result =>
         match rows result with
         | Some rs => {| text := planText env rs; isError := false |}
         | None =>
             errorResult
               (ThrownError
                  (js "Cannot read properties of undefined (reading 'map')"))
         end
     end, w2).
Proof.
  intros Hsingle Hrun. unfold pg_explain. rewrite Hsingle.
  change (negb true) with false. cbv iota.
  unfold mbind, M_bind. rewrite Hrun.
  destruct r as [e|result]; [done|]. by destruct (rows result).
Qed.

End Handlers.

(** ** Borrowing from registered pools *)

Section Registered.
Context (env : Env).

Lemma borrowsRegistered_refl w : borrowsRegistered w w.
Proof.
  exists []. split; [by rewrite app_nil_r|]. by intros p Hin%elem_of_nil.
Qed.

Lemma borrowsRegistered_config w w' :
  extends configEvent w w' → borrowsRegistered w w'.
Proof.
  intros (_ & _ & evs & Hh & Hall). exists evs. split; [done|].
  intros p Hin. rewrite Forall_forall in Hall. by specialize (Hall _ Hin).
Qed.

Lemma borrowsRegistered_after w w1 w2 :
  extends configEvent w w1 → borrowsRegistered w1 w2 →
  borrowsRegistered w w2.
Proof.
  intros (_ & _ & evs0 & Hh0 & Hall0) (evs & Hh & Hreg).
  exists (evs0 ++ evs). split; [by rewrite Hh, Hh0, app_assoc|].
  intros p [Hin|Hin]%elem_of_app; [|by apply Hreg].
  rewrite Forall_forall in Hall0. by specialize (Hall0 _ Hin).
Qed.

(** The client of one [withPool] is borrowed from the pool that
    [getOrCreatePool] has registered, or found registered, for the label. *)
Lemma withPool_registered {T} lbl (fn : Pool → M T) w r w' :
  (∀ client, passive (queryOn client) (fn client)) →
  withPool env lbl fn w = (r, w') → borrowsRegistered w w'.
Proof.
  intros Hfn. unfold withPool, mbind, M_bind.
  destruct (getConnection env lbl w) as [[e|conn] w1] eqn:Hconn;
    pose proof (passive_getConnection env _ _ _ _ Hconn) as Hext.
  { intros [= _ <-]. by apply borrowsRegistered_config. }
  intros Hrun. apply (borrowsRegistered_after _ _ _ Hext). revert Hrun.
  destruct (getOrCreatePool env conn w1) as [[e|p] w2] eqn:Hpool.
  { destruct (getOrCreatePool_ok env conn w1) as (? & ? & Hok).
    rewrite Hok in Hpool. discriminate. }
  destruct (getOrCreatePool_trace env _ _ _ _ Hpool) as (evs2 & Hh2 & Hall2).
  pose proof (getOrCreatePool_entry env _ _ _ _ Hpool) as Hentry.
  rewrite Forall_forall in Hall2. unfold poolConnect.
  destruct (pool_connect env (history w2) p) as [e|] eqn:Hclient.
  - intros [= _ <-]. exists (evs2 ++ [EvConnect p]).
    split; [simpl; by rewrite Hh2, app_assoc|].
    intros p' [Hin|[= ->]%list_elem_of_singleton]%elem_of_app.
    + by specialize (Hall2 _ Hin).
    + by eexists _, _.
  - unfold tryFinally, release, emit.
    destruct (fn p (log (EvConnect p) w2)) as [r5 w5] eqn:Hrun.
    intros [= _ <-].
    destruct (Hfn p _ _ _ Hrun) as (Hp & _ & qs & Hh & Hqs).
    rewrite Forall_forall in Hqs.
    exists (evs2 ++ [EvConnect p] ++ qs ++ [EvRelease p]).
    split; [simpl; rewrite Hh; simpl; by rewrite Hh2, <-!app_assoc|].
    intros p' Hin. apply elem_of_app in Hin as [Hin|Hin];
      [by specialize (Hall2 _ Hin)|].
    apply elem_of_cons in Hin as [[= ->]|Hin].
    + exists (label conn), {| pool := p; hash := connHash env conn |}.
      split; [|done]. simpl. by rewrite Hp.
    + apply elem_of_app in Hin as [Hin|[=]%list_elem_of_singleton].
      by specialize (Hqs _ Hin).
Qed.

End Registered.

Section Sending.
Context (env : Env).

Lemma clientQuery_history client sql params w r w' :
  clientQuery env client sql params w = (r, w') →
  history w' = history w ++ [EvQuery client sql params].
Proof. by intros [= _ <-]. Qed.

(** [withPool] once the client is borrowed. *)
Lemma withPool_borrowed {T} lbl (fn : Pool → M T) w conn w1 p w2 client w3 :
  getConnection env lbl w = (inr conn, w1) →
  getOrCreatePool env conn w1 = (inr p, w2) →
  poolConnect env p w2 = (inr client, w3) →
  withPool env lbl fn w
  = let '(r, w4) := fn client w3 in (r, log (EvRelease client) w4).
Proof.
  intros Hconn Hpool Hclient. unfold withPool.
  rewrite (bind_ok _ _ _ _ _ Hconn), (bind_ok _ _ _ _ _ Hpool),
    (bind_ok _ _ _ _ _ Hclient).
  unfold tryFinally, release, emit. by destruct (fn client w3).
Qed.

End Sending.

Lemma fmap_determined {A B C} (f : A → B) (g : A → C) (l l' : list A) :
  (∀ x y, f x = f y → g x = g y) →
  f <$> l = f <$> l' → g <$> l = g <$> l'.
Proof.
  intros Hfg. revert l'. induction l as [|x l IH]; intros [|y l']; try done.
  rewrite !fmap_cons. intros [= Hx Hl]. f_equal; [by apply Hfg | by apply IH].
Qed.

Section Listing.
Context (env : Env).

Lemma databaseLine_listed c c' :
  listed c = listed c' → databaseLine env c = databaseLine env c'.
Proof.
  unfold listed, databaseLine. intros [= Hl Ha Hs Hr]. rewrite Hl, Hr.
  assert ((if ssl c is Some _ then [js "SSL"] else [])
          = (if ssl c' is Some _ then [js "SSL"] else [])) as ->
    by (by destruct (ssl c), (ssl c')).
  destruct (truthy (url c)), (truthy (url c')); try done.
  by injection Ha as -> -> -> ->.
Qed.

End Listing.

Section Reuse.
Context (env : Env).

Lemma loadConfig_hit w cc :
  configCache w = Some cc →
  (Date_now env (history w) - loadedAt cc < CONFIG_CACHE_TTL)%Z →
  loadConfig env w = (inr (connections cc), log EvNow w).
Proof.
  intros Hcc Hfresh.
  unfold loadConfig, tryLoad, checkCache, mbind, M_bind, getCache, now,
    mret, M_ret.
  by rewrite Hcc, bool_decide_eq_true_2.
Qed.

Lemma getConnection_hit lbl w cc conn :
  configCache w = Some cc →
  (Date_now env (history w) - loadedAt cc < CONFIG_CACHE_TTL)%Z →
  List.find (λ c, bool_decide (label c = lbl)) (connections cc) = Some conn →
  getConnection env lbl w = (inr conn, log EvNow w).
Proof.
  intros Hcc Hfresh Hfind. unfold getConnection.
  rewrite (bind_ok _ _ _ _ _ (loadConfig_hit _ _ Hcc Hfresh)). cbv beta.
  by rewrite Hfind.
Qed.

End Reuse.

(** ** Single-statement tools *)

Section Catalog.
Context (env : Env).

Lemma withPool_single lbl sql params (k : QueryResult → M ToolResult) w :
  (∀ result w', ∃ r, k result w' = (r, w')) →
  sendsOnce env w
    (match (withPool env lbl (λ client, clientQuery env client sql params)
            ≫= k) w with
     | (inr r, w') => (r, w')
     | (inl e, w') => (errorResult e, w')
     end) sql params.
Proof.
  intros Hk. unfold mbind, M_bind.
  destruct (withPool env lbl _ w) as [r w'] eqn:Hrun.
  destruct (withPool_run env _ _ _ _ _ Hrun)
    as (setup & Hsetup
        & [[Hh [e ->]] | [(p & e & Hh & Hp & ->)
                         | (p & w3 & w4 & Hp & Hh3 & Hsent & Hh)]]).
  - exists setup, []. rewrite app_nil_r. split_and!; [done | done |]. by left.
  - exists setup, [EvConnect p]. split_and!; [done | done |].
    right; left. by exists p, e.
  - injection Hsent as Hr Hw4.
    assert (history w'
            = history w ++ setup
              ++ [EvConnect p; EvQuery p sql params; EvRelease p]) as Hhist.
    { rewrite Hh, <-Hw4. simpl. rewrite Hh3. by rewrite <-!app_assoc. }
    rewrite Hh3 in Hr.
    exists setup, [EvConnect p; EvQuery p sql params; EvRelease p].
    destruct r as [e|a].
    + split_and!; [done | done |]. right; right. exists p.
      split_and!; [done | done |]. intros e' He'. simpl. congruence.
    + destruct (Hk a w') as [[e|r0] Hka]; rewrite Hka;
        (split_and!; [done | done |]); right; right; exists p;
        (split_and!; [done | done |]); intros e' He'; congruence.
Qed.

End Catalog.

(** ** Permission bits *)

Lemma group_or_other_bits (m : Z) :
  Z.land (Z.land m 511) 63 ≠ 0%Z
  ↔ ∃ i, (0 ≤ i < 6)%Z ∧ Z.testbit m i = true.
Proof.
  rewrite <-Z.land_assoc. change (Z.land 511 63) with 63%Z. split.
  - intros Hne.
    destruct (Z.testbit m 0) eqn:H0; [exists 0%Z; split; [lia | done]|].
    destruct (Z.testbit m 1) eqn:H1; [exists 1%Z; split; [lia | done]|].
    destruct (Z.testbit m 2) eqn:H2; [exists 2%Z; split; [lia | done]|].
    destruct (Z.testbit m 3) eqn:H3; [exists 3%Z; split; [lia | done]|].
    destruct (Z.testbit m 4) eqn:H4; [exists 4%Z; split; [lia | done]|].
    destruct (Z.testbit m 5) eqn:H5; [exists 5%Z; split; [lia | done]|].
    destruct Hne. apply Z.bits_inj'. intros n Hn.
    rewrite Z.land_spec, Z.bits_0.
    destruct (decide (n < 6)%Z) as [Hlt|Hge].
    + assert (n = 0 ∨ n = 1 ∨ n = 2 ∨ n = 3 ∨ n = 4 ∨ n = 5)%Z
        as [->|[->|[->|[->|[->| ->]]]]] by lia;
        by rewrite ?H0, ?H1, ?H2, ?H3, ?H4, ?H5.
    + change 63%Z with (Z.ones 6). rewrite Z.ones_spec_high by lia.
      apply andb_false_r.
  - intros (i & Hi & Hbit) Hzero.
    assert (Z.testbit (Z.land m 63) i = true) as Hset.
    { rewrite Z.land_spec, Hbit. change 63%Z with (Z.ones 6).
      by rewrite Z.ones_spec_low by lia. }
    by rewrite Hzero, Z.bits_0 in Hset.
Qed.

(** ** Placeholders *)

Section Replace.
Implicit Types (s pre expr post sep : jsString).

Lemma replaceAll_cons (f : jsString → jsString) c s :
  replaceAll f (c :: s)
  = match matchVar (c :: s) with
    | Some (expr, after) => f expr ++ replaceAll f after
    | None => c :: replaceAll f s
    end.
Proof.
  funelim (replaceAll f (c :: s)).
  - by rewrite Hm.
  - by rewrite e.
Qed.

Lemma split_cons p sep s :
  split (p :: sep) s
  = match indexOf s (p :: sep) 0 with
    | Some k => take k s :: split (p :: sep) (drop (k + length (p :: sep)) s)
    | None => [s]
    end.
Proof.
  funelim (split (p :: sep) s).
  - by rewrite Hk.
  - by rewrite e.
Qed.

Lemma split_nonempty sep s : split sep s ≠ [] ∨ (sep = [] ∧ s = []).
Proof.
  destruct sep as [|p sep].
  - destruct s; [by right|left]. by simp split.
  - left. rewrite split_cons. by destruct (indexOf s (p :: sep) 0).
Qed.

Lemma join_cons sep a parts :
  parts ≠ [] → join sep (a :: parts) = a ++ sep ++ join sep parts.
Proof. by destruct parts. Qed.

Lemma occursAt_fits pat s k :
  Spec.occursAt pat s k → k + length pat ≤ length s ∨ pat = [].
Proof.
  unfold Spec.occursAt. intros Hocc. destruct pat as [|p pat]; [by right|].
  left. apply (f_equal length) in Hocc.
  rewrite length_take, length_drop in Hocc. cbn [length] in *. lia.
Qed.

Lemma occursAt_glue pat s k :
  Spec.occursAt pat s k → take k s ++ pat ++ drop (k + length pat) s = s.
Proof.
  unfold Spec.occursAt. intros Hocc.
  rewrite <-(take_drop k s) at 3. f_equal.
  rewrite <-(take_drop (length pat) (drop k s)), Hocc. f_equal.
  by rewrite drop_drop.
Qed.

(** Joining what [split] gives restores the text. *)
Lemma join_split p sep s : join (p :: sep) (split (p :: sep) s) = s.
Proof.
  remember (length s) as n eqn:Hn. revert s Hn.
  induction (lt_wf n) as [n _ IH]. intros s ->.
  rewrite split_cons.
  destruct (indexOf s (p :: sep) 0) as [k|] eqn:Hk; [|done].
  apply indexOf_firstAt in Hk as (_ & Hocc & _); [|lia].
  destruct (occursAt_fits _ _ _ Hocc) as [Hfit|]; [|done].
  rewrite join_cons.
  - rewrite (IH (length (drop (k + length (p :: sep)) s))); [| |done].
    + by apply occursAt_glue.
    + rewrite length_drop. cbn [length] in *. lia.
  - by destruct (split_nonempty (p :: sep) (drop (k + length (p :: sep)) s))
      as [|[? _]].
Qed.

End Replace.

Section Placeholders.
Implicit Types (s pre expr post : jsString).

Lemma spanNot_app c expr rest :
  c ∉ expr → spanNot c (expr ++ c :: rest) = (expr, c :: rest).
Proof.
  induction expr as [|x expr IH]; intros Hno; simpl.
  - by rewrite N.eqb_refl.
  - apply not_elem_of_cons in Hno as [Hx Hno].
    rewrite (proj2 (N.eqb_neq x c)) by done. by rewrite IH.
Qed.

Lemma matchVar_placeholder expr post :
  expr ≠ [] → cu "}" ∉ expr →
  matchVar (js "${" ++ expr ++ js "}" ++ post) = Some (expr, post).
Proof.
  intros Hne Hno.
  change (js "${" ++ expr ++ js "}" ++ post)
    with (cu "$" :: cu "{" :: expr ++ cu "}" :: post).
  unfold matchVar. rewrite !N.eqb_refl. cbn [andb].
  rewrite spanNot_app by done. by destruct expr.
Qed.

Lemma matchVar_head s :
  startsWith (js "${") s = false → matchVar s = None.
Proof.
  destruct s as [|d [|b s]]; [done | done |]. unfold matchVar.
  change (startsWith (js "${") (d :: b :: s))
    with ((cu "$" =? d)%N && ((cu "{" =? b)%N && true)).
  rewrite andb_true_r, (N.eqb_sym (cu "$")), (N.eqb_sym (cu "{")).
  by intros ->.
Qed.

(** A text without the opening of a placeholder is left as it is. *)
Lemma replaceAll_plain f s :
  indexOf s (js "${") 0 = None → replaceAll f s = s.
Proof.
  unfold indexOf. rewrite drop_0. intros Hnone.
  rewrite indexOfAux_None in Hnone.
  induction s as [|c s IH]; [by simp replaceAll|].
  rewrite replaceAll_cons, matchVar_head by apply (Hnone 0).
  rewrite IH; [done|]. intros m. apply (Hnone (S m)).
Qed.

(** The first placeholder of a text gives way to what [f] makes of its
    group, and the search goes on after it. *)
Lemma replaceAll_first f pre expr post :
  indexOf pre (js "${") 0 = None → expr ≠ [] → cu "}" ∉ expr →
  replaceAll f (pre ++ js "${" ++ expr ++ js "}" ++ post)
  = pre ++ f expr ++ replaceAll f post.
Proof.
  unfold indexOf. rewrite drop_0. intros Hnone Hne Hno.
  rewrite indexOfAux_None in Hnone.
  induction pre as [|c pre IH].
  - destruct expr as [|x expr]; [done|].
    change ([] ++ js "${" ++ (x :: expr) ++ js "}" ++ post)
      with (cu "$" :: (cu "{" :: (x :: expr) ++ js "}" ++ post)).
    rewrite replaceAll_cons.
    change (cu "$" :: (cu "{" :: (x :: expr) ++ js "}" ++ post))
      with (js "${" ++ (x :: expr) ++ js "}" ++ post).
    by rewrite matchVar_placeholder.
  - change ((c :: pre) ++ js "${" ++ expr ++ js "}" ++ post)
      with (c :: (pre ++ js "${" ++ expr ++ js "}" ++ post)).
    rewrite replaceAll_cons, matchVar_head.
    + rewrite IH; [done|]. intros m. apply (Hnone (S m)).
    + specialize (Hnone 0). rewrite drop_0 in Hnone.
      destruct pre as [|b pre].
      * change (startsWith (js "${") (c :: [] ++ js "${" ++ expr ++ js "}" ++ post))
          with ((cu "$" =? c)%N && ((cu "{" =? cu "$")%N && true)).
        change (cu "{" =? cu "$")%N with false. apply andb_false_r.
      * exact Hnone.
Qed.

End Placeholders.

Section Fallback.
Context (processEnv : jsString → option jsString).
Implicit Types (name dflt : jsString).

Lemma indexOf_separator name dflt :
  indexOf name (js ":-") 0 = None →
  indexOf (name ++ js ":-" ++ dflt) (js ":-") 0 = Some (length name).
Proof.
  intros Hnone. apply indexOf_firstAt; [lia|].
  unfold indexOf in Hnone. rewrite drop_0, indexOfAux_None in Hnone.
  split_and!; [lia | |].
  - unfold Spec.occursAt. by rewrite drop_app_length.
  - intros k [_ Hk] [Hc Hd]%occursAt_pair.
    destruct (decide (k + 1 < length name)) as [Hin|Hlast].
    + rewrite lookup_app_l in Hc, Hd by lia.
      specialize (Hnone k).
      by rewrite (proj2 (startsWith_occursAt (js ":-") name k)) in Hnone
        by by apply occursAt_pair.
    + replace (k + 1) with (length name + 0) in Hd by lia.
      by rewrite lookup_app_r, Nat.add_comm, Nat.add_sub in Hd by lia.
Qed.

Lemma substitute_bare name :
  indexOf name (js ":-") 0 = None →
  substitute processEnv name = default [] (processEnv (trim name)).
Proof.
  intros Hnone. unfold substitute.
  change (js ":-") with (cu ":" :: [cu "-"]) in *.
  by rewrite split_cons, Hnone.
Qed.

Lemma substitute_fallback name dflt :
  indexOf name (js ":-") 0 = None →
  substitute processEnv (name ++ js ":-" ++ dflt)
  = default dflt (processEnv (trim name)).
Proof.
  intros Hnone. unfold substitute.
  pose proof (indexOf_separator name dflt Hnone) as Hsep.
  change (js ":-") with (cu ":" :: [cu "-"]) in *.
  rewrite split_cons, Hsep. cbn [head tail default from_option]. unfold id.
  rewrite take_app_length.
  replace (length name + length (cu ":" :: [cu "-"]))
    with (length (name ++ cu ":" :: [cu "-"])) by by rewrite length_app.
  rewrite (app_assoc name), drop_app_length. by rewrite join_split.
Qed.

End Fallback.

(** Induction over a JSON value and the values it holds. *)
Lemma Json_ind (P : Json → Prop) :
  P JNull → (∀ b, P (JBoolean b)) → (∀ n, P (JNumber n)) →
  (∀ s, P (JString s)) →
  (∀ items, Forall P items → P (JArray items)) →
  (∀ members, Forall (λ kv, P kv.2) members → P (JObject members)) →
  ∀ obj, P obj.
Proof.
  intros Hnull Hbool Hnum Hstr Harr Hobj. fix IH 1.
  intros [| b | n | s | items | members]; [done.. | |].
  - apply Harr. induction items as [|x items IHitems]; constructor;
      [apply IH | apply IHitems].
  - apply Hobj. induction members as [|[k v] members IHmembers]; constructor;
      [apply IH | apply IHmembers].
Qed.

(** ** Continuing a text *)

Section Extension.
Implicit Types (s t pat : jsString).

Lemma occursAt_app_l pat s t k :
  k + length pat ≤ length s →
  Spec.occursAt pat (s ++ t) k ↔ Spec.occursAt pat s k.
Proof.
  intros Hfit. unfold Spec.occursAt.
  rewrite drop_app_le by lia. rewrite take_app_le; [done|].
  rewrite length_drop. lia.
Qed.

Lemma occursAt_within pat s k :
  pat ≠ [] → Spec.occursAt pat s k → k + length pat ≤ length s.
Proof.
  unfold Spec.occursAt. intros Hne Hocc. apply (f_equal length) in Hocc.
  rewrite length_take, length_drop in Hocc.
  destruct pat; [done|]. cbn [length] in *. lia.
Qed.

Lemma firstAt_app pat s t from e :
  pat ≠ [] → Spec.firstAt pat s from e → Spec.firstAt pat (s ++ t) from e.
Proof.
  intros Hne (Hge & Hocc & Hfirst).
  pose proof (occursAt_within _ _ _ Hne Hocc) as Hfit.
  split_and!; [done | by apply occursAt_app_l |].
  intros k Hk Hocc'. apply (Hfirst k Hk).
  apply (occursAt_app_l pat s t k); [lia | done].
Qed.

Lemma literalEnd_app s t k e :
  Spec.literalEnd s k e → e + 1 < length s → Spec.literalEnd (s ++ t) k e.
Proof.
  induction 1 as [k Hk Hn | k e Hk Hn _ IH | k c e Hk Hc _ IH]; intros He.
  - apply Spec.literal_close.
    + by apply lookup_app_l_Some.
    + by rewrite lookup_app_l by lia.
  - apply Spec.literal_escape; [by apply lookup_app_l_Some.. | by apply IH].
  - eapply Spec.literal_char; [by apply lookup_app_l_Some | done | by apply IH].
Qed.

Lemma delimiter_app s t i j :
  Spec.delimiter s i j → Spec.delimiter (s ++ t) i j.
Proof.
  intros (Hi & Hlt & Hj & Hall).
  split_and!; [by apply lookup_app_l_Some | done | by apply lookup_app_l_Some |].
  intros k Hk. destruct (Hall k Hk) as (c & Hc & Htag).
  exists c. split; [by apply lookup_app_l_Some | done].
Qed.

Lemma context_app s t i j :
  Spec.context s i j → j < length s → Spec.context (s ++ t) i j.
Proof.
  destruct 1 as [i e Hi Hn Hf | i e Hi Hn Hf | i e Hi Hf | i e Hi Hf
                | i j e Hd Hf]; intros Hlt.
  - apply Spec.context_line; [by apply lookup_app_l_Some.. |].
    by apply firstAt_app.
  - apply Spec.context_block; [by apply lookup_app_l_Some.. |].
    by apply firstAt_app.
  - apply Spec.context_literal; [by apply lookup_app_l_Some |].
    apply literalEnd_app; [done | lia].
  - apply Spec.context_ident; [by apply lookup_app_l_Some |].
    by apply firstAt_app.
  - pose proof Hd as (Hi & Hij & Hj%lookup_lt_Some & _).
    assert (take (j + 1 - i) (drop i (s ++ t)) = take (j + 1 - i) (drop i s))
      as Htag.
    { rewrite drop_app_le by lia. rewrite take_app_le; [done|].
      rewrite length_drop. lia. }
    pose proof (Spec.context_body (s ++ t) i j e (delimiter_app _ t _ _ Hd))
      as Hbody.
    rewrite Htag in Hbody. apply Hbody. apply firstAt_app; [|done].
    intros Hnil. apply (f_equal length) in Hnil.
    rewrite length_take, length_drop in Hnil. simpl in Hnil. lia.
Qed.

Lemma step_app s t i j p :
  Spec.step s i j → j ≤ p → s !! p = Some (cu ";") →
  Spec.step (s ++ t) i j.
Proof.
  intros Hstep Hjp Hp. pose proof (lookup_lt_Some _ _ _ Hp) as Hlen.
  destruct Hstep as [i j Hc | i c Hi Hno].
  - apply Spec.step_context, context_app; [done | lia].
  - eapply Spec.step_char; [by apply lookup_app_l_Some|].
    intros Hopen. apply Hno.
    destruct Hopen as [H1 H2 | H1 H2 | H1 | H1 | j (H1 & Hij & Hj & Hall)].
    + rewrite lookup_app_l in H1, H2 by lia. by apply Spec.opens_line.
    + rewrite lookup_app_l in H1, H2 by lia. by apply Spec.opens_block.
    + rewrite lookup_app_l in H1 by lia. by apply Spec.opens_literal.
    + rewrite lookup_app_l in H1 by lia. by apply Spec.opens_ident.
    + assert (j < p) as Hjlt.
      { destruct (Nat.lt_trichotomy j p) as [|[->|Hgt]]; [done | |].
        - rewrite lookup_app_l in Hj by lia. rewrite Hp in Hj.
          by injection Hj.
        - destruct (Hall p ltac:(lia)) as (c' & Hc' & Htag).
          rewrite lookup_app_l in Hc' by lia. rewrite Hp in Hc'.
          injection Hc' as <-. by vm_compute in Htag. }
      apply (Spec.opens_body s i j).
      rewrite lookup_app_l in H1, Hj by lia.
      split_and!; [done | done | done |].
      intros k Hk. destruct (Hall k Hk) as (c' & Hc' & Htag).
      rewrite lookup_app_l in Hc' by lia. eauto.
Qed.

Lemma outside_app s t i p :
  rtc (Spec.step s) i p → s !! p = Some (cu ";") →
  rtc (Spec.step (s ++ t)) i p.
Proof.
  induction 1 as [|i j p Hstep Hrest IH]; intros Hp; [done|].
  eapply rtc_l; [|by apply IH].
  eapply step_app; [done | by eapply outside_le | done].
Qed.

End Extension.

(** The model agrees with the expectations of the test suite for
    [resolveEnvVars]. *)
Lemma resolveCases_agree :
  Forall (λ '(input, expected), resolveEnvVars testEnv input = expected)
    resolveCases.
Proof. repeat constructor; vm_compute; reflexivity. Qed.

(** * The statement classifier *)

(** Follows the scanning loop over the text of a concrete example to show
    that an index lies outside the lexical contexts. *)
Ltac walk :=
  repeat first
    [ apply rtc_refl
    | eapply outside_scan; [reflexivity | simpl; lia | simpl; lia |] ].

(** C1: [isSingleStatement] returns [true] exactly when no semicolon lying
    outside line comments, block comments, single-quoted literals,
    double-quoted identifiers and dollar-tagged bodies is followed by
    further non-whitespace content; in particular it returns [true] on a
    text with no semicolon outside those contexts. *)
Theorem isSingleStatement_iff_spec (sql : jsString) :
  (isSingleStatement sql = true ↔ Spec.singleStatement sql)
  ∧ (isSingleStatement sql = false ↔
     ∃ p, Spec.boundary sql p ∧ Spec.hasContent sql (p + 1))
  ∧ ((∀ p, ¬ Spec.boundary sql p) → isSingleStatement sql = true).
Proof.
  split_and!.
  - apply isSingleStatement_spec.
  - unfold isSingleStatement. rewrite scanFrom_false. split.
    + intros (p & Hp & Hm & Hc). by exists p.
    + intros (p & [Hp Hm] & Hc). by exists p.
  - intros Hno. apply isSingleStatement_spec. intros p Hb. by apply Hno in Hb.
Qed.

Lemma isSingleStatement_iff_spec_witness :
  Spec.singleStatement (js "SELECT 'a;b' -- ; x")
  ∧ ∃ p, Spec.boundary (js "SELECT 1; SELECT 2") p
         ∧ Spec.hasContent (js "SELECT 1; SELECT 2") (p + 1).
Proof.
  split.
  - apply (proj1 (isSingleStatement_iff_spec _)). reflexivity.
  - apply (proj1 (proj2 (isSingleStatement_iff_spec _))). reflexivity.
Defined.

(** C5: [isSingleStatement] returns [true] on the empty string, on every
    string made of whitespace only, and on [";"]; it returns [true] on
    every text in which each semicolon outside the lexical contexts is
    followed by whitespace only; and it returns [false] on [";;"]. *)
Theorem isSingleStatement_edge_cases :
  isSingleStatement (js "") = true
  ∧ (∀ sql, Forall (λ c, isWhiteSpace c = true) sql →
            isSingleStatement sql = true)
  ∧ isSingleStatement (js ";") = true
  ∧ (∀ sql,
       (∀ p m c, Spec.boundary sql p → p < m → sql !! m = Some c →
                 isWhiteSpace c = true) →
       isSingleStatement sql = true)
  ∧ isSingleStatement (js ";;") = false.
Proof.
  split_and!; try reflexivity.
  - intros sql Hws. apply isSingleStatement_spec. intros p [_ Hm].
    rewrite Forall_lookup in Hws. apply Hws in Hm. by vm_compute in Hm.
  - intros sql Hws. apply isSingleStatement_spec.
    intros p Hb (m & c & Hle & Hm & Hc).
    rewrite (Hws p m c) in Hc; [done | done | lia | done].
Qed.

Lemma isSingleStatement_edge_cases_witness :
  isSingleStatement ([9; 32; 10; 160; 8232]%N) = true
  ∧ isSingleStatement (js "SELECT 1 ;  ") = true.
Proof.
  destruct isSingleStatement_edge_cases as (_ & Hws & _ & Htrail & _). split.
  - apply Hws. repeat constructor.
  - apply Htrail. intros p m c [_ Hm] Hlt Hc.
    do 9 (destruct p as [|p]; [by vm_compute in Hm|]).
    destruct p as [|p]; [|do 2 (destruct p as [|p]; [by vm_compute in Hm|]);
                          by vm_compute in Hm].
    do 10 (destruct m as [|m]; [lia|]).
    do 2 (destruct m as [|m]; [by injection Hc as <-|]).
    by vm_compute in Hc.
Defined.

(** C6: when the text reaches, outside the lexical contexts, a block-comment
    opener with no closer, or a [$tag$] delimiter that does not occur
    again, and no earlier semicolon outside the contexts is followed by
    content, [isSingleStatement] returns [true], whatever the remainder
    holds. *)
Theorem unterminated_comment_or_body_is_single (sql : jsString) (i : nat) :
  Spec.outside sql i →
  (sql !! i = Some (cu "/") ∧ sql !! (i + 1) = Some (cu "*")
   ∧ ∀ e, ¬ Spec.firstAt (js "*/") sql (i + 2) e)
  ∨ (∃ j, Spec.delimiter sql i j
          ∧ ∀ e, ¬ Spec.firstAt (take (j + 1 - i) (drop i sql)) sql (j + 1) e) →
  (∀ p, p < i → Spec.boundary sql p → ¬ Spec.hasContent sql (p + 1)) →
  isSingleStatement sql = true.
Proof.
  intros Hi Hopen Hbefore. apply (stopped_single sql i); [done | | | done].
  - destruct Hopen as [(Ha & Hb & Hno) | (j & Hdel & Hno)].
    + by apply unterminated_block.
    + by eapply unterminated_body.
  - intros Hm. destruct Hopen as [(Ha & _) | (j & (Ha & _) & _)]; clash.
Qed.

Lemma unterminated_comment_or_body_is_single_witness :
  isSingleStatement (js "SELECT 1 /* ; DROP TABLE users") = true
  ∧ isSingleStatement (js "SELECT $fn$ x; DROP TABLE users") = true.
Proof.
  split.
  - apply (unterminated_comment_or_body_is_single _ 9).
    + unfold Spec.outside. walk.
    + left. split_and!; [reflexivity | reflexivity |].
      apply indexOf_None; [simpl; lia | reflexivity].
    + intros p Hp [_ Hm].
      do 9 (destruct p as [|p]; [by vm_compute in Hm|]). lia.
  - apply (unterminated_comment_or_body_is_single _ 7).
    + unfold Spec.outside. walk.
    + right. exists 10. split.
      * apply delimiter_skipTag. split_and!; reflexivity.
      * apply indexOf_None; [simpl; lia | reflexivity].
    + intros p Hp [_ Hm].
      do 7 (destruct p as [|p]; [by vm_compute in Hm|]). lia.
Defined.

(** C7, as amended: a dollar sign that does not start a [$tag$] delimiter
    (the dollar sign, characters of a tag, a second dollar sign) is not an
    opener: the loop moves past it by one character, so the verdict from
    there is the verdict from the next index, whereas a dollar sign that
    starts a delimiter is an opener and is not so passed; a positional
    parameter placeholder followed by the end of the text or by a character
    that neither continues a tag nor is a dollar sign is a dollar sign of
    the first kind; the two example texts are single statements, and such a
    placeholder does not hide a semicolon that follows it. *)
Theorem bare_dollar_is_not_an_opener :
  (∀ sql i,
     sql !! i = Some (cu "$") → (∀ j, ¬ Spec.delimiter sql i j) →
     ¬ Spec.opens sql i
     ∧ scanStep sql i = Continue (i + 1)
     ∧ scanFrom sql i = scanFrom sql (i + 1))
  ∧ (∀ sql i j,
       Spec.delimiter sql i j →
       Spec.opens sql i ∧ scanStep sql i ≠ Continue (i + 1))
  ∧ (∀ sql i n, Spec.placeholder sql i n → ∀ j, ¬ Spec.delimiter sql i j)
  ∧ isSingleStatement (js "SELECT $1") = true
  ∧ isSingleStatement (js "SELECT * FROM t WHERE id = $1 AND name = $2")
    = true
  ∧ isSingleStatement (js "SELECT $1; DROP TABLE t") = false.
Proof.
  split_and!; try reflexivity.
  - intros sql i Hi Hno.
    assert (scanStep sql i = Continue (i + 1)) as Hstep.
    { pose proof (dollar_branch sql i Hi) as Hbr.
      unfold scanStep. rewrite lookup_next, Hi.
      destruct (dollarStep sql i) as [[b|j]|] eqn:Hd; [| |reflexivity].
      - unfold dollarStep in Hd. case_match eqn:Hc; [|done].
        apply andb_prop in Hc as [_ Hc%isChar_true].
        destruct (Hno (skipTag (drop (i + 1) sql) (i + 1))).
        by apply delimiter_skipTag.
      - unfold dollarStep in Hd. case_match eqn:Hc; [|done].
        apply andb_prop in Hc as [_ Hc%isChar_true].
        destruct (Hno (skipTag (drop (i + 1) sql) (i + 1))).
        by apply delimiter_skipTag. }
    split_and!; [|done|].
    + destruct 1 as [? _ | ? _ | ? | ? | j Hdel]; try clash.
      by apply Hno in Hdel.
    + rewrite (scanFrom_eq sql i), Hstep.
      apply lookup_lt_Some in Hi. by rewrite bool_decide_eq_true_2.
  - intros sql i j Hdel. split; [by eapply Spec.opens_body|].
    pose proof Hdel as (Hi & _). pose proof (dollar_branch sql i Hi) as Hbr.
    unfold scanStep. rewrite lookup_next, Hi.
    destruct (dollarStep sql i) as [[b|j']|]; [done | | by apply Hbr in Hdel].
    intros [= ->]. inversion Hbr as [? ? Hctx | ? ? ? Hno]; subst.
    + inversion Hctx as [| | | | ? d e (_ & Hlt & _) Hf%firstAt_ge];
        subst; try clash. lia.
    + apply Hno. by eapply Spec.opens_body.
  - apply placeholder_no_delimiter.
Qed.

(** C7, as stated, fails: the text below uses the placeholders [$1] and
    [$2]; the dollar sign of [$1] forms no open/close pair, the token [$1$]
    never occurring again; yet the loop does not pass it, it takes [$1$] for
    the opener of a body that consumes the remainder.  The verdict is not
    that of the semicolon rule, which rejects the text once the scan is
    resumed one character later. *)
Lemma placeholder_before_dollar_opens_a_body :
  let sql := js "SELECT $1$2; DROP TABLE t" in
  Spec.parameter sql 7 1 ∧ Spec.parameter sql 9 1
  ∧ (∀ e, ¬ Spec.firstAt (js "$1$") sql 10 e)
  ∧ scanStep sql 7 = Return true
  ∧ scanFrom sql 7 = true ∧ scanFrom sql 8 = false
  ∧ isSingleStatement sql = true
  ∧ violation sql 11.
Proof.
  intros sql.
  assert (∀ i, i = 7 ∨ i = 9 → Spec.parameter sql i 1) as Hparam.
  { intros i Hi. split_and!.
    - by destruct Hi as [-> | ->].
    - lia.
    - intros k Hk. destruct Hi as [-> | ->];
        [assert (k = 8) as -> by lia | assert (k = 10) as -> by lia];
        (eexists; split; [reflexivity|]; vm_compute; split; intros [=]).
    - intros c Hc. destruct Hi as [-> | ->]; injection Hc as <-;
        vm_compute; intros [Hge Hle]; by (apply Hge || apply Hle). }
  split_and!; try reflexivity; try (apply Hparam; lia).
  - apply indexOf_None; [simpl; lia | reflexivity].
  - split; [reflexivity|]. exists 13, (cu "D").
    split_and!; [lia | reflexivity | reflexivity].
Qed.

Lemma bare_dollar_is_not_an_opener_witness :
  scanStep (js "SELECT $1; DROP TABLE t") 7 = Continue 8
  ∧ Spec.placeholder (js "SELECT $1; DROP TABLE t") 7 1.
Proof.
  destruct bare_dollar_is_not_an_opener as (Hbare & _ & Hplace & _).
  assert (Spec.placeholder (js "SELECT $1; DROP TABLE t") 7 1) as Hp.
  { split; [split_and!; [reflexivity | lia | |]|].
    - intros k Hk. assert (k = 8) as -> by lia.
      eexists. split; [reflexivity|]. vm_compute. split; intros [=].
    - intros c [= <-]. vm_compute. intros [_ Hle]. by apply Hle.
    - intros c [= <-]. split; [reflexivity | discriminate]. }
  split; [|done].
  apply (Hbare _ 7); [reflexivity | by eapply Hplace].
Defined.

(** C10: an unterminated single-quoted literal or double-quoted identifier
    also consumes the remainder: when the text reaches, outside the lexical
    contexts, an opening quote with no closer, and no earlier semicolon
    outside the contexts is followed by content, [isSingleStatement]
    returns [true]. *)
Theorem unterminated_quote_is_single (sql : jsString) (i : nat) :
  Spec.outside sql i →
  (sql !! i = Some (cu "'") ∧ ∀ e, ¬ Spec.literalEnd sql (i + 1) e)
  ∨ (sql !! i = Some dquote ∧ ∀ e, ¬ Spec.firstAt [dquote] sql (i + 1) e) →
  (∀ p, p < i → Spec.boundary sql p → ¬ Spec.hasContent sql (p + 1)) →
  isSingleStatement sql = true.
Proof.
  intros Hi Hopen Hbefore. apply (stopped_single sql i); [done | | | done].
  - destruct Hopen as [[Ha Hno] | [Ha Hno]].
    + by apply unterminated_literal.
    + by apply unterminated_ident.
  - intros Hm. destruct Hopen as [[Ha _] | [Ha _]]; clash.
Qed.

Lemma unterminated_quote_is_single_witness :
  isSingleStatement (js "SELECT 'abc; DROP TABLE users") = true
  ∧ isSingleStatement (js "SELECT " ++ [dquote] ++ js "col; DROP TABLE users")
    = true.
Proof.
  split.
  - apply (unterminated_quote_is_single _ 7).
    + unfold Spec.outside. walk.
    + left. split; [reflexivity|].
      apply literal_unterminated. vm_compute. lia.
    + intros p Hp [_ Hm].
      do 7 (destruct p as [|p]; [by vm_compute in Hm|]). lia.
  - apply (unterminated_quote_is_single _ 7).
    + unfold Spec.outside. walk.
    + right. split; [reflexivity|].
      apply ident_unterminated. vm_compute. lia.
    + intros p Hp [_ Hm].
      do 7 (destruct p as [|p]; [by vm_compute in Hm|]). lia.
Defined.

(** * The configuration snapshot *)

(** C8: for every configuration that parses, the list that a full reload
    of [loadConfig] returns, and caches, holds at most one descriptor per
    label, each one the first occurrence of its label in the parsed source;
    it holds no disabled descriptor; and under a label filter it holds only
    descriptors with that label.  Conversely every enabled first occurrence
    that passes the filter is in it, in source order. *)
Theorem published_snapshot (env : Env) (w w0 : World)
    (raw : list RawConnection) (parsed : list DbConnection) :
  checkCache env w = (inr None, w0) →
  readConfig env (history w0) = inr raw →
  DbConfigSchema raw = Some parsed →
  ∃ published w' m t,
    loadConfig env w = (inr published, w')
    ∧ configCache w'
      = Some {| connections := published; mtime := m; loadedAt := t |}
    ∧ NoDup (label <$> published)
    ∧ published `sublist_of` parsed
    ∧ (∀ c, c ∈ published → ∃ i, firstOccurrence parsed i c)
    ∧ (∀ c, c ∈ published → enabled c = true)
    ∧ (∀ f, LABEL_FILTER env = Some f → truthy (LABEL_FILTER env) = true →
            ∀ c, c ∈ published → label c = f)
    ∧ (∀ c i, firstOccurrence parsed i c → enabled c = true →
              (truthy (LABEL_FILTER env) = true →
               Some (label c) = LABEL_FILTER env) →
              c ∈ published).
Proof.
  intros Hmiss Hread Hparse.
  destruct (loadConfig_publishes env _ _ _ _ Hmiss Hread Hparse)
    as (w' & m & t & Hrun & Hcache & _).
  exists (publishConnections (LABEL_FILTER env) parsed), w', m, t.
  split_and!.
  - exact Hrun.
  - exact Hcache.
  - apply publish_NoDup.
  - apply publish_sublist.
  - by intros c (? & _)%publish_elem.
  - by intros c (_ & ? & _)%publish_elem.
  - intros f Hf Ht c (_ & _ & Hl)%publish_elem. specialize (Hl Ht). congruence.
  - intros c i Hi He Hl. apply publish_elem. eauto.
Qed.

Lemma published_snapshot_witness :
  (∃ published w',
     loadConfig (Cases.repeated None) Scenario.start = (inr published, w')
     ∧ published = [Scenario.parsed "staging" true "main";
                    Scenario.parsed "prod" true "main"]
     ∧ NoDup (label <$> published))
  ∧ ∃ published w',
      loadConfig (Cases.repeated (Some (js "staging"))) Scenario.start
      = (inr published, w')
      ∧ published = [Scenario.parsed "staging" true "main"].
Proof.
  split.
  - destruct (published_snapshot (Cases.repeated None) Scenario.start
                _ _ _ eq_refl eq_refl eq_refl)
      as (published & w' & m & t & Hrun & _ & Hnodup & _).
    exists published, w'. split_and!; [exact Hrun | | exact Hnodup].
    vm_compute in Hrun. by injection Hrun as <- _.
  - destruct (published_snapshot (Cases.repeated (Some (js "staging")))
                Scenario.start _ _ _ eq_refl eq_refl eq_refl)
      as (published & w' & m & t & Hrun & _).
    exists published, w'. split; [exact Hrun|].
    vm_compute in Hrun. by injection Hrun as <- _.
Defined.

(** * The pool registry *)

(** C9: when the registry holds an entry for the label whose stored
    fingerprint equals the descriptor's, [getOrCreatePool] returns that
    pool and changes nothing; otherwise the old pool, if any, is ended and
    exactly one new pool is constructed and installed as the entry for the
    label; and asking again with a descriptor of the same label and the
    same fingerprint fields returns the same pool and changes nothing,
    while (the serialisation being injective) one with different fingerprint
    fields ends that pool and installs one new pool. *)
Theorem getOrCreatePool_fingerprint (env : Env) (conn : DbConnection)
    (w : World) :
  (∀ existing,
     pools w !! label conn = Some existing →
     hash existing = connHash env conn →
     getOrCreatePool env conn w = (inr (pool existing), w))
  ∧ ((∀ existing, pools w !! label conn = Some existing →
                  hash existing ≠ connHash env conn) →
     ∃ w',
       getOrCreatePool env conn w = (inr (poolsCreated w), w')
       ∧ pools w'
         = <[label conn := {| pool := poolsCreated w;
                              hash := connHash env conn |}]> (pools w)
       ∧ poolsCreated w' = S (poolsCreated w)
       ∧ history w'
         = history w
           ++ match pools w !! label conn with
              | Some old => [EvPoolEnd (pool old)]
              | None => []
              end
           ++ [EvPoolNew (poolsCreated w) (poolConfig conn)]
       ∧ configCache w' = configCache w)
  ∧ (∀ p w' conn',
       getOrCreatePool env conn w = (inr p, w') →
       label conn' = label conn → fingerprint conn' = fingerprint conn →
       getOrCreatePool env conn' w' = (inr p, w'))
  ∧ ((∀ fp fp', JSON_stringify env fp = JSON_stringify env fp' → fp = fp') →
     ∀ p w' conn',
       getOrCreatePool env conn w = (inr p, w') →
       label conn' = label conn → fingerprint conn' ≠ fingerprint conn →
       ∃ w'',
         getOrCreatePool env conn' w' = (inr (poolsCreated w'), w'')
         ∧ pools w''
           = <[label conn := {| pool := poolsCreated w';
                                hash := connHash env conn' |}]> (pools w')
         ∧ history w''
           = history w'
             ++ [EvPoolEnd p; EvPoolNew (poolsCreated w') (poolConfig conn')]).
Proof.
  split_and!.
  - intros existing Hex Hhash. unfold getOrCreatePool.
    by rewrite Hex, bool_decide_eq_true_2.
  - intros Hdiff. unfold getOrCreatePool, installPool.
    destruct (pools w !! label conn) as [old|] eqn:Hold.
    + rewrite bool_decide_eq_false_2 by by apply Hdiff.
      eexists. split_and!; try reflexivity. simpl. by rewrite <-app_assoc.
    + eexists. split_and!; reflexivity.
  - intros p w' conn' Hrun Hlabel Hfp.
    assert (connHash env conn' = connHash env conn) as Hhash
      by (unfold connHash; by rewrite Hfp).
    revert Hrun. unfold getOrCreatePool, installPool. rewrite Hlabel, Hhash.
    destruct (pools w !! label conn) as [old|] eqn:Hold.
    + case_bool_decide as Hh.
      * intros [= <- <-]. by rewrite Hold, bool_decide_eq_true_2.
      * intros [= <- <-]. simpl. rewrite lookup_insert_eq. simpl.
        by rewrite bool_decide_eq_true_2.
    + intros [= <- <-]. simpl. rewrite lookup_insert_eq. simpl.
      by rewrite bool_decide_eq_true_2.
  - intros Hinj p w' conn' Hrun Hlabel Hfp.
    apply getOrCreatePool_entry in Hrun.
    unfold getOrCreatePool, installPool. rewrite Hlabel, Hrun. simpl.
    rewrite bool_decide_eq_false_2.
    + eexists. split_and!; try reflexivity. simpl. by rewrite <-app_assoc.
    + unfold connHash. intros Heq%Hinj. congruence.
Qed.

Lemma getOrCreatePool_fingerprint_witness :
  let conn := Scenario.parsed "prod" true "main" in
  let w := (getOrCreatePool Scenario.env conn Scenario.start).2 in
  getOrCreatePool Scenario.env conn Scenario.start = (inr 0, w)
  ∧ getOrCreatePool Scenario.env conn w = (inr 0, w)
  ∧ ∃ w', getOrCreatePool Scenario.env
            (Scenario.parsed "prod" true "other") w = (inr 1, w')
          ∧ history w'
            = history w
              ++ [EvPoolEnd 0;
                  EvPoolNew 1 (poolConfig (Scenario.parsed "prod" true "other"))].
Proof.
  intros conn w.
  destruct (getOrCreatePool_fingerprint Scenario.env conn Scenario.start)
    as (_ & Hnew & _).
  destruct (getOrCreatePool_fingerprint Scenario.env conn w)
    as (Hsame & _).
  destruct (getOrCreatePool_fingerprint Scenario.env
              (Scenario.parsed "prod" true "other") w) as (_ & Hswap & _).
  split_and!.
  - destruct Hnew as (w' & Hrun & _); [by intros existing|].
    unfold w. by rewrite Hrun.
  - by apply (Hsame {| pool := 0; hash := connHash Scenario.env conn |}).
  - destruct Hswap as (w' & Hrun & _ & _ & Hhist & _).
    + intros existing [= <-]. by vm_compute.
    + exists w'. split; [exact Hrun | exact Hhist].
Defined.

(** * The query executor *)

(** C2: when [isSingleStatement] rejects the query, [pg_query] returns the
    multi-statement error result and leaves the process as it was: no
    descriptor is resolved, no pool is created or borrowed from, and the
    registry is unchanged. *)
Theorem pg_query_rejects_multi_statement (env : Env)
    (database query : jsString) (params : option (list Value))
    (limit : option Z) (w : World) :
  isSingleStatement query = false →
  pg_query env database query params limit w
  = ({| text := js "Error: Multi-statement queries are not allowed. Send one statement at a time.";
        isError := true |}, w).
Proof. intros Hmulti. unfold pg_query. by rewrite Hmulti. Qed.

Lemma pg_query_rejects_multi_statement_witness :
  pg_query Scenario.env (js "prod") (js "SELECT 1; SELECT 2") None None
    Scenario.start
  = ({| text := js "Error: Multi-statement queries are not allowed. Send one statement at a time.";
        isError := true |}, Scenario.start).
Proof.
  apply pg_query_rejects_multi_statement. vm_compute. reflexivity.
Defined.

(** C3: when the statement fails inside the opened transaction, [pg_query]
    issues [ROLLBACK], ignores whatever the [ROLLBACK] itself yields,
    releases the client, and returns the error result made of the
    statement's own error. *)
Theorem pg_query_rolls_back_and_reports (env : Env)
    (database query : jsString) (params : option (list Value))
    (limit : option Z) (w : World)
    conn w1 conn' w2 p w3 client w4 begun w5 e w6 outcome w7 :
  isSingleStatement query = true →
  getConnection env database w = (inr conn, w1) →
  getConnection env database w1 = (inr conn', w2) →
  getOrCreatePool env conn' w2 = (inr p, w3) →
  poolConnect env p w3 = (inr client, w4) →
  clientQuery env client (beginStatement conn) None w4 = (inr begun, w5) →
  clientQuery env client query params w5 = (inl e, w6) →
  clientQuery env client (js "ROLLBACK") None w6 = (outcome, w7) →
  pg_query env database query params limit w
  = (errorResult e, log (EvRelease client) w7)
  ∧ history (log (EvRelease client) w7)
    = history w4
      ++ [EvQuery client (beginStatement conn) None;
          EvQuery client query params;
          EvQuery client (js "ROLLBACK") None;
          EvRelease client]
  ∧ errorResult e
    = {| text := js "Error: "
                 ++ match e with ThrownError m => m | ThrownOther t => t end;
         isError := true |}.
Proof.
  intros Hsingle Hconn Hconn' Hpool Hclient Hbegin Hstmt Hrollback.
  rewrite (pg_query_acquired env _ _ _ _ _ _ _ _ _ _ _ _ _
             Hsingle Hconn Hconn' Hpool Hclient).
  unfold transaction.
  rewrite (bind_ok _ _ _ _ _ Hbegin). unfold tryCatch.
  rewrite (bind_throw _ _ _ _ _ Hstmt).
  unfold mbind, M_bind, swallow, throw. rewrite Hrollback. simpl.
  split_and!; [done | | done].
  unfold clientQuery in *.
  injection Hbegin as _ <-. injection Hstmt as _ <-.
  injection Hrollback as _ <-. simpl. by rewrite <-!app_assoc.
Qed.

Lemma pg_query_rolls_back_and_reports_witness :
  (pg_query Scenario.env (js "prod") (js "SELECT 1/0") None None
     Scenario.start).1
  = {| text := js "Error: division by zero"; isError := true |}.
Proof.
  refine (eq_trans (f_equal fst (proj1
    (pg_query_rolls_back_and_reports Scenario.env (js "prod")
       (js "SELECT 1/0") None None Scenario.start
       _ _ _ _ _ _ _ _ _ _ _ _ _ _ _ _ _ _ _ _ _ _))) _);
    try (vm_compute; reflexivity).
Defined.

(** C4: once [pg_query] has resolved the descriptor and borrowed a client,
    the first statement it sends is [BEGIN TRANSACTION READ ONLY] when the
    descriptor's [readOnly] flag is true and plain [BEGIN] when it is
    false; and the flag of a parsed descriptor is [true] when the field is
    absent from the source. *)
Theorem pg_query_transaction_mode (env : Env)
    (database query : jsString) (params : option (list Value))
    (limit : option Z) (w : World) conn w1 conn' w2 p w3 client w4 :
  isSingleStatement query = true →
  getConnection env database w = (inr conn, w1) →
  getConnection env database w1 = (inr conn', w2) →
  getOrCreatePool env conn' w2 = (inr p, w3) →
  poolConnect env p w3 = (inr client, w4) →
  (∃ rest,
     history (pg_query env database query params limit w).2
     = history w4
       ++ EvQuery client
            (if readOnly conn then js "BEGIN TRANSACTION READ ONLY"
             else js "BEGIN") None
          :: rest)
  ∧ (∀ raw c, DbConnectionSchema raw = Some c →
              readOnly c = default true (raw_readOnly raw)).
Proof.
  intros Hsingle Hconn Hconn' Hpool Hclient. split.
  - rewrite (pg_query_acquired env _ _ _ _ _ _ _ _ _ _ _ _ _
               Hsingle Hconn Hconn' Hpool Hclient).
    unfold transaction, tryCatch, clientQuery, swallow, throw, mbind, M_bind,
      mret, M_ret, beginStatement.
    set (beginText := if readOnly conn then _ else _).
    destruct (client_query env (history w4) client beginText None);
      [eexists; simpl; by rewrite <-app_assoc|].
    destruct (client_query env _ client query params);
      [eexists; simpl; by rewrite <-!app_assoc|].
    destruct (client_query env _ client (js "COMMIT") None);
      eexists; simpl; by rewrite <-!app_assoc.
  - intros raw c. unfold DbConnectionSchema.
    destruct (raw_label raw) as [lbl|]; [|done]. simpl.
    case_match; [|done]. by intros [= <-].
Qed.

Lemma pg_query_transaction_mode_witness :
  (∃ before rest,
     history (pg_query Scenario.env (js "staging") (js "SELECT 1") None None
                Scenario.start).2
     = before ++ EvQuery 0 (js "BEGIN TRANSACTION READ ONLY") None :: rest
     ∧ last before = Some (EvConnect 0))
  ∧ (∃ before rest,
     history (pg_query Scenario.env (js "prod") (js "UPDATE t SET x = 1")
                None None Scenario.start).2
     = before ++ EvQuery 0 (js "BEGIN") None :: rest
     ∧ last before = Some (EvConnect 0)).
Proof.
  split.
  - edestruct (pg_query_transaction_mode Scenario.env (js "staging")
                 (js "SELECT 1") None None Scenario.start)
      as [[rest Hrest] _]; [vm_compute; reflexivity ..|].
    eexists _, rest. split; [exact Hrest | reflexivity].
  - edestruct (pg_query_transaction_mode Scenario.env (js "prod")
                 (js "UPDATE t SET x = 1") None None Scenario.start)
      as [[rest Hrest] _]; [vm_compute; reflexivity ..|].
    eexists _, rest. split; [exact Hrest | reflexivity].
Defined.

(** * Command line and start-up *)

(** X1: [getArg] yields a value exactly when the first occurrence of the
    flag is followed by an argument that is neither empty nor starts with
    two dashes, and then it is that argument; later occurrences of the flag
    are not looked at.  What it yields is never the empty string, so a
    label filter taken from it is truthy whenever it is not [null]. *)
Theorem getArg_first_occurrence (argv : list jsString) (name : jsString) :
  (∀ v, getArg argv name = Some v ↔
        ∃ idx, argv !! idx = Some name
               ∧ (∀ j a, argv !! j = Some a → j < idx → a ≠ name)
               ∧ argv !! (idx + 1) = Some v
               ∧ v ≠ [] ∧ take 2 v ≠ js "--")
  ∧ truthy (getArg argv name)
    = bool_decide (getArg argv name ≠ None).
Proof.
  assert (∀ v, getArg argv name = Some v ↔
        ∃ idx, argv !! idx = Some name
               ∧ (∀ j a, argv !! j = Some a → j < idx → a ≠ name)
               ∧ argv !! (idx + 1) = Some v
               ∧ v ≠ [] ∧ take 2 v ≠ js "--") as Hspec.
  { intros v. unfold getArg. split.
    - destruct (findIndex _ argv) as [idx|] eqn:Hidx; [|done].
      apply findIndex_Some in Hidx
        as (x & Hi & ->%bool_decide_eq_true & Hfirst).
      destruct (argv !! (idx + 1)) as [next|] eqn:Hnext; [|done].
      cbn [default from_option]. unfold id.
      destruct (negb (truthy (Some next))) eqn:Ht; [done|].
      destruct (startsWith (js "--") next) eqn:Hs; [done|].
      intros [= ->]. exists idx. split_and!; [done | | done | |].
      + intros j a Hj Hlt. by eapply bool_decide_eq_false_1, Hfirst.
      + by destruct v.
      + intros Htake. by rewrite (proj2 (startsWith_take (js "--") v)) in Hs.
    - intros (idx & Hi & Hfirst & Hnext & Hne & Htake).
      rewrite (proj2 (findIndex_Some _ argv idx)).
      + rewrite Hnext. cbn [default from_option]. unfold id.
        destruct v as [|c v]; [done|]. cbn [truthy negb orb].
        destruct (startsWith (js "--") (c :: v)) eqn:Hs; [|done].
        by apply startsWith_take in Hs.
      + exists name. split_and!; [done | by apply bool_decide_eq_true_2 |].
        intros j a Hj Hlt. by eapply bool_decide_eq_false_2, Hfirst. }
  split; [exact Hspec|].
  destruct (getArg argv name) as [v|] eqn:Hget; [|done].
  destruct (proj1 (Hspec v) eq_refl) as (_ & _ & _ & _ & Hne & _).
  by destruct v.
Qed.

(** X2: [checkConfigPermissions] never throws and leaves the module state
    alone.  On [win32] it does nothing.  Elsewhere it takes one [stat] of
    the file and warns exactly when one of the six permission bits of group
    and others is set in the reported mode; when [stat] fails it stays
    silent. *)
Theorem checkConfigPermissions_warns (platform : jsString)
    (stat_mode : list Event → option Z) (w : World) :
  ∃ w',
    checkConfigPermissions platform stat_mode w = (inr (), w')
    ∧ pools w' = pools w ∧ configCache w' = configCache w
    ∧ poolsCreated w' = poolsCreated w
    ∧ (platform = js "win32" → history w' = history w)
    ∧ (platform ≠ js "win32" →
       match stat_mode (history w) with
       | None => history w' = history w ++ [EvStat]
       | Some m =>
           ((∃ i, (0 ≤ i < 6)%Z ∧ Z.testbit m i = true) →
            history w' = history w ++ [EvStat; EvConsoleError])
           ∧ (¬ (∃ i, (0 ≤ i < 6)%Z ∧ Z.testbit m i = true) →
              history w' = history w ++ [EvStat])
       end).
Proof.
  unfold checkConfigPermissions. case_bool_decide as Hwin.
  { exists w. by split_and!. }
  unfold tryCatch, mbind, M_bind, emit, mret, M_ret.
  destruct (stat_mode (history w)) as [m|] eqn:Hstat.
  - cbv beta zeta. case_bool_decide as Hbits.
    + apply group_or_other_bits in Hbits.
      eexists. split_and!; try done. intros _. split; [|done].
      intros _. simpl. by rewrite <-app_assoc.
    + assert (¬ ∃ i, (0 ≤ i < 6)%Z ∧ Z.testbit m i = true) as Hnone
        by (by intros Hsome%group_or_other_bits).
      eexists. split_and!; try done.
  - eexists. split_and!; try done.
Qed.

Lemma checkConfigPermissions_warns_witness :
  history (checkConfigPermissions (js "linux") (λ _, Some 33188%Z)
             Scenario.start).2 = [EvStat; EvConsoleError]
  ∧ history (checkConfigPermissions (js "linux") (λ _, Some 33152%Z)
               Scenario.start).2 = [EvStat].
Proof.
  split.
  - destruct (checkConfigPermissions_warns (js "linux") (λ _, Some 33188%Z)
                Scenario.start) as (w' & Hrun & _ & _ & _ & _ & Hunix).
    rewrite Hrun. apply Hunix; [done|].
    exists 2%Z. split; [lia | reflexivity].
  - destruct (checkConfigPermissions_warns (js "linux") (λ _, Some 33152%Z)
                Scenario.start) as (w' & Hrun & _ & _ & _ & _ & Hunix).
    rewrite Hrun. apply Hunix; [done|].
    intros (i & Hi & Hbit).
    assert (i = 0 ∨ i = 1 ∨ i = 2 ∨ i = 3 ∨ i = 4 ∨ i = 5)%Z
      as [->|[->|[->|[->|[->| ->]]]]] by lia; discriminate Hbit.
Defined.

(** * Environment variable substitution *)

(** X3: in a string, the first placeholder [${name}] stands for
    [process.env] at the trimmed name, or for the empty string when that
    variable is unset; [${name:-default}] stands for the variable, or for
    the default when it is unset, the default being all the text after the
    first [:-] (further [:-] included).  What is put in is not searched for
    placeholders again, and the search goes on after the closing brace. *)
Theorem resolveEnvVars_placeholder (processEnv : jsString → option jsString)
    (pre name dflt post : jsString) :
  indexOf pre (js "${") 0 = None →
  indexOf name (js ":-") 0 = None →
  cu "}" ∉ name → cu "}" ∉ dflt →
  (name ≠ [] →
   resolveEnvVars processEnv
     (JString (pre ++ js "${" ++ name ++ js "}" ++ post))
   = JString (pre ++ default [] (processEnv (trim name))
              ++ resolveString processEnv post))
  ∧ resolveEnvVars processEnv
      (JString (pre ++ js "${" ++ (name ++ js ":-" ++ dflt) ++ js "}" ++ post))
    = JString (pre ++ default dflt (processEnv (trim name))
               ++ resolveString processEnv post).
Proof.
  intros Hpre Hname Hn Hd. split.
  - intros Hne. cbn [resolveEnvVars]. unfold resolveString.
    rewrite replaceAll_first by done. by rewrite substitute_bare.
  - cbn [resolveEnvVars]. unfold resolveString.
    rewrite replaceAll_first.
    + by rewrite substitute_fallback.
    + done.
    + by destruct name.
    + rewrite !not_elem_of_app. split_and!; [done | | done].
      intros [[=]|[[=]|[]%elem_of_nil]%elem_of_cons]%elem_of_cons.
Qed.

Lemma resolveEnvVars_placeholder_witness :
  resolveEnvVars testEnv (JString (js "postgres://${TEST_HOST}:${TEST_PORT}"))
  = JString (js "postgres://localhost:5432")
  ∧ resolveEnvVars testEnv (JString (js "sslmode=${ MODE :-a:-b} x"))
    = JString (js "sslmode=a:-b x").
Proof.
  split.
  - refine (eq_trans (proj1 (resolveEnvVars_placeholder testEnv
      (js "postgres://") (js "TEST_HOST") [] (js ":${TEST_PORT}")
      _ _ _ _) _) _);
      try (by vm_compute);
      apply (bool_decide_eq_true_1 _); vm_compute; reflexivity.
  - refine (eq_trans (proj2 (resolveEnvVars_placeholder testEnv
      (js "sslmode=") (js " MODE ") (js "a:-b") (js " x")
      _ _ _ _)) _);
      try (by vm_compute);
      apply (bool_decide_eq_true_1 _); vm_compute; reflexivity.
Defined.

(** X4: on a value none of whose objects has a member named [__proto__],
    [resolveEnvVars] changes nothing but the text of string values: member
    names and their order, array lengths, numbers, booleans and [null] stay
    as they are; and a value whose strings hold no [${] is returned
    unchanged. *)
Theorem resolveEnvVars_touches_strings_only
    (processEnv : jsString → option jsString) (obj : Json) :
  plainKeys obj = true →
  skeleton (resolveEnvVars processEnv obj) = skeleton obj
  ∧ (placeholderFree obj = true → resolveEnvVars processEnv obj = obj).
Proof.
  induction obj as [| b | n | s | items IH | members IH] using Json_ind;
    intros Hplain; try done.
  - split; [done|]. cbn [placeholderFree resolveEnvVars].
    intros Hfree%bool_decide_eq_true. unfold resolveString.
    by rewrite replaceAll_plain.
  - cbn [plainKeys] in Hplain. cbn [resolveEnvVars skeleton placeholderFree].
    induction IH as [|x items Hx _ IHitems]; [done|].
    cbn [forallb] in Hplain. apply andb_prop in Hplain as [Hpx Hpi].
    destruct (Hx Hpx) as [Hsx Hfx]. destruct (IHitems Hpi) as [Hsi Hfi].
    rewrite !fmap_cons. split.
    + injection Hsi as Hsi. by rewrite Hsx, Hsi.
    + cbn [forallb]. intros [Hf1 Hf2]%andb_prop.
      specialize (Hfi Hf2). injection Hfi as Hfi. by rewrite Hfx, Hfi.
  - cbn [plainKeys] in Hplain. cbn [resolveEnvVars skeleton placeholderFree].
    induction IH as [|[k v] members Hv _ IHmembers]; [done|].
    apply andb_prop in Hplain as [[Hk Hpv]%andb_prop Hpm].
    destruct (Hv Hpv) as [Hsv Hfv]. destruct (IHmembers Hpm) as [Hsm Hfm].
    rewrite Hk. cbn [snd] in *. split.
    + injection Hsm as Hsm. by rewrite Hsv, Hsm.
    + intros [Hf1 Hf2]%andb_prop.
      specialize (Hfm Hf2). injection Hfm as Hfm. by rewrite Hfv, Hfm.
Qed.

Lemma resolveEnvVars_touches_strings_only_witness :
  let obj :=
    JObject [(js "connections",
              JArray [JObject [(js "label", JString (js "${TEST_HOST}"));
                               (js "port", JNumber 5432)]])] in
  skeleton (resolveEnvVars testEnv obj) = skeleton obj.
Proof.
  intros obj.
  by destruct (resolveEnvVars_touches_strings_only testEnv obj eq_refl).
Defined.

(** * Configuration loading *)

(** X5: [loadConfig] never throws, and whatever it returns it has left the
    pool registry alone: its only interactions are with the clock, the file
    system and the diagnostics. *)
Theorem loadConfig_reads_only (env : Env) (w : World) :
  ∃ cs w' evs,
    loadConfig env w = (inr cs, w')
    ∧ pools w' = pools w ∧ poolsCreated w' = poolsCreated w
    ∧ history w' = history w ++ evs
    ∧ Forall (λ ev, configEvent ev = true) evs.
Proof.
  destruct (loadConfig_ok env w) as (cs & w' & Hrun).
  destruct (passive_loadConfig env _ _ _ Hrun) as (Hp & Hn & evs & Hh & Hall).
  by exists cs, w', evs.
Qed.

(** X6: when the cache does not answer and the file cannot be read, or what
    it holds does not pass the schema, [loadConfig] returns the empty list,
    not the snapshot it cached before, and leaves the cached snapshot and
    the pool registry as they were.  After the attempt to read the file it
    asks once whether the file exists and writes diagnostics only: two when
    the file does not exist, else a heading and one for each issue when the
    schema rejected the file, else one. *)
Theorem loadConfig_failure_is_empty (env : Env) (w w0 : World) :
  checkCache env w = (inr None, w0) →
  (∀ raw, readConfig env (history w0) = inr raw → DbConfigSchema raw = None) →
  ∃ w',
    loadConfig env w = (inr [], w')
    ∧ configCache w' = configCache w ∧ pools w' = pools w
    ∧ history w'
      = history w0
        ++ [EvReadFile; EvExists]
        ++ replicate
             (if existsSync env (history w0 ++ [EvReadFile])
              then match readConfig env (history w0) with
                   | inr raw => 1 + ZodError_issues env raw
                   | inl _ => 1
                   end
              else 2) EvConsoleError.
Proof.
  intros Hmiss Hbad.
  destruct (loadConfig_fails env _ _ Hmiss Hbad) as (w' & Hrun & Hp & Hc & Hh).
  apply checkCache_miss in Hmiss as [Hc0 Hp0].
  exists w'. split_and!; [done | congruence | congruence | exact Hh].
Qed.

Lemma loadConfig_failure_is_empty_witness :
  (∃ w', loadConfig Cases.unreadable (Cases.loaded (-10000)) = (inr [], w')
         ∧ configCache w' = configCache (Cases.loaded (-10000))
         ∧ history w'
           = [EvNow; EvStat; EvReadFile; EvExists;
              EvConsoleError; EvConsoleError])
  ∧ ∃ w', loadConfig Cases.invalid Scenario.start = (inr [], w')
          ∧ history w'
            = [EvReadFile; EvExists; EvConsoleError; EvConsoleError].
Proof.
  split.
  - edestruct (loadConfig_failure_is_empty Cases.unreadable
                 (Cases.loaded (-10000))) as (w' & Hrun & Hc & _ & Hh).
    + vm_compute. reflexivity.
    + intros raw. by vm_compute.
    + exists w'. split_and!; [exact Hrun | exact Hc | exact Hh].
  - edestruct (loadConfig_failure_is_empty Cases.invalid Scenario.start)
      as (w' & Hrun & _ & _ & Hh).
    + vm_compute. reflexivity.
    + intros raw [= <-]. vm_compute. reflexivity.
    + exists w'. split; [exact Hrun | exact Hh].
Defined.

(** X7: the file is accepted as a whole or not at all: when one
    descriptor of the file breaks a constraint of the schema, a full reload
    returns the empty list, hiding the valid descriptors too; when every
    descriptor keeps the constraints, the reload returns the snapshot made
    of all of them, parsed one by one. *)
Theorem loadConfig_all_or_nothing (env : Env) (w w0 : World)
    (raw : list RawConnection) :
  checkCache env w = (inr None, w0) →
  readConfig env (history w0) = inr raw →
  ((∃ r, r ∈ raw ∧ ¬ acceptable r) → (loadConfig env w).1 = inr [])
  ∧ (Forall acceptable raw →
     ∃ parsed,
       Forall2 (λ r c, DbConnectionSchema r = Some c) raw parsed
       ∧ (loadConfig env w).1
         = inr (publishConnections (LABEL_FILTER env) parsed)).
Proof.
  intros Hmiss Hread. split.
  - intros (r & Hr & Hbad).
    destruct (loadConfig_fails env w w0 Hmiss) as (w' & -> & _); [|done].
    intros raw' Hread'. rewrite Hread in Hread'. injection Hread' as <-.
    apply mapM_None, Exists_exists. exists r. split; [done|].
    destruct (DbConnectionSchema r) eqn:Hr'; [|done].
    destruct Hbad. apply DbConnectionSchema_acceptable. by eexists.
  - intros Hall.
    assert (is_Some (DbConfigSchema raw)) as [parsed Hparse].
    { apply mapM_is_Some. eapply Forall_impl; [exact Hall|].
      intros r Hr. by apply DbConnectionSchema_acceptable. }
    exists parsed. split; [by apply mapM_Some|].
    destruct (loadConfig_publishes env _ _ _ _ Hmiss Hread Hparse)
      as (w' & m & t & -> & _). done.
Qed.

Lemma loadConfig_all_or_nothing_witness :
  (loadConfig Cases.invalid Scenario.start).1 = inr []
  ∧ (loadConfig Scenario.env Scenario.start).1
    = inr [Scenario.parsed "staging" true "main"; Cases.writable].
Proof.
  split.
  - destruct (loadConfig_all_or_nothing Cases.invalid Scenario.start
                _ _ eq_refl eq_refl) as [Hbad _].
    apply Hbad. eexists. split; [by right; left|].
    intros (_ & _ & Hsize & _). vm_compute in Hsize. by destruct Hsize as [[] _].
  - destruct (loadConfig_all_or_nothing Scenario.env Scenario.start
                _ _ eq_refl eq_refl) as [_ Hgood].
    destruct Hgood as (parsed & Hparsed & ->).
    + apply Forall_forall. intros r Hr.
      apply elem_of_cons in Hr as [->|Hr];
        [|apply elem_of_cons in Hr as [->|Hr]; [|by apply elem_of_nil in Hr]];
        (split; [eexists; split; [reflexivity | cbv; lia]|];
         split; [by vm_compute|]; split; [by vm_compute | by right]).
    + apply mapM_Some_2 in Hparsed. vm_compute in Hparsed.
      by injection Hparsed as <-.
Defined.

(** X8: a cached snapshot younger than [CONFIG_CACHE_TTL] is returned with
    no access to the file system at all; an older one whose file still has
    the recorded modification time is returned after a [stat] alone, and
    its age starts anew.  In both cases the file is not read. *)
Theorem loadConfig_serves_cache (env : Env) (w : World) (cc : ConfigCache) :
  configCache w = Some cc →
  let t := Date_now env (history w) in
  ((t - loadedAt cc < CONFIG_CACHE_TTL)%Z →
   loadConfig env w = (inr (connections cc), log EvNow w))
  ∧ (¬ (t - loadedAt cc < CONFIG_CACHE_TTL)%Z →
     stat_mtimeMs env (history w ++ [EvNow]) = Some (mtime cc) →
     ∃ w',
       loadConfig env w = (inr (connections cc), w')
       ∧ history w' = history w ++ [EvNow; EvStat; EvNow]
       ∧ configCache w'
         = Some {| connections := connections cc; mtime := mtime cc;
                   loadedAt :=
                     Date_now env (history w ++ [EvNow; EvStat]) |}
       ∧ pools w' = pools w).
Proof.
  intros Hcc t. unfold loadConfig, tryLoad, checkCache, tryCatch, mbind,
    M_bind, getCache, now, stat, setCache, mret, M_ret.
  rewrite Hcc. fold t. split.
  - intros Hfresh. by rewrite bool_decide_eq_true_2.
  - intros Hold Hstat. rewrite bool_decide_eq_false_2 by done. simpl.
    rewrite Hstat. rewrite bool_decide_eq_true_2 by done. simpl.
    eexists. split_and!; [reflexivity | | | done]; simpl.
    + by rewrite <-!app_assoc.
    + by rewrite <-!app_assoc.
Qed.

Lemma loadConfig_serves_cache_witness :
  loadConfig Scenario.env (Cases.loaded 0)
  = (inr [Scenario.parsed "staging" true "main"], log EvNow (Cases.loaded 0))
  ∧ ∃ w', loadConfig Scenario.env (Cases.loaded (-10000))
          = (inr [Scenario.parsed "staging" true "main"], w')
          ∧ history w' = [EvNow; EvStat; EvNow].
Proof.
  split.
  - apply (loadConfig_serves_cache Scenario.env (Cases.loaded 0) _ eq_refl).
    by vm_compute.
  - edestruct (loadConfig_serves_cache Scenario.env (Cases.loaded (-10000))
                 _ eq_refl) as [_ (w' & Hrun & Hh & _)].
    + by vm_compute.
    + reflexivity.
    + exists w'. split; [exact Hrun | exact Hh].
Defined.

(** X9: a cached snapshot older than [CONFIG_CACHE_TTL] whose file has
    another modification time than the recorded one, or can no longer be
    inspected, is replaced: the file is read again, and what is returned,
    and cached from then on, is the snapshot made of its descriptors.  The
    pools of the registry are not touched by the reload. *)
Theorem loadConfig_reloads_changed_file (env : Env) (w : World)
    (cc : ConfigCache) (raw : list RawConnection)
    (parsed : list DbConnection) :
  configCache w = Some cc →
  ¬ (Date_now env (history w) - loadedAt cc < CONFIG_CACHE_TTL)%Z →
  stat_mtimeMs env (history w ++ [EvNow]) ≠ Some (mtime cc) →
  readConfig env (history w ++ [EvNow; EvStat]) = inr raw →
  DbConfigSchema raw = Some parsed →
  ∃ w' m t,
    loadConfig env w
    = (inr (publishConnections (LABEL_FILTER env) parsed), w')
    ∧ configCache w'
      = Some {| connections := publishConnections (LABEL_FILTER env) parsed;
                mtime := m; loadedAt := t |}
    ∧ pools w' = pools w.
Proof.
  intros Hcc Hold Hstat Hread Hparse.
  pose proof (checkCache_stale env _ _ Hcc Hold Hstat) as Hmiss.
  destruct (loadConfig_publishes env _ _ raw parsed Hmiss) as
    (w' & m & t & Hrun & Hcache & Hpools); [|done|].
  - simpl. by rewrite <-app_assoc.
  - by exists w', m, t.
Qed.

Lemma loadConfig_reloads_changed_file_witness :
  (loadConfig Scenario.env Cases.stale).1
  = inr [Scenario.parsed "staging" true "main"; Cases.writable].
Proof.
  edestruct (loadConfig_reloads_changed_file Scenario.env Cases.stale)
    as (w' & m & t & Hrun & _).
  - reflexivity.
  - by vm_compute.
  - by vm_compute.
  - vm_compute. reflexivity.
  - vm_compute. reflexivity.
  - by rewrite Hrun.
Defined.

(** X10: after a full reload, [getConnection] resolves a label to the first
    descriptor of the file that carries it, provided that one is enabled
    and the label filter, if set, names this label; a disabled first
    occurrence hides the label even when a later duplicate is enabled.  In
    every other case it throws the error that lists the labels of the
    snapshot. *)
Theorem getConnection_after_reload (env : Env) (w w0 : World)
    (raw : list RawConnection) (parsed : list DbConnection)
    (lbl : jsString) :
  checkCache env w = (inr None, w0) →
  readConfig env (history w0) = inr raw →
  DbConfigSchema raw = Some parsed →
  let visible c :=
    enabled c = true
    ∧ (truthy (LABEL_FILTER env) = true → LABEL_FILTER env = Some lbl) in
  let missing :=
    inl (notFound lbl (publishConnections (LABEL_FILTER env) parsed)) in
  (∀ i c, firstOccurrence parsed i c → label c = lbl →
     (visible c → (getConnection env lbl w).1 = inr c)
     ∧ (¬ visible c → (getConnection env lbl w).1 = missing))
  ∧ ((∀ c, c ∈ parsed → label c ≠ lbl) →
     (getConnection env lbl w).1 = missing).
Proof.
  intros Hmiss Hread Hparse visible missing.
  destruct (loadConfig_publishes env _ _ _ _ Hmiss Hread Hparse)
    as (w' & m & t & Hload & _).
  assert (∀ c, c ∈ publishConnections (LABEL_FILTER env) parsed →
               label c = lbl →
               (getConnection env lbl w).1 = inr c) as Hfound.
  { intros c Hc Hl. unfold getConnection.
    rewrite (bind_ok _ _ _ _ _ Hload). cbv beta.
    by rewrite (find_label_Some _ _ c (publish_NoDup _ _) Hc Hl). }
  assert ((∀ c, c ∈ publishConnections (LABEL_FILTER env) parsed →
                label c ≠ lbl) →
          (getConnection env lbl w).1 = missing) as Hnone.
  { intros Hno. unfold getConnection.
    rewrite (bind_ok _ _ _ _ _ Hload). cbv beta.
    by rewrite find_label_None. }
  split.
  - intros i c Hfirst Hl. split.
    + intros [He Hf]. apply Hfound; [|done]. apply publish_elem.
      split_and!; [by exists i | done |]. intros Ht. rewrite Hl. by rewrite Hf.
    + intros Hhidden. apply Hnone.
      intros c' ([j Hj] & He & Hf)%publish_elem Hl'.
      assert (c' = c) as -> by (eapply firstOccurrence_unique; [done..|congruence]).
      apply Hhidden. split; [done|]. intros Ht. rewrite <-(Hf Ht).
      by rewrite Hl.
  - intros Hno. apply Hnone.
    intros c ([j [Hj _]] & _)%publish_elem.
    apply Hno. by eapply list_elem_of_lookup_2.
Qed.

Lemma getConnection_after_reload_witness :
  (getConnection Scenario.env (js "staging") Scenario.start).1
  = inr (Scenario.parsed "staging" true "main")
  ∧ (getConnection (Cases.filtered "staging") (js "prod") Scenario.start).1
    = inl (ThrownError
             (js "Database " ++ [dquote] ++ js "prod" ++ [dquote]
              ++ js " not found. Available: staging")).
Proof.
  split.
  - destruct (getConnection_after_reload Scenario.env Scenario.start
                _ _ _ (js "staging") eq_refl eq_refl eq_refl) as [Hfirst _].
    apply (Hfirst 0 (Scenario.parsed "staging" true "main")).
    + split; [reflexivity | intros j c' _ Hj; lia].
    + reflexivity.
    + split; [reflexivity | intros [=]].
  - destruct (getConnection_after_reload (Cases.filtered "staging")
                Scenario.start _ _ _ (js "prod") eq_refl eq_refl eq_refl)
      as [Hfirst _].
    edestruct (Hfirst 1) as [_ Hhidden].
    + split; [reflexivity|]. intros [|j] c' Hj Hlt; [|lia].
      injection Hj as <-. by vm_compute.
    + reflexivity.
    + rewrite Hhidden; [reflexivity|]. intros [_ Hf]. by specialize (Hf eq_refl).
Defined.

(** * The statement classifier under continuation *)

(** X11: a rejection is final: when [isSingleStatement] rejects a text, it
    rejects every text that continues it; equally, every prefix of an
    accepted text is accepted.  Nothing appended after an offending
    boundary marker, comment or quote, can hide it. *)
Theorem isSingleStatement_rejection_is_final (sql more : jsString) :
  isSingleStatement sql = false → isSingleStatement (sql ++ more) = false.
Proof.
  unfold isSingleStatement. rewrite !scanFrom_false.
  intros (p & Hp & Hm & (m & c & Hle & Hc & Hws)).
  exists p. split; [by apply outside_app|]. split.
  - by apply lookup_app_l_Some.
  - exists m, c. split_and!; [done | by apply lookup_app_l_Some | done].
Qed.

Lemma isSingleStatement_rejection_is_final_witness :
  isSingleStatement (js "SELECT 1; DROP TABLE t" ++ js " -- '") = false.
Proof.
  apply isSingleStatement_rejection_is_final. vm_compute. reflexivity.
Defined.

(** * The pool registry and the borrowed clients *)

(** X12: [getOrCreatePool] keeps the registry and the history in agreement
    (no pool under two labels, no registered pool ended, no pool ended
    twice, no client borrowed from an ended pool), returns a pool that is
    registered and has not been ended, and leaves the entries of all other
    labels as they were. *)
Theorem getOrCreatePool_keeps_registry (env : Env) (conn : DbConnection)
    (w : World) :
  sound w →
  ∃ p w',
    getOrCreatePool env conn w = (inr p, w')
    ∧ sound w'
    ∧ (∃ e, pools w' !! label conn = Some e ∧ pool e = p)
    ∧ (EvPoolEnd p ∉ history w')
    ∧ ∀ l, l ≠ label conn → pools w' !! l = pools w !! l.
Proof.
  intros Hw. destruct (getOrCreatePool_ok env conn w) as (p & w' & Hrun).
  exists p, w'.
  pose proof (sound_getOrCreatePool env _ _ _ _ Hrun Hw) as Hw'.
  pose proof (getOrCreatePool_entry env _ _ _ _ Hrun) as Hentry.
  split_and!; [done | done | by eexists | |].
  - by apply (sound_live _ Hw' _ _ Hentry).
  - intros l Hl. revert Hrun. unfold getOrCreatePool, installPool.
    destruct (pools w !! label conn) as [old|]; [case_bool_decide|];
      intros [= _ <-]; simpl; by rewrite ?lookup_insert_ne.
Qed.

Lemma getOrCreatePool_keeps_registry_witness :
  ∃ p w',
    getOrCreatePool Scenario.env (Scenario.parsed "prod" true "main")
      Scenario.start = (inr p, w')
    ∧ sound w'.
Proof.
  destruct (getOrCreatePool_keeps_registry Scenario.env
              (Scenario.parsed "prod" true "main") Scenario.start)
    as (p & w' & Hrun & Hw' & _).
  - apply sound_initial.
  - by exists p, w'.
Defined.

(** X13: [pg_query] and [pg_explain] keep the registry and the history in
    agreement: whatever the inputs and the answers of the surroundings, a
    handler borrows only from a pool that is registered and has not been
    ended, ends a pool at most once, and never registers one pool under two
    labels. *)
Theorem handlers_keep_registry (env : Env) (database query : jsString)
    (params : option (list Value)) (limit : option Z) (w : World) :
  sound w →
  (sound (pg_query env database query params limit w).2
   ∧ sound (pg_explain env database query params w).2)
  ∧ borrowsRegistered w (pg_query env database query params limit w).2
  ∧ borrowsRegistered w (pg_explain env database query params w).2.
Proof.
  intros Hw. split_and!.
  - unfold pg_query. destruct (negb (isSingleStatement query)); [done|].
    unfold mbind at 1, M_bind at 1.
    destruct (getConnection env database w) as [[e|conn] w1] eqn:Hconn;
      pose proof (sound_extends _ _ _ configEvent_harmless
                    (passive_getConnection env _ _ _ _ Hconn) Hw) as Hw1;
      [done|].
    unfold mbind, M_bind.
    destruct (withPool env database _ w1) as [[e|res] w2] eqn:Hrun; simpl;
      (eapply sound_withPool; [|exact Hrun|exact Hw1]);
      intros client; apply passive_transaction.
  - unfold pg_explain. destruct (negb (isSingleStatement query)); [done|].
    unfold mbind, M_bind.
    destruct (withPool env database _ w) as [[e|res] w2] eqn:Hrun.
    + simpl. eapply sound_withPool; [|exact Hrun|exact Hw].
      intros client. eapply passive_weaken;
        [apply explainEvent_queryOn | apply passive_explainTransaction].
    + assert (sound w2) as Hw2.
      { eapply sound_withPool; [|exact Hrun|exact Hw].
        intros client. eapply passive_weaken;
          [apply explainEvent_queryOn | apply passive_explainTransaction]. }
      by destruct (rows res).
  - destruct (isSingleStatement query) eqn:Hsingle; cycle 1.
    { unfold pg_query. rewrite Hsingle. apply borrowsRegistered_refl. }
    destruct (getConnection env database w) as [[e|conn] w1] eqn:Hconn;
      pose proof (passive_getConnection env _ _ _ _ Hconn) as Hext.
    { unfold pg_query. rewrite Hsingle. change (negb true) with false.
      cbv iota. rewrite (bind_throw _ _ _ _ _ Hconn).
      by apply borrowsRegistered_config. }
    destruct (withPool env database (transaction env conn query params) w1)
      as [r w2] eqn:Hrun.
    rewrite (pg_query_run env _ _ _ _ _ _ _ _ _ Hsingle Hconn Hrun).
    apply (borrowsRegistered_after _ _ _ Hext).
    eapply withPool_registered; [|exact Hrun].
    intros client. apply passive_transaction.
  - destruct (isSingleStatement query) eqn:Hsingle; cycle 1.
    { unfold pg_explain. rewrite Hsingle. apply borrowsRegistered_refl. }
    destruct (withPool env database
                (explainTransaction env (explainStatement query) params) w)
      as [r w2] eqn:Hrun.
    rewrite (pg_explain_run env _ _ _ _ _ _ Hsingle Hrun).
    eapply withPool_registered; [|exact Hrun].
    intros client. eapply passive_weaken;
      [apply explainEvent_queryOn | apply passive_explainTransaction].
Qed.

Lemma handlers_keep_registry_witness :
  sound (pg_query Scenario.env (js "prod") (js "SELECT 1") None None
           Scenario.start).2
  ∧ sound (pg_explain Scenario.env (js "prod") (js "SELECT 1") None
             Scenario.start).2.
Proof. apply handlers_keep_registry, sound_initial. Defined.

(** * The query executor on its other paths *)

(** X14: whatever the inputs and the answers of the surroundings, the
    history of one [pg_query] is made of interactions that borrow nothing,
    followed by one of: nothing more (and the result is an error); one
    refused borrowing (and the result is its error); or one borrowing, then
    statements on the borrowed client only, then the release of that client
    as the last interaction. *)
Theorem pg_query_borrows_once (env : Env) (database query : jsString)
    (params : option (list Value)) (limit : option Z) (w : World) :
  let res := pg_query env database query params limit w in
  ∃ setup rest,
    history res.2 = history w ++ setup ++ rest
    ∧ Forall (λ ev, setupEvent ev = true) setup
    ∧ ((rest = [] ∧ isError res.1 = true)
       ∨ (∃ p e, rest = [EvConnect p]
                 ∧ pool_connect env (history w ++ setup) p = Some e
                 ∧ res.1 = errorResult e)
       ∨ (∃ p qs, rest = EvConnect p :: qs ++ [EvRelease p]
                  ∧ pool_connect env (history w ++ setup) p = None
                  ∧ Forall (λ ev, queryOn p ev = true) qs)).
Proof.
  cbv zeta. destruct (isSingleStatement query) eqn:Hsingle; cycle 1.
  { unfold pg_query. rewrite Hsingle.
    exists [], []. rewrite !app_nil_r. split_and!; [done | done |]. by left. }
  destruct (getConnection env database w) as [[e|conn] w1] eqn:Hconn;
    destruct (passive_getConnection env _ _ _ _ Hconn)
      as (_ & _ & evs0 & Hh0 & Hall0);
    pose proof (Forall_impl _ _ _ Hall0 configEvent_setup) as Hsetup0.
  { unfold pg_query. rewrite Hsingle. change (negb true) with false. cbv iota.
    rewrite (bind_throw _ _ _ _ _ Hconn).
    exists evs0, []. rewrite app_nil_r. split_and!; [done | done |]. by left. }
  destruct (withPool env database (transaction env conn query params) w1)
    as [r w2] eqn:Hrun.
  rewrite (pg_query_run env _ _ _ _ _ _ _ _ _ Hsingle Hconn Hrun).
  destruct (withPool_trace env queryOn _ _ _ _ _
              (passive_transaction env conn query params) Hrun)
    as (setup & rest & Hh & Hsetup & Hrest).
  exists (evs0 ++ setup), rest.
  assert (history w1 ++ setup = history w ++ evs0 ++ setup) as Hpre
    by (by rewrite Hh0, <-app_assoc).
  rewrite <-Hpre. simpl.
  split_and!; [by rewrite Hh, Hh0, <-!app_assoc | by apply Forall_app |].
  destruct Hrest as [[-> [e ->]] | [(p & e & -> & Hp & ->) | Hserved]].
  - by left.
  - right; left. by exists p, e.
  - by right; right.
Qed.

(** X15: when the statement succeeds, [pg_query] sends [COMMIT]; if the
    commit succeeds the result is made of the statement's rows and the
    history of the client is [BEGIN], statement, [COMMIT], release; if the
    commit fails, [ROLLBACK] is sent, its outcome ignored, the client
    released, and the error reported is the one of the commit. *)
Theorem pg_query_commits (env : Env) (database query : jsString)
    (params : option (list Value)) (limit : option Z) (w : World)
    conn w1 conn' w2 p w3 client w4 begun w5 result w6 committed w7 :
  isSingleStatement query = true →
  getConnection env database w = (inr conn, w1) →
  getConnection env database w1 = (inr conn', w2) →
  getOrCreatePool env conn' w2 = (inr p, w3) →
  poolConnect env p w3 = (inr client, w4) →
  clientQuery env client (beginStatement conn) None w4 = (inr begun, w5) →
  clientQuery env client query params w5 = (inr result, w6) →
  clientQuery env client (js "COMMIT") None w6 = (committed, w7) →
  match committed with
  | inr _ =>
      pg_query env database query params limit w
      = (formatResult env result limit, log (EvRelease client) w7)
      ∧ history (log (EvRelease client) w7)
        = history w4
          ++ [EvQuery client (beginStatement conn) None;
              EvQuery client query params;
              EvQuery client (js "COMMIT") None;
              EvRelease client]
  | inl e =>
      ∀ outcome w8,
        clientQuery env client (js "ROLLBACK") None w7 = (outcome, w8) →
        pg_query env database query params limit w
        = (errorResult e, log (EvRelease client) w8)
        ∧ history (log (EvRelease client) w8)
          = history w4
            ++ [EvQuery client (beginStatement conn) None;
                EvQuery client query params;
                EvQuery client (js "COMMIT") None;
                EvQuery client (js "ROLLBACK") None;
                EvRelease client]
  end.
Proof.
  intros Hsingle Hconn Hconn' Hpool Hclient Hbegin Hstmt Hcommit.
  rewrite (pg_query_acquired env _ _ _ _ _ _ _ _ _ _ _ _ _
             Hsingle Hconn Hconn' Hpool Hclient).
  unfold transaction. rewrite (bind_ok _ _ _ _ _ Hbegin). unfold tryCatch.
  rewrite (bind_ok _ _ _ _ _ Hstmt).
  apply clientQuery_history in Hbegin as Hh5.
  apply clientQuery_history in Hstmt as Hh6.
  apply clientQuery_history in Hcommit as Hh7.
  destruct committed as [e|done].
  - intros outcome w8 Hrollback.
    apply clientQuery_history in Hrollback as Hh8.
    rewrite (bind_throw _ _ _ _ _ Hcommit).
    unfold mbind, M_bind, swallow, throw. rewrite Hrollback. simpl.
    split; [done|]. rewrite Hh8, Hh7, Hh6, Hh5. by rewrite <-!app_assoc.
  - rewrite (bind_ok _ _ _ _ _ Hcommit). simpl.
    split; [done|]. rewrite Hh7, Hh6, Hh5. by rewrite <-!app_assoc.
Qed.

Lemma pg_query_commits_witness :
  (pg_query Scenario.env (js "prod") (js "UPDATE t SET x = 1") None None
     Scenario.start).1
  = {| text := js "Query executed. 0 row(s) affected. No rows returned.";
       isError := false |}.
Proof.
  refine (eq_trans (f_equal fst (proj1
    (pg_query_commits Scenario.env (js "prod") (js "UPDATE t SET x = 1")
       None None Scenario.start
       _ _ _ _ _ _ _ _ _ _ _ _ (inr _) _ _ _ _ _ _ _ _ _))) _);
    try (vm_compute; reflexivity).
Defined.

(** X16: when the statement that opens the transaction fails, [pg_query]
    sends nothing more on the client, neither the query nor [ROLLBACK]: it
    releases the client and reports that error. *)
Theorem pg_query_begin_fails (env : Env) (database query : jsString)
    (params : option (list Value)) (limit : option Z) (w : World)
    conn w1 conn' w2 p w3 client w4 e w5 :
  isSingleStatement query = true →
  getConnection env database w = (inr conn, w1) →
  getConnection env database w1 = (inr conn', w2) →
  getOrCreatePool env conn' w2 = (inr p, w3) →
  poolConnect env p w3 = (inr client, w4) →
  clientQuery env client (beginStatement conn) None w4 = (inl e, w5) →
  pg_query env database query params limit w
  = (errorResult e, log (EvRelease client) w5)
  ∧ history (log (EvRelease client) w5)
    = history w4
      ++ [EvQuery client (beginStatement conn) None; EvRelease client].
Proof.
  intros Hsingle Hconn Hconn' Hpool Hclient Hbegin.
  rewrite (pg_query_acquired env _ _ _ _ _ _ _ _ _ _ _ _ _
             Hsingle Hconn Hconn' Hpool Hclient).
  unfold transaction. rewrite (bind_throw _ _ _ _ _ Hbegin).
  apply clientQuery_history in Hbegin as Hh5. simpl.
  split; [done|]. rewrite Hh5. by rewrite <-!app_assoc.
Qed.

Lemma pg_query_begin_fails_witness :
  (pg_query Cases.down (js "prod") (js "SELECT 1") None None
     Scenario.start).1
  = {| text := js "Error: server closed the connection"; isError := true |}
  ∧ history (pg_query Cases.down (js "prod") (js "SELECT 1") None None
               Scenario.start).2
    = [EvReadFile; EvStat; EvNow; EvNow;
       EvPoolNew 0 (poolConfig (Scenario.parsed "prod" true "main"));
       EvConnect 0; EvQuery 0 (js "BEGIN") None; EvRelease 0].
Proof.
  split.
  - refine (eq_trans (f_equal fst (proj1
      (pg_query_begin_fails Cases.down (js "prod") (js "SELECT 1")
         None None Scenario.start _ _ _ _ _ _ _ _ _ _ _ _ _ _ _ _))) _);
      try (vm_compute; reflexivity).
  - vm_compute. reflexivity.
Defined.

(** X17: for a label the loaded snapshot does not hold, [pg_query] reports
    that the database was not found, with the labels of the snapshot (or
    [(none)] when there is none), and neither constructs a pool nor borrows
    a client. *)
Theorem pg_query_unknown_database (env : Env) (database query : jsString)
    (params : option (list Value)) (limit : option Z) (w : World)
    (cs : list DbConnection) (w1 : World) :
  isSingleStatement query = true →
  loadConfig env w = (inr cs, w1) →
  (∀ c, c ∈ cs → label c ≠ database) →
  pg_query env database query params limit w
  = ({| text :=
          js "Error: Database " ++ [dquote] ++ database ++ [dquote]
          ++ js " not found. Available: "
          ++ (if bool_decide (join (js ", ") (label <$> cs) = [])
              then js "(none)" else join (js ", ") (label <$> cs));
        isError := true |}, w1)
  ∧ pools w1 = pools w ∧ poolsCreated w1 = poolsCreated w
  ∧ ∃ evs, history w1 = history w ++ evs
           ∧ Forall (λ ev, configEvent ev = true) evs.
Proof.
  intros Hsingle Hload Hnone. split.
  - unfold pg_query. rewrite Hsingle. change (negb true) with false. cbv iota.
    rewrite (bind_throw _ _ _ _ _ (getConnection_missing env _ _ _ _
                                     Hload Hnone)).
    reflexivity.
  - exact (passive_loadConfig env _ _ _ Hload).
Qed.

Lemma pg_query_unknown_database_witness :
  (pg_query Scenario.env (js "dev") (js "SELECT 1") None None
     Scenario.start).1
  = {| text := js "Error: Database " ++ [dquote] ++ js "dev" ++ [dquote]
               ++ js " not found. Available: staging, prod";
       isError := true |}.
Proof.
  refine (eq_trans (f_equal fst (proj1
    (pg_query_unknown_database Scenario.env (js "dev") (js "SELECT 1")
       None None Scenario.start _ _ eq_refl eq_refl _))) _).
  - intros c Hc. vm_compute in Hc.
    apply elem_of_cons in Hc as [->|Hc]; [by vm_compute|].
    apply elem_of_cons in Hc as [->|Hc]; [by vm_compute|].
    by apply elem_of_nil in Hc.
  - reflexivity.
Defined.

(** X18: while the cached snapshot is fresh and the registry holds, for the
    label asked for, a pool with the fingerprint of its descriptor,
    [pg_query] constructs no pool and ends none: it reads the clock twice,
    borrows from the registered pool, and all that follows are statements on
    that client and its release.  The registry is left as it was. *)
Theorem pg_query_reuses_pool (env : Env) (database query : jsString)
    (params : option (list Value)) (limit : option Z) (w : World)
    (cc : ConfigCache) (conn : DbConnection) (entry : PoolEntry) :
  isSingleStatement query = true →
  configCache w = Some cc →
  (Date_now env (history w) - loadedAt cc < CONFIG_CACHE_TTL)%Z →
  (Date_now env (history w ++ [EvNow]) - loadedAt cc < CONFIG_CACHE_TTL)%Z →
  List.find (λ c, bool_decide (label c = database)) (connections cc)
  = Some conn →
  pools w !! label conn = Some entry →
  hash entry = connHash env conn →
  let res := pg_query env database query params limit w in
  pools res.2 = pools w ∧ poolsCreated res.2 = poolsCreated w
  ∧ ∃ rest,
      history res.2
      = history w ++ [EvNow; EvNow; EvConnect (pool entry)] ++ rest
      ∧ Forall (λ ev, queryOn (pool entry) ev || releaseOf (pool entry) ev
                      = true) rest.
Proof.
  intros Hsingle Hcc Hfresh Hfresh' Hfind Hentry Hhash res. subst res.
  pose proof (getConnection_hit env _ _ _ _ Hcc Hfresh Hfind) as Hconn.
  pose proof (getConnection_hit env database (log EvNow w) cc conn Hcc
                Hfresh' Hfind) as Hconn'.
  set (w2 := log EvNow (log EvNow w)) in *.
  assert (getOrCreatePool env conn w2 = (inr (pool entry), w2)) as Hpool.
  { unfold getOrCreatePool. change (pools w2) with (pools w).
    by rewrite Hentry, bool_decide_eq_true_2. }
  destruct (pool_connect env (history w2) (pool entry)) as [e|] eqn:Hclient.
  - assert (withPool env database (transaction env conn query params)
              (log EvNow w)
            = (inl e, log (EvConnect (pool entry)) w2)) as Hrun.
    { unfold withPool.
      rewrite (bind_ok _ _ _ _ _ Hconn'), (bind_ok _ _ _ _ _ Hpool).
      unfold mbind, M_bind, poolConnect. by rewrite Hclient. }
    rewrite (pg_query_run env _ _ _ _ _ _ _ _ _ Hsingle Hconn Hrun).
    split_and!; [done | done |]. exists []. split; [|done].
    simpl. by rewrite <-!app_assoc.
  - assert (poolConnect env (pool entry) w2
            = (inr (pool entry), log (EvConnect (pool entry)) w2)) as Hborrow
      by (unfold poolConnect; by rewrite Hclient).
    rewrite (pg_query_acquired env _ _ _ _ _ _ _ _ _ _ _ _ _
               Hsingle Hconn Hconn' Hpool Hborrow).
    destruct (transaction env conn query params (pool entry)
                (log (EvConnect (pool entry)) w2)) as [r w5] eqn:Htx.
    destruct (passive_transaction env _ _ _ _ _ _ _ Htx)
      as (Hp & Hn & qs & Hh & Hqs).
    destruct r as [e|result]; simpl;
      (split_and!; [by rewrite Hp | by rewrite Hn |]);
      exists (qs ++ [EvRelease (pool entry)]);
      (split; [rewrite Hh; simpl; by rewrite <-!app_assoc|]);
      (apply Forall_app; split;
       [eapply Forall_impl; [exact Hqs|]; by intros ev ->
       | constructor; [|done]; simpl; by apply bool_decide_eq_true_2]).
Qed.

Lemma pg_query_reuses_pool_witness :
  let w := (pg_query Scenario.env (js "prod") (js "SELECT 1") None None
              Scenario.start).2 in
  let res := pg_query Scenario.env (js "prod") (js "SELECT 2") None None w in
  pools res.2 = pools w
  ∧ ∃ rest, history res.2 = history w ++ [EvNow; EvNow; EvConnect 0] ++ rest.
Proof.
  intros w res.
  edestruct (pg_query_reuses_pool Scenario.env (js "prod") (js "SELECT 2")
               None None w) as (Hpools & _ & rest & Hhist & _).
  - vm_compute. reflexivity.
  - vm_compute. reflexivity.
  - by vm_compute.
  - by vm_compute.
  - vm_compute. reflexivity.
  - vm_compute. reflexivity.
  - vm_compute. reflexivity.
  - split; [exact Hpools | by exists rest].
Defined.

(** X19: a result with rows is reported as the JSON of a payload with the
    columns and the database's own row count; under a limit the payload
    holds the first [limit] rows only (all of them when there are no more
    than that), and it is marked truncated, with the total and the limit,
    exactly when rows were left out; without a limit it holds every row. *)
Theorem formatResult_limit (env : Env) (result : QueryResult)
    (limit : option Z) (rs : list Row) :
  rows result = Some rs → rs ≠ [] →
  (∀ l, limit = Some l → (0 < l)%Z) →
  ∃ payload,
    formatResult env result limit
    = {| text := JSON_stringify_payload env payload; isError := false |}
    ∧ pl_columns payload = fields result
    ∧ pl_rowCount payload = rowCount result
    ∧ match limit with
      | Some l =>
          pl_rows payload = take (Z.to_nat l) rs
          ∧ length (pl_rows payload) ≤ Z.to_nat l
          ∧ pl_truncated payload
            = if bool_decide (Z.to_nat l < length rs)
              then Some (length rs, l) else None
      | None => pl_rows payload = rs ∧ pl_truncated payload = None
      end.
Proof.
  intros Hrows Hne Hpos. unfold formatResult. rewrite Hrows.
  destruct rs as [|r rs]; [done|]. set (all := r :: rs).
  destruct limit as [l|]; [|eexists; split_and!; reflexivity].
  specialize (Hpos l eq_refl). cbn [default from_option]. unfold id.
  rewrite (bool_decide_eq_true_2 (l ≠ 0%Z)) by lia. cbn [andb].
  case_bool_decide as Hcut.
  - eexists. split_and!; try reflexivity; cbn [pl_rows pl_truncated].
    + unfold slice0. by rewrite bool_decide_eq_false_2 by lia.
    + unfold slice0. rewrite bool_decide_eq_false_2 by lia.
      rewrite length_take. lia.
    + by rewrite bool_decide_eq_true_2 by lia.
  - eexists. split_and!; try reflexivity; cbn [pl_rows pl_truncated].
    + rewrite take_ge; [done | lia].
    + lia.
    + by rewrite bool_decide_eq_false_2 by lia.
Qed.

Lemma formatResult_limit_witness :
  let row (n : nat) : Row := [(js "id", VNumber (Z.of_nat n))] in
  let result := {| rows := Some [row 1; row 2; row 3]; rowCount := Some 3%Z;
                   fields := [js "id"] |} in
  ∃ payload,
    formatResult Scenario.env result (Some 2%Z)
    = {| text := JSON_stringify_payload Scenario.env payload;
         isError := false |}
    ∧ pl_rows payload = [row 1; row 2]
    ∧ pl_truncated payload = Some (3, 2%Z).
Proof.
  intros row result.
  destruct (formatResult_limit Scenario.env result (Some 2%Z)
              [row 1; row 2; row 3] eq_refl)
    as (payload & Hfmt & _ & _ & Hrows & _ & Htrunc).
  - done.
  - intros l [= <-]. lia.
  - by exists payload.
Defined.

(** * The plan tool *)


(** X21: once [pg_explain] has opened its transaction, [ROLLBACK] follows
    the [EXPLAIN] statement whether that statement succeeded or failed, the
    outcome of the [ROLLBACK] is ignored, and the client is released; the
    transaction is opened with plain [BEGIN], whatever the descriptor's
    [readOnly] flag.  The result is the plan, one line per row, or the
    error of the statement. *)
Theorem pg_explain_always_rolls_back (env : Env) (database query : jsString)
    (params : option (list Value)) (w : World)
    conn w1 p w2 client w3 begun w4 outcome w5 ignored w6 :
  isSingleStatement query = true →
  getConnection env database w = (inr conn, w1) →
  getOrCreatePool env conn w1 = (inr p, w2) →
  poolConnect env p w2 = (inr client, w3) →
  clientQuery env client (js "BEGIN") None w3 = (inr begun, w4) →
  clientQuery env client
    (js "EXPLAIN (ANALYZE, BUFFERS, FORMAT TEXT) " ++ query) params w4
  = (outcome, w5) →
  clientQuery env client (js "ROLLBACK") None w5 = (ignored, w6) →
  pg_explain env database query params w
  = (match outcome with
     | inl e => errorResult e
     | inr result =>
         match rows result with
         | Some rs => {| text := planText env rs; isError := false |}
         | None =>
             errorResult
               (ThrownError
                  (js "Cannot read properties of undefined (reading 'map')"))
         end
     end, log (EvRelease client) w6)
  ∧ history (log (EvRelease client) w6)
    = history w3
      ++ [EvQuery client (js "BEGIN") None;
          EvQuery client
            (js "EXPLAIN (ANALYZE, BUFFERS, FORMAT TEXT) " ++ query) params;
          EvQuery client (js "ROLLBACK") None;
          EvRelease client].
Proof.
  intros Hsingle Hconn Hpool Hclient Hbegin Hstmt Hrollback.
  apply clientQuery_history in Hbegin as Hh4.
  apply clientQuery_history in Hstmt as Hh5.
  apply clientQuery_history in Hrollback as Hh6.
  split.
  - apply pg_explain_run; [done|].
    rewrite (withPool_borrowed env _ _ _ _ _ _ _ _ _ Hconn Hpool Hclient).
    unfold explainTransaction. rewrite (bind_ok _ _ _ _ _ Hbegin).
    unfold tryFinally, swallow, explainStatement. by rewrite Hstmt, Hrollback.
  - simpl. rewrite Hh6, Hh5, Hh4. by rewrite <-!app_assoc.
Qed.

Lemma pg_explain_always_rolls_back_witness :
  let res := pg_explain Scenario.env (js "staging") (js "DELETE FROM t") None
               Scenario.start in
  res.1 = {| text := []; isError := false |}
  ∧ history res.2
    = [EvReadFile; EvStat; EvNow;
       EvPoolNew 0 (poolConfig (Scenario.parsed "staging" true "main"));
       EvConnect 0;
       EvQuery 0 (js "BEGIN") None;
       EvQuery 0 (js "EXPLAIN (ANALYZE, BUFFERS, FORMAT TEXT) DELETE FROM t")
         None;
       EvQuery 0 (js "ROLLBACK") None;
       EvRelease 0].
Proof.
  pose proof (pg_explain_always_rolls_back Scenario.env (js "staging")
                (js "DELETE FROM t") None Scenario.start
                _ _ _ _ _ _ _ _ _ _ _ _
                eq_refl eq_refl eq_refl eq_refl eq_refl eq_refl eq_refl)
    as [Hrun Hhist].
  cbv zeta. rewrite Hrun. split; [reflexivity | exact Hhist].
Defined.

(** * The listing tools *)

(** X22: [pg_list_databases] never throws and leaves the pool registry
    alone, and its text is made of what is [listed] of each descriptor of
    the snapshot: two snapshots that differ only in passwords, in the text
    of connection strings, in the address fields a connection string
    overrides, in TLS options, or in pool sizes give the same text. *)
Theorem pg_list_databases_shows_no_secret (env : Env) (path : jsString)
    (w w' : World) (cs cs' : list DbConnection) (w1 w1' : World) :
  loadConfig env w = (inr cs, w1) →
  loadConfig env w' = (inr cs', w1') →
  listed <$> cs = listed <$> cs' →
  (∃ result, pg_list_databases env path w = (inr result, w1)
             ∧ (pg_list_databases env path w').1 = inr result)
  ∧ pools w1 = pools w ∧ poolsCreated w1 = poolsCreated w.
Proof.
  intros Hload Hload' Hsame. split.
  - unfold pg_list_databases.
    rewrite (bind_ok _ _ _ _ _ Hload), (bind_ok _ _ _ _ _ Hload').
    assert (length cs = length cs') as Hlen
      by (by rewrite <-(length_fmap listed cs), Hsame, length_fmap).
    assert (databaseLine env <$> cs = databaseLine env <$> cs') as Hlines.
    { eapply fmap_determined; [apply databaseLine_listed | done]. }
    rewrite <-Hlen, <-Hlines.
    case_bool_decide; eexists; split; reflexivity.
  - by destruct (passive_loadConfig env _ _ _ Hload) as (? & ? & _).
Qed.

Lemma pg_list_databases_shows_no_secret_witness :
  ∃ result,
    (pg_list_databases Scenario.env (js "/etc/config.json")
       (Cases.holding [Cases.secret "hunter2"])).1 = inr result
    ∧ (pg_list_databases Scenario.env (js "/etc/config.json")
         (Cases.holding [Cases.secret "correct horse"])).1 = inr result.
Proof.
  destruct (pg_list_databases_shows_no_secret Scenario.env
              (js "/etc/config.json")
              (Cases.holding [Cases.secret "hunter2"])
              (Cases.holding [Cases.secret "correct horse"])
              _ _ _ _ eq_refl eq_refl eq_refl)
    as [(result & Hrun & Hrun') _].
  exists result. by rewrite Hrun.
Defined.

(** X23: [pg_list_tables] and [pg_list_schemas] send one statement each,
    and its text is a constant of the program: the schema asked for reaches
    the database only as the bound parameter [$1], never as part of the SQL
    text.  The client is released after the statement, whose failure is the
    error reported. *)
Theorem catalog_tools_send_constant_text (env : Env)
    (database schema : jsString) (w : World) :
  sendsOnce env w (pg_list_tables env database schema w)
    tablesQuery (Some [VString schema])
  ∧ sendsOnce env w (pg_list_schemas env database w) schemasQuery None.
Proof.
  split.
  - apply (withPool_single env database tablesQuery (Some [VString schema])).
    intros result w'. destruct (rows result) as [rs|]; [|by eexists].
    case_bool_decide; by eexists.
  - apply (withPool_single env database schemasQuery None).
    intros result w'. destruct (rows result) as [rs|]; by eexists.
Qed.
